(** * Entity resolution and batched submission of the DFP line item generator

    A shallow embedding of [scripts/create-line-items-custom.js] (the
    [Dfp] wrapper: query builder, leveldb-backed lookups, preparation
    pipeline) and of the [splitBatches] helpers of the association scripts,
    followed by the properties of the specification that were checked
    against it. *)

From stdpp Require Import gmap strings list pretty.

Open Scope Z_scope.
Open Scope nat_scope.

(** ** JavaScript values *)

(** A value is a primitive or a reference into the object heap.  Numbers
    are the integers the code handles (date components, array lengths) and
    [VNaN], which [moment] gives back for an invalid date. *)
Inductive val :=
  | VUndef
  | VNull
  | VBool (b : bool)
  | VNum (z : Z)
  | VNaN
  | VStr (s : string)
  | VRef (l : nat).

(** A heap cell: a plain object is its own enumerable properties in
    insertion order; an array is its elements, together with the named
    properties that were set on it. *)
Inductive hobj :=
  | HObj (props : list (string * val))
  | HArr (elems : list val) (extras : list (string * val)).

#[global] Instance val_eq_dec : EqDecision val.
Proof. solve_decision. Defined.

#[global] Instance hobj_eq_dec : EqDecision hobj.
Proof. solve_decision. Defined.

(** [if (v)]: the falsy values are [undefined], [null], [false], [0],
    [NaN] and the empty string. *)
Definition truthy (v : val) : bool :=
  match v with
  | VUndef | VNull | VNaN => false
  | VBool b => b
  | VNum z => negb (Z.eqb z 0)
  | VStr s => negb (String.eqb s EmptyString)
  | VRef _ => true
  end.

(** ** BatchCoordinator: [splitBatches] *)

Module Batch.

(** lodash's [baseSlice(array, start, end)] for [start <= end]. *)
Definition baseSlice {A} (array : list A) (start end_ : nat) : list A :=
  take (end_ - start) (drop start array).

(** The loop of [_.chunk]:
    [while (index < length) result[resIndex++] = baseSlice(array, index, (index += size))].
    The fuel bounds the number of iterations. *)
Fixpoint chunk_while {A} (fuel : nat) (array : list A) (size index : nat)
  : list (list A) :=
  match fuel with
  | 0 => []
  | S fuel' =>
      if decide (index < length array)
      then baseSlice array index (index + size)
             :: chunk_while fuel' array size (index + size)
      else []
  end.

(** [_.chunk(array, size)] of lodash 3: a size below one counts as one. *)
Definition chunk {A} (array : list A) (size : nat) : list (list A) :=
  let size := Nat.max size 1 in
  chunk_while (length array) array size 0.

(** [splitBatches] of [scripts/create-associations-custom.js]; the progress
    bar it also creates is not part of the value returned. *)
Definition splitBatches {A} (lineItems : list A) : list (list A) :=
  chunk lineItems 100.

(** [splitBatches] of [scripts/delete-associations-custom.js]. *)
Definition splitBatches_delete {A} (lineItems : list A) : list (list A) :=
  chunk lineItems 50.

(** [ceil(len / n)] on naturals. *)
Definition ceil_div (len n : nat) : nat := (len + n - 1) / n.

End Batch.

(** ** The remote platform, the stores and the world *)

(** [new nodeGoogleDfp.Statement(query)]. *)
Record Statement := { filterStatement : string }.

(** One element of [response.results]; [result_id] is [None] when the
    element carries no [id]. *)
Record Result := { result_id : option string }.

(** A response of the remote platform; [results] is [None] when the
    response has no [results] property. *)
Record Response := { results : option (list Result) }.

Inductive ApiResult :=
  | ApiResolve (response : Response)
  | ApiReject (reason : string).

(** One invocation of [dfpUser.executeAPIFunction(service, method, input)]. *)
Record Call := { service : string; method : string; input : Statement }.

(** The five leveldb stores of the wrapper. *)
Inductive Store :=
  | criteriaKeyStore
  | criteriaValueStore
  | adUnitStore
  | orderStore
  | labelStore.

(** What a promise is rejected with. *)
Inductive error :=
  | Error (message : string)         (* [throw new Error(message)] *)
  | TypeError                        (* member access or call on a value without it *)
  | NotFoundError (key : string)     (* level: key not in the store *)
  | ReadError                        (* level: [get] without a key *)
  | WriteError (st : Store)          (* level: [put] failed *)
  | RemoteError (reason : string)    (* [executeAPIFunction] rejected *)
  | InvalidReference.                (* a reference outside the heap; no run has one *)

(** The components of a [moment] date; [None] is [NaN]. *)
Record Moment := {
  m_year : option Z; m_month : option Z; m_date : option Z;
  m_hour : option Z; m_minute : option Z }.

Inductive logged :=
  | LogText (text : string)
  | LogError (text : string) (e : error)
  | LogQuery (text : string) (q : Statement).

(** What the wrapper takes from outside: the remote platform (its answer may
    depend on the calls made so far), whether a write to a store fails, the
    string conversion of an object and [moment]'s parser. *)
Record Env := {
  remote : list Call → Call → ApiResult;
  putFails : Store → string → string → bool;
  objToString : list hobj → nat → string;
  moment : list hobj → val → string → Moment }.

Record World := {
  criteriaKeys : gmap string string;
  criteriaValues : gmap string string;
  adUnits : gmap string string;
  orders : gmap string string;
  labels : gmap string string;
  remoteCalls : list Call;
  console : list logged;
  heap : list hobj }.

Definition store_of (st : Store) (w : World) : gmap string string :=
  match st with
  | criteriaKeyStore => criteriaKeys w
  | criteriaValueStore => criteriaValues w
  | adUnitStore => adUnits w
  | orderStore => orders w
  | labelStore => labels w
  end.

Definition set_store (st : Store) (m : gmap string string) (w : World) : World :=
  match st with
  | criteriaKeyStore =>
      Build_World m (criteriaValues w) (adUnits w) (orders w) (labels w)
        (remoteCalls w) (console w) (heap w)
  | criteriaValueStore =>
      Build_World (criteriaKeys w) m (adUnits w) (orders w) (labels w)
        (remoteCalls w) (console w) (heap w)
  | adUnitStore =>
      Build_World (criteriaKeys w) (criteriaValues w) m (orders w) (labels w)
        (remoteCalls w) (console w) (heap w)
  | orderStore =>
      Build_World (criteriaKeys w) (criteriaValues w) (adUnits w) m (labels w)
        (remoteCalls w) (console w) (heap w)
  | labelStore =>
      Build_World (criteriaKeys w) (criteriaValues w) (adUnits w) (orders w) m
        (remoteCalls w) (console w) (heap w)
  end.

Definition set_remoteCalls (cs : list Call) (w : World) : World :=
  Build_World (criteriaKeys w) (criteriaValues w) (adUnits w) (orders w)
    (labels w) cs (console w) (heap w).

Definition set_console (c : list logged) (w : World) : World :=
  Build_World (criteriaKeys w) (criteriaValues w) (adUnits w) (orders w)
    (labels w) (remoteCalls w) c (heap w).

Definition set_heap (h : list hobj) (w : World) : World :=
  Build_World (criteriaKeys w) (criteriaValues w) (adUnits w) (orders w)
    (labels w) (remoteCalls w) (console w) h.

(** The world of a fresh process with empty stores. *)
Definition empty_world : World :=
  Build_World ∅ ∅ ∅ ∅ ∅ [] [] [].

(** ** Promises *)

Inductive outcome (A : Type) :=
  | Resolved (a : A)
  | Rejected (e : error).
Arguments Resolved {A} a.
Arguments Rejected {A} e.

(** A promise chain run to completion: the outcome and the world it leaves. *)
Definition Promise (A : Type) : Type := World → outcome A * World.

Definition resolve {A} (a : A) : Promise A := λ w, (Resolved a, w).
Definition reject {A} (e : error) : Promise A := λ w, (Rejected e, w).

(** [p.then(f)] *)
Definition then_ {A B} (p : Promise A) (f : A → Promise B) : Promise B :=
  λ w, match p w with
       | (Resolved a, w') => f a w'
       | (Rejected e, w') => (Rejected e, w')
       end.

(** [p.catch(handler)] *)
Definition catch_ {A} (p : Promise A) (handler : error → Promise A) : Promise A :=
  λ w, match p w with
       | (Resolved a, w') => (Resolved a, w')
       | (Rejected e, w') => handler e w'
       end.

(** [p.tap(f)]: runs [f], waits for it, keeps the value of [p]; a rejection
    of [f] rejects the chain. *)
Definition tap {A B} (p : Promise A) (f : A → Promise B) : Promise A :=
  then_ p (λ a, then_ (f a) (λ _, resolve a)).

Declare Scope promise_scope.
Delimit Scope promise_scope with promise.
Notation "'let*' x ':=' p 'in' q" := (then_ p (λ x, q))
  (at level 10, x name, p at level 100, q at level 200) : promise_scope.
Notation "'do' p 'in' q" := (then_ p (λ _, q))
  (at level 10, p at level 100, q at level 200) : promise_scope.
Open Scope promise_scope.

(** [Bluebird.map(items, f, {concurrency: 1})]: one item in flight at a
    time, the results in the order of the items, the first rejection rejects
    the whole.  Bluebird does not say in which order the items are started;
    here they are taken from left to right. *)
Fixpoint map_ {A B} (f : A → Promise B) (items : list A) : Promise (list B) :=
  match items with
  | [] => resolve []
  | x :: rest => let* y := f x in let* ys := map_ f rest in resolve (y :: ys)
  end.

(** [_.forEach(items, f)] for an [f] that never returns [false]. *)
Fixpoint forEach {A} (f : A → Promise unit) (items : list A) : Promise unit :=
  match items with
  | [] => resolve tt
  | x :: rest => do f x in forEach f rest
  end.

Definition console_log (entry : logged) : Promise unit :=
  λ w, (Resolved tt, set_console (console w ++ [entry]) w).

Definition read_heap : Promise (list hobj) := λ w, (Resolved (heap w), w).

(** ** Field lists *)

Definition LINE_ITEM_FIELDS : list string :=
  ["costType"; "creationDateTime"; "deliveryRateType"; "endDateTime";
   "externalId"; "id"; "isMissingCreatives"; "isSetTopBoxEnabled";
   "lastModifiedDateTime"; "lineItemType"; "name"; "orderId";
   "startDateTime"; "status"; "targeting"; "unitsBought"].

Definition CRITERIA_VALUE_FIELDS : list string :=
  ["id"; "customTargetingKeyId"; "name"; "displayName"; "matchType"].

Definition CRITERIA_KEY_FIELDS : list string :=
  ["id"; "name"; "displayName"; "type"].

Definition AD_UNIT_FIELDS : list string :=
  ["adUnitCode"; "id"; "name"; "parentId"; "status"; "lastModifiedDateTime"].

Definition ORDER_FIELDS : list string :=
  ["advertiserId"; "endDateTime"; "id"; "name"; "salespersonId";
   "startDateTime"; "status"; "traffickerId"; "lastModifiedDateTime"].

Definition ADVERTISER_FIELDS : list string :=
  ["id"; "name"; "type"; "lastModifiedDateTime"].

Definition LABEL_FIELDS : list string :=
  ["id"; "type"; "name"; "description"; "isActive"].

(** A resolved criteria entry, [{keyId: ..., valueIds: [...]}]. *)
Record Criterion := { keyId : string; valueIds : list string }.

(** ** String helpers *)

(** [s.replace(/ and $/, '')]: the final [" and "] is removed when the
    string ends with it. *)
Definition strip_final_and (s : string) : string :=
  let n := String.length s in
  if decide (5 ≤ n ∧ String.substring (n - 5) 5 s = " and ")
  then String.substring 0 (n - 5) s
  else s.

(** ['' + n] for a number. *)
Definition num_to_string (n : option Z) : string :=
  match n with
  | Some z => pretty z
  | None => "NaN"
  end.

Definition num_to_val (n : option Z) : val :=
  match n with
  | Some z => VNum z
  | None => VNaN
  end.

(** [obj[name]] on the own properties of an object. *)
Fixpoint lookup_prop (name : string) (props : list (string * val)) : val :=
  match props with
  | [] => VUndef
  | (k, v) :: rest => if decide (k = name) then v else lookup_prop name rest
  end.

(** [obj[name] = x]: an existing property keeps its place. *)
Fixpoint assign_prop (name : string) (x : val) (props : list (string * val))
  : list (string * val) :=
  match props with
  | [] => [(name, x)]
  | (k, v) :: rest =>
      if decide (k = name) then (k, x) :: rest
      else (k, v) :: assign_prop name x rest
  end.

(** [delete obj[name]] *)
Definition remove_prop (name : string) (props : list (string * val))
  : list (string * val) :=
  filter (λ kv, kv.1 ≠ name) props.

(** The one-character strings of a string. *)
Definition chars (s : string) : list string :=
  (λ c, String c EmptyString) <$> String.list_ascii_of_string s.

(** ** The wrapper *)

Section Dfp.

Context (env : Env).

(** String conversion, as done by [+] with a string and by level's key
    encoding. *)
Definition toStr (h : list hobj) (v : val) : string :=
  match v with
  | VUndef => "undefined"
  | VNull => "null"
  | VBool true => "true"
  | VBool false => "false"
  | VNum z => pretty z
  | VNaN => "NaN"
  | VStr s => s
  | VRef l => objToString env h l
  end.

(** The key level sees for a JavaScript value: [None] for [undefined] and
    [null], which level refuses. *)
Definition key_of_val (h : list hobj) (v : val) : option string :=
  match v with
  | VUndef | VNull => None
  | _ => Some (toStr h v)
  end.

(** The key level sees for a [Statement]: a plain object, whose string
    conversion is the same for every statement. *)
Definition key_of_statement (q : Statement) : option string :=
  Some "[object Object]".

(** [conditions[field]] *)
Definition cond (conditions : gmap string val) (field : string) : val :=
  default VUndef (conditions !! field).

(** The function [_makeQuery] reduces the fields with. *)
Definition query_step (h : list hobj) (conditions : gmap string val)
    (condition field : string) : string :=
  let addition := EmptyString in
  let addition :=
    if truthy (cond conditions field)
    then (((addition +:+ field) +:+ " like '")
            +:+ toStr h (cond conditions field)) +:+ "' and "
    else addition in
  condition +:+ addition.

(** [_makeQuery(conditions, fields)] *)
Definition _makeQuery (h : list hobj) (conditions : gmap string val)
    (fields : list string) : Statement :=
  let query := foldl (query_step h conditions) "Where " fields in
  let query := strip_final_and query in
  Build_Statement query.

(** [store.getAsync(key)]: the value stored under the key, a rejection
    when there is none or when the key is [undefined] or [null]. *)
Definition getAsync (st : Store) (key : option string) : Promise string :=
  λ w, match key with
       | None => (Rejected ReadError, w)
       | Some k =>
           match store_of st w !! k with
           | Some v => (Resolved v, w)
           | None => (Rejected (NotFoundError k), w)
           end
       end.

(** [store.putAsync(key, value)]: level refuses an [undefined] or [null]
    key; any other write fails when the environment says so. *)
Definition putAsync (st : Store) (key : option string) (value : string)
  : Promise unit :=
  λ w, match key with
       | None => (Rejected (WriteError st), w)
       | Some k =>
           if putFails env st k value
           then (Rejected (WriteError st), w)
           else (Resolved tt, set_store st (<[k:=value]> (store_of st w)) w)
       end.

(** [this.dfpUser.executeAPIFunction(service, method, query)] *)
Definition executeAPIFunction (service method : string) (query : Statement)
  : Promise Response :=
  λ w, let c := Build_Call service method query in
       let w' := set_remoteCalls (remoteCalls w ++ [c]) w in
       match remote env (remoteCalls w) c with
       | ApiResolve r => (Resolved r, w')
       | ApiReject reason => (Rejected (RemoteError reason), w')
       end.

Definition extractResults (response : Response) : Promise (list Result) :=
  match results response with
  | None => reject (Error "Expected to find results, but there were none")
  | Some rs => resolve rs
  end.

Definition extractFirstId (results : list Result) : Promise string :=
  match results !! 0 with
  | None => reject (Error "expected to find an id, but didnt")
  | Some r =>
      match result_id r with
      | None => reject (Error "expected to find an id, but didnt")
      | Some i =>
          if decide (i = EmptyString)
          then reject (Error "expected to find an id, but didnt")
          else resolve i
      end
  end.

Definition getCriteriaKey (conditions : gmap string val) : Promise string :=
  let service := "CustomTargetingService" in
  let method := "getCustomTargetingKeysByStatement" in
  let* h := read_heap in
  let query := _makeQuery h conditions CRITERIA_KEY_FIELDS in
  let* response := executeAPIFunction service method query in
  let* rs := extractResults response in
  extractFirstId rs.

Definition lookupCriteriaKey (name : string) : Promise string :=
  catch_ (getAsync criteriaKeyStore (Some name))
    (λ _,
       let conditions : gmap string val := {[ "name" := VStr name ]} in
       tap (getCriteriaKey conditions)
         (λ id, catch_ (putAsync criteriaKeyStore (Some name) id)
                  (λ e, do console_log
                             (LogError "locally storing criteria key failed" e)
                        in reject e))).

(** The definition of [getCriteriaValue] in force, the last of the three
    assignments to [Dfp.prototype.getCriteriaValue]. *)
Definition getCriteriaValue (conditions : gmap string val) : Promise string :=
  let service := "CustomTargetingService" in
  let method := "getCustomTargetingValuesByStatement" in
  let* h := read_heap in
  let nQ := "Where customTargetingKeyId = '"
              +:+ toStr h (cond conditions "customTargetingKeyId")
              +:+ "' and name like '"
              +:+ toStr h (cond conditions "name") +:+ "'" in
  let newQuery := Build_Statement nQ in
  do console_log (LogQuery "query 2: " newQuery) in
  let* response := executeAPIFunction service method newQuery in
  let* rs := extractResults response in
  extractFirstId rs.

Definition lookupCriteriaValues (value : val) (keyId : string)
  : Promise (list string) :=
  let* h := read_heap in
  let lookupKey := keyId +:+ ":" +:+ toStr h value in
  let* id :=
    catch_ (getAsync criteriaValueStore (Some lookupKey))
      (λ _,
         let conditions : gmap string val :=
           {[ "name" := value; "customTargetingKeyId" := VStr keyId ]} in
         catch_
           (tap (getCriteriaValue conditions)
              (λ valueId, putAsync criteriaValueStore (Some lookupKey) valueId))
           (λ e, do console_log
                      (LogError "locally storing criteria value failed" e)
                 in reject e)) in
  resolve [id].

Definition _lookupKeyInPair (pair : string * val) : Promise (string * val) :=
  let key := pair.1 in
  let value := pair.2 in
  let* keyId := lookupCriteriaKey key in
  resolve (keyId, value).

Definition _lookupValueInPair (pair : string * val)
  : Promise (string * list string) :=
  let keyId := pair.1 in
  let value := pair.2 in
  let* ids := lookupCriteriaValues value keyId in
  resolve (keyId, ids).

Definition _convertPairToObject (pair : string * list string) : Criterion :=
  let keyId := pair.1 in
  let valueIds := pair.2 in
  {| keyId := keyId; valueIds := valueIds |}.

(** [_.pairs(criteria)] of lodash 3: the own enumerable properties of the
    value taken as an object, in order. *)
Definition pairs (h : list hobj) (criteria : val) : list (string * val) :=
  match criteria with
  | VRef l =>
      match h !! l with
      | Some (HObj props) => props
      | Some (HArr elems extras) =>
          imap (λ i v, (pretty i, v)) elems ++ extras
      | None => []
      end
  | VStr s => imap (λ i c, (pretty i, VStr c)) (chars s)
  | _ => []
  end.

Definition getCriteria (criteria : val) : Promise (list Criterion) :=
  let* h := read_heap in
  let* ps := map_ _lookupKeyInPair (pairs h criteria) in
  let* ps := map_ _lookupValueInPair ps in
  resolve (_convertPairToObject <$> ps).

Definition getAdUnit (conditions : gmap string val) : Promise string :=
  let service := "InventoryService" in
  let method := "getAdUnitsByStatement" in
  let* h := read_heap in
  let query := _makeQuery h conditions AD_UNIT_FIELDS in
  catch_ (getAsync adUnitStore (key_of_statement query))
    (λ _,
       tap (let* response := executeAPIFunction service method query in
            let* rs := extractResults response in
            extractFirstId rs)
         (λ id, putAsync adUnitStore (key_of_val h (cond conditions "name")) id)).

Definition getOrder (conditions : gmap string val) : Promise string :=
  let service := "OrderService" in
  let method := "getOrdersByStatement" in
  let* h := read_heap in
  let query := _makeQuery h conditions ORDER_FIELDS in
  catch_ (getAsync orderStore (key_of_val h (cond conditions "name")))
    (λ _,
       catch_
         (tap (let* response := executeAPIFunction service method query in
               let* rs := extractResults response in
               extractFirstId rs)
            (λ id, putAsync orderStore (key_of_val h (cond conditions "name")) id))
         (λ e, do console_log (LogError "locally storing order failed" e)
               in reject e)).

Definition getAdvertiser (conditions : gmap string val) : Promise string :=
  let service := "CompanyService" in
  let method := "getCompaniesByStatement" in
  let* h := read_heap in
  let query := _makeQuery h conditions ADVERTISER_FIELDS in
  do console_log (LogQuery "getAdv query: " query) in
  let* response := executeAPIFunction service method query in
  let* rs := extractResults response in
  extractFirstId rs.

Definition getLabel (conditions : gmap string val) : Promise string :=
  let service := "LabelService" in
  let method := "getLabelsByStatement" in
  let* h := read_heap in
  let query := _makeQuery h conditions LABEL_FIELDS in
  let* response := executeAPIFunction service method query in
  let* rs := extractResults response in
  extractFirstId rs.

Definition lookupLabel (name : string) : Promise string :=
  catch_ (getAsync labelStore (Some name))
    (λ _,
       let conditions : gmap string val := {[ "name" := VStr name ]} in
       tap (getLabel conditions)
         (λ id, catch_ (putAsync labelStore (Some name) id)
                  (λ e, do console_log
                             (LogError "locally storing label failed" e)
                        in reject e))).

End Dfp.

(** ** Objects on the heap *)

(** The state of one [_.cloneDeep]: the clones made so far ([stackA] and
    [stackB] of lodash, as a map from an object to its clone) and the heap. *)
Definition cstate : Type := gmap nat nat * list hobj.

(** Clones the values of a list from left to right. *)
Fixpoint clone_list (clone : val → cstate → option (val * cstate))
    (vs : list val) (st : cstate) : option (list val * cstate) :=
  match vs with
  | [] => Some ([], st)
  | v :: rest =>
      match clone v st with
      | None => None
      | Some (v', st') =>
          match clone_list clone rest st' with
          | None => None
          | Some (rest', st'') => Some (v' :: rest', st'')
          end
      end
  end.

(** [baseClone(value, true)] of lodash 3.  A primitive is returned as it
    is; an object already cloned gives its clone; otherwise an empty clone is
    created and recorded, then filled with the clones of the properties (of
    the elements, for an array).  The fuel bounds the nesting depth; [None]
    is fuel exhausted or a reference outside the heap. *)
Fixpoint baseClone (fuel : nat) (value : val) (st : cstate)
  : option (val * cstate) :=
  match value with
  | VRef l =>
      match st.1 !! l with
      | Some l' => Some (VRef l', st)
      | None =>
          match fuel with
          | 0 => None
          | S fuel' =>
              match st.2 !! l with
              | None => None
              | Some (HObj props) =>
                  let l' := length st.2 in
                  let st1 := (<[l:=l']> st.1, st.2 ++ [HObj []]) in
                  match clone_list (baseClone fuel') props.*2 st1 with
                  | None => None
                  | Some (vs, st2) =>
                      Some (VRef l',
                            (st2.1, <[l':=HObj (zip props.*1 vs)]> st2.2))
                  end
              | Some (HArr elems extras) =>
                  let l' := length st.2 in
                  let st1 := (<[l:=l']> st.1, st.2 ++ [HArr [] []]) in
                  match clone_list (baseClone fuel') elems st1 with
                  | None => None
                  | Some (vs, st2) =>
                      Some (VRef l', (st2.1, <[l':=HArr vs []]> st2.2))
                  end
              end
          end
      end
  | _ => Some (value, st)
  end.

(** [_.cloneDeep(value)].  The fuel given is enough in every heap whose
    references lead to cells ([CloneFacts.cloneDeep_total]). *)
Definition cloneDeep (value : val) : Promise val :=
  λ w, match baseClone (S (length (heap w))) value (∅, heap w) with
       | Some (v, st) => (Resolved v, set_heap st.2 w)
       | None => (Rejected InvalidReference, w)
       end.

(** An object or array literal: a new cell at the end of the heap. *)
Definition alloc (o : hobj) : Promise val :=
  λ w, (Resolved (VRef (length (heap w))), set_heap (heap w ++ [o]) w).

(** [v.name] for a name that no prototype defines. *)
Definition get_prop (v : val) (name : string) : Promise val :=
  λ w, match v with
       | VUndef | VNull => (Rejected TypeError, w)
       | VRef l =>
           match heap w !! l with
           | Some (HObj props) => (Resolved (lookup_prop name props), w)
           | Some (HArr _ extras) => (Resolved (lookup_prop name extras), w)
           | None => (Rejected InvalidReference, w)
           end
       | _ => (Resolved VUndef, w)
       end.

(** [v[i]] *)
Definition get_index (v : val) (i : nat) : Promise val :=
  λ w, match v with
       | VUndef | VNull => (Rejected TypeError, w)
       | VRef l =>
           match heap w !! l with
           | Some (HObj props) => (Resolved (lookup_prop (pretty i) props), w)
           | Some (HArr elems _) => (Resolved (default VUndef (elems !! i)), w)
           | None => (Rejected InvalidReference, w)
           end
       | VStr s => (Resolved (default VUndef (VStr <$> chars s !! i)), w)
       | _ => (Resolved VUndef, w)
       end.

(** [v.name = x], in strict mode: only an object takes a property. *)
Definition set_prop (v : val) (name : string) (x : val) : Promise unit :=
  λ w, match v with
       | VRef l =>
           match heap w !! l with
           | Some (HObj props) =>
               (Resolved tt,
                set_heap (<[l:=HObj (assign_prop name x props)]> (heap w)) w)
           | Some (HArr elems extras) =>
               (Resolved tt,
                set_heap (<[l:=HArr elems (assign_prop name x extras)]> (heap w)) w)
           | None => (Rejected InvalidReference, w)
           end
       | _ => (Rejected TypeError, w)
       end.

(** [delete v.name] *)
Definition delete_prop (v : val) (name : string) : Promise unit :=
  λ w, match v with
       | VUndef | VNull => (Rejected TypeError, w)
       | VRef l =>
           match heap w !! l with
           | Some (HObj props) =>
               (Resolved tt,
                set_heap (<[l:=HObj (remove_prop name props)]> (heap w)) w)
           | Some (HArr elems extras) =>
               (Resolved tt,
                set_heap (<[l:=HArr elems (remove_prop name extras)]> (heap w)) w)
           | None => (Rejected InvalidReference, w)
           end
       | _ => (Resolved tt, w)
       end.

(** The member lookup [v.push]: it throws on [undefined] and [null]. *)
Definition push_target (v : val) : Promise unit :=
  match v with
  | VUndef | VNull => reject TypeError
  | _ => resolve tt
  end.

(** The call [v.push(x)]: only an array has [push]. *)
Definition array_push (v : val) (x : val) : Promise unit :=
  λ w, match v with
       | VRef l =>
           match heap w !! l with
           | Some (HArr elems extras) =>
               (Resolved tt,
                set_heap (<[l:=HArr (elems ++ [x]) extras]> (heap w)) w)
           | Some (HObj _) => (Rejected TypeError, w)
           | None => (Rejected InvalidReference, w)
           end
       | _ => (Rejected TypeError, w)
       end.

(** ** The preparation pipeline *)

Section Pipeline.

Context (env : Env).

Definition replaceOrderName (_lineItem : val) : Promise val :=
  let* lineItem := cloneDeep _lineItem in
  let* orderName := get_prop lineItem "orderName" in
  let conditions : gmap string val := {[ "name" := orderName ]} in
  let* orderId := getOrder env conditions in
  do set_prop lineItem "orderId" (VStr orderId) in
  do delete_prop lineItem "orderName" in
  resolve lineItem.

Definition replaceAdUnitName (_lineItem : val) : Promise val :=
  let* lineItem := cloneDeep _lineItem in
  let* adUnitName := get_prop lineItem "adUnitName" in
  let conditions : gmap string val := {[ "name" := adUnitName ]} in
  let* adUnitId := getAdUnit env conditions in
  let* targeting := get_prop lineItem "targeting" in
  let* inventoryTargeting := get_prop targeting "inventoryTargeting" in
  let* unit_ := alloc (HObj [("adUnitId", VStr adUnitId);
                             ("includeDescendants", VBool true)]) in
  let* units := alloc (HArr [unit_] []) in
  do set_prop inventoryTargeting "targetedAdUnits" units in
  do delete_prop lineItem "adUnitName" in
  resolve lineItem.

(** The array [valueIds] of an entry is the one [lookupCriteriaValues]
    made; it is put on the heap where the entry is pushed. *)
Definition addCriteria (_lineItem : val) : Promise val :=
  let* lineItem := cloneDeep _lineItem in
  let* kvPairs := get_prop lineItem "customCriteriaKVPairs" in
  let* criteria := getCriteria env kvPairs in
  do forEach
       (λ condition,
          let* targeting := get_prop lineItem "targeting" in
          let* customTargeting := get_prop targeting "customTargeting" in
          let* children := get_prop customTargeting "children" in
          let* first := get_index children 0 in
          let* target := get_prop first "children" in
          do push_target target in
          let* attributes := alloc (HObj [("xsi:type", VStr "CustomCriteria")]) in
          let* ids := alloc (HArr (VStr <$> valueIds condition) []) in
          let* criterion :=
            alloc (HObj [("attributes", attributes);
                         ("keyId", VStr (keyId condition));
                         ("valueIds", ids);
                         ("operator", VStr "IS")]) in
          array_push target criterion)
       criteria in
  do delete_prop lineItem "customCriteriaKVPairs" in
  resolve lineItem.

Definition replaceStartDate (_lineItem : val) : Promise val :=
  let* lineItem := cloneDeep _lineItem in
  let* d := get_prop lineItem "date" in
  let* h := read_heap in
  let date := moment env h d "MM-DD-YYYY, H:mm:ss" in
  let* dateObj :=
    alloc (HObj [("year", VStr (EmptyString +:+ num_to_string (m_year date)));
                 ("month", VStr (EmptyString +:+ num_to_string
                                           ((λ m, m + 1)%Z <$> m_month date)));
                 ("day", VStr (EmptyString +:+ num_to_string (m_date date)))]) in
  let* startDateTime :=
    alloc (HObj [("date", dateObj);
                 ("hour", num_to_val (m_hour date));
                 ("minute", num_to_val (m_minute date));
                 ("second", VStr "0");
                 ("timeZoneID", VStr "Europe/Oslo")]) in
  do set_prop lineItem "startDateTime" startDateTime in
  do delete_prop lineItem "date" in
  resolve lineItem.

Definition prepareLineItem (lineItem : val) : Promise val :=
  do console_log (LogText "prepareLineItem") in
  let* lineItem := replaceStartDate lineItem in
  let* lineItem := replaceOrderName lineItem in
  let* lineItem := replaceAdUnitName lineItem in
  addCriteria lineItem.

Definition replacePartnerName (_item : val) : Promise val :=
  let* item := cloneDeep _item in
  let* partner := get_prop item "partner" in
  let conditions : gmap string val := {[ "name" := partner ]} in
  let* advertiserId := getAdvertiser env conditions in
  do set_prop item "advertiserId" (VStr advertiserId) in
  do delete_prop item "partner" in
  resolve item.

Definition prepareOrder (order : val) : Promise val :=
  replacePartnerName order.

Definition prepareCreative (creative : val) : Promise val :=
  replacePartnerName creative.

End Pipeline.

(** The statement [_makeQuery] builds when no allowed field has a value. *)
Definition empty_filter : Statement := {| filterStatement := "Where " |}.

(** The lookup of an order without a name: the call made, with the empty
    filter, and what the lookup is rejected with, by the answer to that
    call.  An id that comes back cannot be stored, the store taking no
    [undefined] key. *)
Definition unnamed_order_call : Call :=
  {| service := "OrderService"; method := "getOrdersByStatement";
     input := empty_filter |}.

Definition unnamed_order_failure (answer : ApiResult) : error :=
  match answer with
  | ApiReject reason => RemoteError reason
  | ApiResolve response =>
      match results response with
      | None => Error "Expected to find results, but there were none"
      | Some [] => Error "expected to find an id, but didnt"
      | Some (r :: _) =>
          match result_id r with
          | None => Error "expected to find an id, but didnt"
          | Some i =>
              if decide (i = EmptyString) then Error "expected to find an id, but didnt"
              else WriteError orderStore
          end
      end
  end.

(** ** [moment]

    The parser of moment 2.10.6 for the format of the wrapper,
    ['MM-DD-YYYY, H:mm:ss'], as it is called there (not in strict mode), on
    a machine whose time zone has no daylight saving.  The format is read
    token by token; a token takes the first text that matches it in what is
    left of the input, and is passed over when nothing matches. *)

Module MomentJs.

Inductive unit_ := YEAR | MONTH | DATE | HOUR | MINUTE | SECOND.

(** A token of the format: a field of at most [width] digits, or a
    character that stands for itself. *)
Inductive token :=
  | Field (u : unit_) (width : nat)
  | Literal (c : Ascii.ascii).

Definition char_of (s : string) : Ascii.ascii :=
  match s with
  | String c _ => c
  | EmptyString => Ascii.zero
  end.

(** The tokens of ['MM-DD-YYYY, H:mm:ss']. *)
Definition format_tokens : list token :=
  [Field MONTH 2; Literal (char_of "-"); Field DATE 2; Literal (char_of "-");
   Field YEAR 4; Literal (char_of ","); Literal (char_of " ");
   Field HOUR 2; Literal (char_of ":"); Field MINUTE 2;
   Literal (char_of ":"); Field SECOND 2].

Definition is_digit (c : Ascii.ascii) : bool :=
  let n := Ascii.nat_of_ascii c in
  Nat.leb 48 n && Nat.leb n 57.

(** [toInt(s)] for a string of digits. *)
Fixpoint toInt_from (acc : Z) (s : string) : Z :=
  match s with
  | EmptyString => acc
  | String c rest =>
      toInt_from (10 * acc + (Z.of_nat (Ascii.nat_of_ascii c) - 48))%Z rest
  end.

Definition toInt (s : string) : Z := toInt_from 0%Z s.

(** The digits a string begins with, [n] of them at most, and what
    follows them. *)
Fixpoint leading_digits (n : nat) (s : string) : string * string :=
  match n, s with
  | S n', String c rest =>
      if is_digit c
      then let '(ds, r) := leading_digits n' rest in (String c ds, r)
      else (EmptyString, s)
  | _, _ => (EmptyString, s)
  end.

(** [s.match(/\d{1,n}/)]: the first digits of the string, and what is
    left of the string after them. *)
Fixpoint match_digits (n : nat) (s : string) : option (string * string) :=
  match s with
  | EmptyString => None
  | String c rest =>
      if is_digit c then Some (leading_digits n s) else match_digits n rest
  end.

(** The same for a character: what is left after its first occurrence. *)
Fixpoint match_char (c : Ascii.ascii) (s : string) : option string :=
  match s with
  | EmptyString => None
  | String c' rest => if decide (c' = c) then Some rest else match_char c rest
  end.

(** The array [config._a]: the fields read so far. *)
Record fields := {
  a_year : option Z; a_month : option Z; a_date : option Z;
  a_hour : option Z; a_minute : option Z; a_second : option Z }.

Definition no_fields : fields :=
  {| a_year := None; a_month := None; a_date := None;
     a_hour := None; a_minute := None; a_second := None |}.

(** [addTimeToArrayFromToken]: the month is kept counted from zero. *)
Definition set_field (u : unit_) (input : string) (a : fields) : fields :=
  match u with
  | YEAR => {| a_year := Some (toInt input); a_month := a_month a;
               a_date := a_date a; a_hour := a_hour a;
               a_minute := a_minute a; a_second := a_second a |}
  | MONTH => {| a_year := a_year a; a_month := Some (toInt input - 1)%Z;
                a_date := a_date a; a_hour := a_hour a;
                a_minute := a_minute a; a_second := a_second a |}
  | DATE => {| a_year := a_year a; a_month := a_month a;
               a_date := Some (toInt input); a_hour := a_hour a;
               a_minute := a_minute a; a_second := a_second a |}
  | HOUR => {| a_year := a_year a; a_month := a_month a;
               a_date := a_date a; a_hour := Some (toInt input);
               a_minute := a_minute a; a_second := a_second a |}
  | MINUTE => {| a_year := a_year a; a_month := a_month a;
                 a_date := a_date a; a_hour := a_hour a;
                 a_minute := Some (toInt input); a_second := a_second a |}
  | SECOND => {| a_year := a_year a; a_month := a_month a;
                 a_date := a_date a; a_hour := a_hour a;
                 a_minute := a_minute a; a_second := Some (toInt input) |}
  end.

(** One round of the loop of [configFromStringAndFormat]. *)
Definition read_token (st : string * fields) (t : token) : string * fields :=
  let '(s, a) := st in
  match t with
  | Field u width =>
      match match_digits width s with
      | Some (parsedInput, rest) => (rest, set_field u parsedInput a)
      | None => (s, a)
      end
  | Literal c =>
      match match_char c s with
      | Some rest => (rest, a)
      | None => (s, a)
      end
  end.

Definition configFromStringAndFormat (input : string) : fields :=
  (foldl read_token (input, no_fields) format_tokens).2.

(** The number of the day [d] of the month [m] (from 1 to 12) of the year
    [y] in the Gregorian calendar, day 0 being 1 January 1970, and the
    date of a day of that number. *)
Definition days_from_civil (y m d : Z) : Z :=
  (let y := if decide (m ≤ 2) then y - 1 else y in
   let era := y / 400 in
   let yoe := y - era * 400 in
   let doy := (153 * (m + (if decide (2 < m) then -3 else 9)) + 2) / 5
              + d - 1 in
   let doe := yoe * 365 + yoe / 4 - yoe / 100 + doy in
   era * 146097 + doe - 719468)%Z.

Definition civil_from_days (z : Z) : Z * Z * Z :=
  (let z := z + 719468 in
   let era := z / 146097 in
   let doe := z - era * 146097 in
   let yoe := (doe - doe / 1460 + doe / 36524 - doe / 146096) / 365 in
   let y := yoe + era * 400 in
   let doy := doe - (365 * yoe + yoe / 4 - yoe / 100) in
   let mp := (5 * doy + 2) / 153 in
   let d := doy - (153 * mp + 2) / 5 + 1 in
   let m := if decide (mp < 10) then mp + 3 else mp - 9 in
   (if decide (m ≤ 2) then y + 1 else y, m, d))%Z.

(** [MakeDay(year, month, date)] of the language, the month counted from
    zero: a month or a day out of range rolls over. *)
Definition MakeDay (year month date : Z) : Z :=
  (days_from_civil (year + month / 12) (month mod 12 + 1) 1 + date - 1)%Z.

(** A [Date], as the seconds since 1 January 1970, 0:00, local time. *)
Definition MakeDate (day h M s : Z) : Z :=
  (day * 86400 + h * 3600 + M * 60 + s)%Z.

(** [date.setFullYear(y)] *)
Definition setFullYear (t y : Z) : Z :=
  (let '(_, m, d) := civil_from_days (t / 86400) in
   MakeDay y (m - 1) d * 86400 + t mod 86400)%Z.

(** [createDate(y, m, d, h, M, s, 0)]: [new Date] takes a year from 0 to
    99 for a year of the twentieth century, which [setFullYear] undoes,
    as it does for every year before 1970. *)
Definition createDate (y m d h M s : Z) : Z :=
  (let yr := if decide (0 ≤ y ≤ 99) then 1900 + y else y in
   let date := MakeDate (MakeDay yr m d) h M s in
   if decide (y < 1970) then setFullYear date y else date)%Z.

(** [configFromArray]: the year, month and day that come before the
    first field read are those of the day [now]; whatever else was not
    read is the first day of the month, or zero. *)
Definition configFromArray (now : Z * Z * Z) (a : fields) : Z :=
  let '(year, month, date) := now in
  let '(y, m, d) :=
    match a_year a, a_month a, a_date a with
    | Some y, m, d => (y, default 0%Z m, default 1%Z d)
    | None, Some m, d => (year, m, default 1%Z d)
    | None, None, Some d => (year, month, d)
    | None, None, None => (year, month, date)
    end in
  createDate y m d (default 0%Z (a_hour a)) (default 0%Z (a_minute a))
    (default 0%Z (a_second a)).

(** [year()], [month()], [date()], [hour()] and [minute()] of a date. *)
Definition parts (t : Z) : Moment :=
  let '(y, m, d) := civil_from_days (t / 86400)%Z in
  {| m_year := Some y; m_month := Some (m - 1)%Z; m_date := Some d;
     m_hour := Some ((t mod 86400) / 3600)%Z;
     m_minute := Some ((t mod 3600) / 60)%Z |}.

Definition invalid : Moment :=
  {| m_year := None; m_month := None; m_date := None;
     m_hour := None; m_minute := None |}.

(** [moment(d, 'MM-DD-YYYY, H:mm:ss')] on the day [now]: [null] gives an
    invalid date; any other value is read as the string it converts to, a
    number (below 10^21 in size) as its digits and an object as
    ["[object Object]"]. *)
Definition moment_on (now : Z * Z * Z) (_ : list hobj) (d : val)
    (_ : string) : Moment :=
  let read input := parts (configFromArray now (configFromStringAndFormat input)) in
  match d with
  | VNull => invalid
  | VUndef => read "undefined"
  | VBool true => read "true"
  | VBool false => read "false"
  | VNum z => read (pretty z)
  | VNaN => read "NaN"
  | VStr s => read s
  | VRef _ => read "[object Object]"
  end.

End MomentJs.

(** ** A concrete remote platform and line item *)

Module Scenario.

Definition answer (ids : list string) : ApiResult :=
  ApiResolve {| results := Some ((λ i, {| result_id := Some i |}) <$> ids) |}.

(** A remote platform that knows one order, one ad unit, one criteria key
    with one value and one advertiser, and that answers the empty filter
    with everything it has. *)
Definition mock_remote (_ : list Call) (c : Call) : ApiResult :=
  let q := filterStatement (input c) in
  if decide (service c = "OrderService") then
    if decide (q = "Where name like 'yo_first_order'") then answer ["2172772969"]
    else if decide (q = "Where ") then answer ["2172772969"; "2172772970"]
    else ApiResolve {| results := None |}
  else if decide (service c = "InventoryService") then
    if decide (q = "Where name like 'TV2no'") then answer ["21661848134"]
    else if decide (q = "Where ") then answer ["21661848134"]
    else ApiResolve {| results := None |}
  else if decide (service c = "CustomTargetingService") then
    if decide (method c = "getCustomTargetingKeysByStatement") then
      if decide (q = "Where name like 'hb_pb'") then answer ["K1"]
      else ApiResolve {| results := None |}
    else
      if decide (q = "Where customTargetingKeyId = 'K1' and name like '0.50'")
      then answer ["V1"]
      else ApiResolve {| results := None |}
  else if decide (service c = "CompanyService") then
    if decide (q = "Where name like 'Prebid'") then answer ["4410"]
    else if decide (q = "Where ") then answer ["4409"; "4410"]
    else ApiResolve {| results := None |}
  else if decide (service c = "LabelService") then
    if decide (q = "Where name like 'sports'") then answer ["L7"]
    else ApiResolve {| results := None |}
  else ApiReject "unknown service".

(** The day of the runs of the scenario, 2 October 2017 (the month is
    counted from zero), and [moment] on that day. *)
Definition today : Z * Z * Z := (2017, 9, 2)%Z.

Definition mock_moment : list hobj → val → string → Moment :=
  MomentJs.moment_on today.

(** Every write to a store succeeds. *)
Definition mock_env : Env :=
  {| remote := mock_remote;
     putFails := λ _ _ _, false;
     objToString := λ _ _, "[object Object]";
     moment := mock_moment |}.

(** A remote platform on which every query matches three entities. *)
Definition crowded_env : Env :=
  {| remote := λ _ _, answer ["M1"; "M2"; "M3"];
     putFails := λ _ _ _, false;
     objToString := λ _ _, "[object Object]";
     moment := mock_moment |}.

(** The same platform with stores that refuse every write. *)
Definition failing_store_env : Env :=
  {| remote := mock_remote;
     putFails := λ _ _ _, true;
     objToString := λ _ _, "[object Object]";
     moment := mock_moment |}.

(** A line item in the shape [formatter.formatLineItem] gives it, with the
    named references of the pipeline; cell 0 is the line item. *)
Definition lineItem_heap : list hobj :=
  [ HObj [("name", VStr "PREBID_0.50"); ("startDateTime", VNull);
          ("targeting", VRef 1); ("customCriteriaKVPairs", VRef 7);
          ("orderName", VStr "yo_first_order");
          ("date", VStr "10-26-2017, 15:00:00"); ("adUnitName", VStr "TV2no")];
    HObj [("inventoryTargeting", VRef 2); ("customTargeting", VRef 5)];
    HObj [("targetedAdUnits", VRef 3)];
    HArr [VRef 4] [];
    HObj [("adUnitId", VStr "21661848134"); ("includeDescendants", VBool true)];
    HObj [("logicalOperator", VStr "OR"); ("children", VRef 6)];
    HArr [VRef 8] [];
    HObj [("hb_pb", VStr "0.50")];
    HObj [("attributes", VRef 9); ("logicalOperator", VStr "AND");
          ("children", VRef 10)];
    HObj [("xsi:type", VStr "CustomCriteriaSet")];
    HArr [] [] ].

Definition lineItem_world : World := set_heap lineItem_heap empty_world.

(** An order as [formatter.formatOrder] gives it, and one whose [partner]
    is absent. *)
Definition order_heap : list hobj :=
  [ HObj [("name", VStr "Prebid_ros"); ("status", VStr "DRAFT");
          ("advertiserId", VNull); ("traffickerId", VStr "244654568");
          ("partner", VStr "Prebid")];
    HObj [("name", VStr "Prebid_ros"); ("status", VStr "DRAFT");
          ("advertiserId", VNull); ("traffickerId", VStr "244654568")] ].

Definition order_world : World := set_heap order_heap empty_world.

(** The line item without its [orderName], as [formatLineItem] leaves it. *)
Definition lineItem_no_order_heap : list hobj :=
  <[0 := HObj [("name", VStr "PREBID_0.50"); ("startDateTime", VNull);
               ("targeting", VRef 1); ("customCriteriaKVPairs", VRef 7);
               ("date", VStr "10-26-2017, 15:00:00");
               ("adUnitName", VStr "TV2no")]]> lineItem_heap.

End Scenario.

(** ** The filter in the words of the specification *)

Module QuerySpec.

(** [field like 'value'] *)
Definition like_clause (field value : string) : string :=
  field +:+ " like '" +:+ value +:+ "'".

(** The string a value stands as in its clause; [object] gives the
    string of an object. *)
Definition text (object : nat → string) (v : val) : string :=
  match v with
  | VUndef => "undefined"
  | VNull => "null"
  | VBool true => "true"
  | VBool false => "false"
  | VNum z => pretty z
  | VNaN => "NaN"
  | VStr s => s
  | VRef l => object l
  end.

(** A value is present and not empty: it is neither [undefined] nor
    [null], and not the empty string. *)
Definition present (v : val) : bool :=
  match v with
  | VUndef | VNull => false
  | VStr s => if decide (s = EmptyString) then false else true
  | _ => true
  end.

(** In the words of the specification: one clause for every allowed field
    whose value in the conditions is present and not empty, in the order
    of the allowed fields. *)
Definition clauses (object : nat → string) (conditions : gmap string val)
    (fields : list string) : list string :=
  omap (λ field,
          match conditions !! field with
          | Some v => if present v then Some (like_clause field (text object v))
                      else None
          | None => None
          end) fields.

(** A value is given when it is present, not empty, and none of [false],
    zero and [NaN]. *)
Definition given (v : val) : bool :=
  match v with
  | VBool false | VNaN => false
  | VNum z => if decide (z = 0%Z) then false else true
  | _ => present v
  end.

(** One clause for every allowed field whose value is given. *)
Definition given_clauses (object : nat → string)
    (conditions : gmap string val) (fields : list string) : list string :=
  omap (λ field,
          match conditions !! field with
          | Some v => if given v then Some (like_clause field (text object v))
                      else None
          | None => None
          end) fields.

(** What the conditions stand for as a map: the own properties of the
    object, which are what [conditions[field]] reads for every field but
    those that every object inherits a property for; and numbers below
    10^21 in size, which are written with all their digits. *)
Definition inherited_names : list string :=
  ["constructor"; "toString"; "toLocaleString"; "valueOf"; "hasOwnProperty";
   "isPrototypeOf"; "propertyIsEnumerable"; "__proto__";
   "__defineGetter__"; "__defineSetter__"; "__lookupGetter__";
   "__lookupSetter__"].

Definition own_fields (fields : list string) : Prop :=
  Forall (λ field, field ∉ inherited_names) fields.

Definition written_out (conditions : gmap string val) : Prop :=
  ∀ field z, conditions !! field = Some (VNum z) → (Z.abs z < 10 ^ 21)%Z.

(** No value of the conditions is [false], zero or [NaN]. *)
Definition no_false_or_zero (conditions : gmap string val) : Prop :=
  ∀ field v, conditions !! field = Some v →
             v ≠ VBool false ∧ v ≠ VNum 0 ∧ v ≠ VNaN.

(** The clauses as the reduction of [_makeQuery] decides them: one for
    every field whose value passes [if (conditions[field])]. *)
Definition value_clauses (to_string : val → string)
    (conditions : gmap string val) (fields : list string) : list string :=
  omap (λ field,
          let value := default VUndef (conditions !! field) in
          if truthy value then Some (like_clause field (to_string value))
          else None) fields.

(** The clauses combined with [and], after the keyword. *)
Definition filter (clauses : list string) : string :=
  "Where " +:+ String.concat " and " clauses.

(** What the reduction of [_makeQuery] appends for a list of clauses. *)
Definition additions (cs : list string) : string :=
  foldr (λ c rest, c +:+ " and " +:+ rest) EmptyString cs.

End QuerySpec.

(** ** The value id of a criteria entry *)

Module CriteriaSpec.

Section first.
Context (env : Env).

(** The call a lookup of a value under a key makes. *)
Definition value_call (h : list hobj) (value : val) (keyId : string)
  : Call :=
  {| service := "CustomTargetingService";
     method := "getCustomTargetingValuesByStatement";
     input :=
       {| filterStatement :=
            "Where customTargetingKeyId = '" +:+ keyId
              +:+ "' and name like '" +:+ toStr env h value +:+ "'" |} |}.

(** [id] is the first match of a value under a key in the world [w]:
    the id the store holds for them or, the store holding none, the id
    of the first of the results the remote platform answers with,
    however many follow it. *)
Definition first_match (value : val) (keyId : string) (w : World)
    (id : string) : Prop :=
  match criteriaValues w !! (keyId +:+ ":" +:+ toStr env (heap w) value) with
  | Some stored => id = stored
  | None =>
      ∃ response r rest,
        remote env (remoteCalls w) (value_call (heap w) value keyId)
        = ApiResolve response
        ∧ results response = Some (r :: rest)
        ∧ result_id r = Some id
  end.
End first.

End CriteriaSpec.

(** ** Worlds reached in the scenarios *)

Module Runs.
Import Scenario.

(** The world after [lookupCriteriaKey("hb_pb")] in a fresh process. *)
Definition after_key_lookup : World :=
  (lookupCriteriaKey mock_env "hb_pb" empty_world).2.

(** The world after [getOrder({name: "yo_first_order"})] in a fresh
    process. *)
Definition order_conditions : gmap string val :=
  {[ "name" := VStr "yo_first_order" ]}.

Definition after_order_lookup : World :=
  (getOrder mock_env order_conditions empty_world).2.

(** [getAdUnit({name: "TV2no"})] in a fresh process, and the same call
    made again right after it. *)
Definition adUnit_conditions : gmap string val := {[ "name" := VStr "TV2no" ]}.

Definition first_adUnit : outcome string * World :=
  getAdUnit mock_env adUnit_conditions empty_world.

Definition second_adUnit : outcome string * World :=
  getAdUnit mock_env adUnit_conditions first_adUnit.2.

(** [prepareLineItem] on the line item of the scenario. *)
Definition prepared : outcome val * World :=
  prepareLineItem mock_env (VRef 0) lineItem_world.

(** [prepareOrder] on the order without [partner]. *)
Definition prepared_order : outcome val * World :=
  prepareOrder mock_env (VRef 1) order_world.

(** [prepareLineItem] on the line item without [orderName]. *)
Definition prepared_no_order : outcome val * World :=
  prepareLineItem mock_env (VRef 0) (set_heap lineItem_no_order_heap empty_world).

End Runs.

(** ** Aliasing *)

Module Alias.

(** The values a cell holds. *)
Definition vals_of (o : hobj) : list val :=
  match o with
  | HObj props => props.*2
  | HArr elems extras => elems ++ extras.*2
  end.

(** [v] does not refer to a cell below [n]. *)
Definition fresh_val (n : nat) (v : val) : Prop :=
  match v with
  | VRef l => n ≤ l
  | _ => True
  end.

(** No cell from [n] on refers to a cell below [n]. *)
Definition closed_above (n : nat) (h : list hobj) : Prop :=
  ∀ l o, n ≤ l → h !! l = Some o → Forall (fresh_val n) (vals_of o).

(** Every cell of [h] is the same in [h']: whatever was an object before
    is, after, an object with the same properties and the same values. *)
Definition preserved (h h' : list hobj) : Prop :=
  ∀ l o, h !! l = Some o → h' !! l = Some o.

(** [v] and all that can be reached from it in [h'] consists of cells
    that did not exist in [h]. *)
Definition isolated (h h' : list hobj) (v : val) : Prop :=
  fresh_val (length h) v ∧ closed_above (length h) h'.

(** The invariant of a clone in progress, for a heap that had [n] cells
    when the clone began: the cells from [n] on and the clones recorded
    do not refer below [n]. *)
Definition clone_inv (n : nat) (st : cstate) : Prop :=
  n ≤ length st.2 ∧ closed_above n st.2
  ∧ ∀ l l', st.1 !! l = Some l' → n ≤ l'.

(** The cells below [n] are untouched and no cell is lost. *)
Definition grows (n : nat) (st st' : cstate) : Prop :=
  (∀ l, l < n → st'.2 !! l = st.2 !! l) ∧ length st.2 ≤ length st'.2.

(** A chain that leaves the heap as it is. *)
Definition heap_const {A} (p : Promise A) : Prop :=
  ∀ w, heap (p w).2 = heap w.

(** A chain that, started in a heap whose cells from [n] on do not refer
    below [n], leaves the cells below [n] untouched, keeps the heap so
    closed, and resolves only with values satisfying [post]. *)
Definition safe (n : nat) {A} (post : A → Prop) (p : Promise A) : Prop :=
  ∀ w, n ≤ length (heap w) → closed_above n (heap w) →
       (∀ l, l < n → heap (p w).2 !! l = heap w !! l)
       ∧ n ≤ length (heap (p w).2)
       ∧ closed_above n (heap (p w).2)
       ∧ ∀ a, (p w).1 = Resolved a → post a.

End Alias.

(** ** Well-formed heaps and what can be seen of a value *)

Module Shape.

(** [v] refers, if at all, to one of the first [n] cells. *)
Definition val_in (n : nat) (v : val) : Prop :=
  match v with
  | VRef l => l < n
  | _ => True
  end.

(** Every reference held by a cell leads to a cell: the heaps of a
    JavaScript run are of this kind. *)
Definition heap_wf (h : list hobj) : Prop :=
  ∀ l o, h !! l = Some o → Forall (val_in (length h)) (Alias.vals_of o).

(** The cells among the first [n] that a clone in progress has not
    visited yet. *)
Definition unvisited (n : nat) (memo : gmap nat nat) : gset nat :=
  set_seq 0 n ∖ dom memo.

(** The cells of [h0] are what they were in the heap of a clone in
    progress. *)
Definition old_cells (h0 : list hobj) (st : cstate) : Prop :=
  ∀ l, l < length h0 → st.2 !! l = h0 !! l.

(** [v.name], read off the heap. *)
Definition prop_of (h : list hobj) (v : val) (name : string) : val :=
  match v with
  | VRef l =>
      match h !! l with
      | Some (HObj props) => lookup_prop name props
      | Some (HArr _ extras) => lookup_prop name extras
      | None => VUndef
      end
  | _ => VUndef
  end.

(** The value as a tree, down to a depth: what a deep comparison looks
    at.  [None] when the value is deeper than the fuel. *)
#[warnings="-register-all"] Inductive tree :=
  | TPrim (v : val)
  | TObj (props : list (string * tree))
  | TArr (elems : list tree) (extras : list (string * tree)).

Fixpoint snapshot (fuel : nat) (h : list hobj) (v : val) : option tree :=
  match v with
  | VRef l =>
      match fuel with
      | 0 => None
      | S fuel' =>
          let sub := snapshot fuel' h in
          let named := mapM (λ kv : string * val, pair kv.1 <$> sub kv.2) in
          match h !! l with
          | None => None
          | Some (HObj props) => TObj <$> named props
          | Some (HArr elems extras) =>
              match mapM sub elems, named extras with
              | Some es, Some xs => Some (TArr es xs)
              | _, _ => None
              end
          end
      end
  | _ => Some (TPrim v)
  end.

(** What a call leaves of the heap it started in, and what it returns:
    the cells are preserved, the argument looks to any depth as it did,
    and the result shares nothing with the heap before the call. *)
Definition clones_input (f : val → Promise val) : Prop :=
  ∀ (original : val) (w : World),
    Alias.preserved (heap w) (heap (f original w).2)
    ∧ (∀ fuel t, snapshot fuel (heap w) original = Some t →
                 snapshot fuel (heap (f original w).2) original = Some t)
    ∧ ∀ result, (f original w).1 = Resolved result →
                Alias.isolated (heap w) (heap (f original w).2) result.

End Shape.

(** * The formatter, the scripts and the remaining methods of the wrapper *)

(** ** [lib/formatter.js]: strings *)

Module Formatter.

(** The character of a string of one character. *)
Definition char_of (s : string) : Ascii.ascii :=
  match s with
  | String c _ => c
  | EmptyString => Ascii.zero
  end.

(** [s.replace('.', '')]: the first dot is removed. *)
Fixpoint remove_first_dot (s : string) : string :=
  match s with
  | EmptyString => EmptyString
  | String c rest =>
      if decide (c = char_of ".") then rest
      else String c (remove_first_dot rest)
  end.

(** [s.substr(start)]: a negative start counts from the end. *)
Definition substr (s : string) (start : Z) : string :=
  let len := Z.of_nat (String.length s) in
  let from := if decide (start < 0)%Z then Z.max (len + start) 0
              else Z.min start len in
  String.substring (Z.to_nat from) (String.length s - Z.to_nat from) s.

(** [pad(num, size)] for an integer [size]; the first argument is
    [num.toString()]. *)
Definition pad (numString : string) (size : Z) : string :=
  let numString := remove_first_dot numString in
  let s := "000000000" +:+ numString in
  substr s (Z.of_nat (String.length s) - size).

(** The number nearest to an integer among those of the language, the
    doubles (for an integer below 2^1024 in size): every integer up to
    2^53 in size is one; beyond, the integer is rounded to 53 binary
    digits, a tie going to the even one. *)
Definition to_double (z : Z) : Z :=
  (let a := Z.abs z in
   if decide (a ≤ 2 ^ 53) then z
   else
     let ulp := 2 ^ (Z.log2 a - 52) in
     let q := a / ulp in
     let r := a mod ulp in
     let q := if decide (2 * r < ulp) then q
              else if decide (ulp < 2 * r) then q + 1
              else if Z.even q then q else q + 1 in
     Z.sgn z * (q * ulp))%Z.

(** [i.toFixed(2)] for an integer [i] below 10^21 in size; from there on
    [toFixed] gives the exponent form, in rounds of a loop that does not
    end. *)
Definition toFixed2 (i : Z) : string := pretty i +:+ ".00".

(** [(i + 0.5).toFixed(2)] for an integer [i]: the sum is exact up to 2^52
    in size, and rounded to an integer beyond. *)
Definition toFixed2_half (i : Z) : string :=
  if decide (Z.abs (2 * i + 1) < 2 ^ 53)%Z then
    if decide (0 ≤ i)%Z then pretty i +:+ ".50"
    else "-" +:+ pretty (- i - 1)%Z +:+ ".50"
  else toFixed2 (to_double (2 * i + 1) / 2)%Z.

(** The loop of [generatePricePoints], [for (var i = start; i <= end; i++)],
    on integers; [i++] gives the double nearest to [i + 1], which from
    2^53 on may be [i] itself, and [points.push] throws once the array
    has 2^32 - 1 elements.  [None] is a loop that gives no list: it is
    still running when the fuel is spent, or has filled the array. *)
Fixpoint price_loop (fuel : nat) (i end_ : Z) (points : list string)
  : option (list string) :=
  match fuel with
  | 0 => if decide (i ≤ end_)%Z then None else Some points
  | S fuel' =>
      if decide (i ≤ end_)%Z then
        let points :=
          if decide (i < 100)%Z then
            if decide (i = 0)%Z then points ++ ["0.50"]
            else (points ++ [toFixed2 i]) ++ [toFixed2_half i]
          else points ++ [toFixed2 i] in
        if decide (Z.of_nat (length points) < 2 ^ 32)%Z
        then price_loop fuel' (to_double (i + 1)) end_ points
        else None
      else Some points
  end.

(** [generatePricePoints(start, end)] for integer arguments, taken as the
    doubles nearest to them.  A round that advances does so by one at
    least, so that the fuel given is spent only by a loop in which [i++]
    has ceased to advance, which goes on until the array is full: [None]
    is a call that returns no list. *)
Definition generatePricePoints (start end_ : Z) : option (list string) :=
  let start := to_double start in
  let end_ := to_double end_ in
  price_loop (Z.to_nat (end_ - start + 1)) start end_ [].

(** [s.split(sep)] for a separator of one character. *)
Fixpoint split (sep : Ascii.ascii) (s : string) : list string :=
  match s with
  | EmptyString => [EmptyString]
  | String c rest =>
      if decide (c = sep) then EmptyString :: split sep rest
      else match split sep rest with
           | cur :: more => String c cur :: more
           | [] => [String c EmptyString]
           end
  end.

(** [array[i]] for an array of strings. *)
Definition at_index (array : list string) (i : nat) : val :=
  default VUndef (VStr <$> array !! i).

(** [n] zeros. *)
Fixpoint zeros (n : nat) : string :=
  match n with
  | 0 => EmptyString
  | S n' => String (char_of "0") (zeros n')
  end.

(** The last [n] characters of a string. *)
Definition last_chars (n : nat) (s : string) : string :=
  String.substring (String.length s - n) n s.

(** The price points one round of the loop adds. *)
Definition points_at (i : Z) : list string :=
  if decide (i < 100)%Z then
    if decide (i = 0)%Z then ["0.50"] else [toFixed2 i; toFixed2_half i]
  else [toFixed2 i].

End Formatter.

(** ** Object literals *)

(** An object literal is a tree whose leaves are the values written in it
    (a leaf may be a reference to an object that exists already); evaluating
    it puts a new cell on the heap for every object and array of the tree,
    the parts before the whole. *)
Module Literal.
Import Shape.

Section parts.
Context (alloc : tree → list hobj → val * list hobj).

Fixpoint alloc_items (ts : list tree) (h : list hobj)
  : list val * list hobj :=
  match ts with
  | [] => ([], h)
  | t :: rest =>
      let '(v, h1) := alloc t h in
      let '(vs, h2) := alloc_items rest h1 in
      (v :: vs, h2)
  end.

Fixpoint alloc_named (ps : list (string * tree)) (h : list hobj)
  : list (string * val) * list hobj :=
  match ps with
  | [] => ([], h)
  | (k, t) :: rest =>
      let '(v, h1) := alloc t h in
      let '(vs, h2) := alloc_named rest h1 in
      ((k, v) :: vs, h2)
  end.
End parts.

Fixpoint alloc_tree (t : tree) (h : list hobj) : val * list hobj :=
  match t with
  | TPrim v => (v, h)
  | TObj props =>
      let '(ps, h1) := alloc_named alloc_tree props h in
      (VRef (length h1), h1 ++ [HObj ps])
  | TArr elems extras =>
      let '(es, h1) := alloc_items alloc_tree elems h in
      let '(xs, h2) := alloc_named alloc_tree extras h1 in
      (VRef (length h2), h2 ++ [HArr es xs])
  end.

(** The evaluation of a literal. *)
Definition build (t : tree) : Promise val :=
  λ w, let '(v, h) := alloc_tree t (heap w) in (Resolved v, set_heap h w).

(** The first part of a literal written under a name. *)
Fixpoint literal_prop (name : string) (props : list (string * tree))
  : option tree :=
  match props with
  | [] => None
  | (k, t) :: rest =>
      if decide (k = name) then Some t else literal_prop name rest
  end.

(** A value that is no reference. *)
Definition primitive (v : val) : Prop :=
  match v with
  | VRef _ => False
  | _ => True
  end.

End Literal.

(** ** [lib/formatter.js]: objects *)

Module Objects.
Import Shape Formatter.

Section formatter.

(** The list of sizes of [scripts/sizes_tv2] and the text
    [(parseFloat(cpm) * 1000000).toFixed(0)] gives for a price. *)
Context (env : Env) (SIZES : list string) (microAmount : val → string).

Definition formatSize (width height : val) : tree :=
  TObj [("size", TObj [("width", TPrim width);
                       ("height", TPrim height);
                       ("isAspectRatio", TPrim (VStr "false"))]);
        ("expectedCreativeCount", TPrim (VStr "1"));
        ("creativeSizeType", TPrim (VStr "PIXEL"))].

Definition formatSizes (sizes : list string) : list tree :=
  (λ size, let wh := split (char_of "x") size in
           formatSize (at_index wh 0) (at_index wh 1)) <$> sizes.

(** An element of [array.join(sep)]: [undefined] and [null] give the
    empty string. *)
Definition join_item (h : list hobj) (v : val) : string :=
  match v with
  | VUndef | VNull => EmptyString
  | _ => toStr env h v
  end.

Definition formatLineItem (h : list hobj) (lineItem : gmap string val)
  : tree :=
  let cpm := default VUndef (lineItem !! "cpm") in
  let date := default VUndef (lineItem !! "date") in
  let customCriteriaKVPairs :=
    default VUndef (lineItem !! "customCriteriaKVPairs") in
  let lineItemName := "PREBID" +:+ "_" +:+ join_item h cpm in
  let s (text : string) := TPrim (VStr text) in
  TObj [
    ("orderId", TPrim (default VUndef (lineItem !! "orderId")));
    ("name", s lineItemName);
    ("externalId", TObj []);
    ("startDateTime", TPrim VNull);
    ("startDateTimeType", s "USE_START_DATE_TIME");
    ("autoExtensionDays", s "0");
    ("unlimitedEndDateTime", s "true");
    ("creativeRotationType", s "EVEN");
    ("deliveryRateType", s "EVENLY");
    ("roadblockingType", s "ONE_OR_MORE");
    ("lineItemType", s "PRICE_PRIORITY");
    ("priority", s "12");
    ("costPerUnit", TObj [("currencyCode", s "NOK");
                          ("microAmount", s (microAmount cpm))]);
    ("valueCostPerUnit", TObj [("currencyCode", s "NOK");
                               ("microAmount", s "0")]);
    ("costType", s "CPM");
    ("discountType", s "PERCENTAGE");
    ("discount", s "0.0");
    ("contractedUnitsBought", s "0");
    ("creativePlaceholders", TArr (formatSizes SIZES) []);
    ("environmentType", s "BROWSER");
    ("companionDeliveryOption", s "UNKNOWN");
    ("creativePersistenceType", s "NOT_PERSISTENT");
    ("allowOverbook", s "false");
    ("skipInventoryCheck", s "false");
    ("skipCrossSellingRuleWarningChecks", s "false");
    ("reserveAtCreation", s "false");
    ("stats", TObj [("impressionsDelivered", s "0");
                    ("clicksDelivered", s "0");
                    ("videoCompletionsDelivered", s "0");
                    ("videoStartsDelivered", s "0")]);
    ("deliveryData", TObj []);
    ("budget", TObj [("currencyCode", s "NOK"); ("microAmount", s "0")]);
    ("status", s "PAUSED");
    ("reservationStatus", s "UNRESERVED");
    ("isArchived", s "false");
    ("webPropertyCode", TObj []);
    ("disableSameAdvertiserCompetitiveExclusion", s "true");
    ("lastModifiedByApp", s "Goog_DFPUI");
    ("lastModifiedDateTime", TObj []);
    ("creationDateTime", TObj []);
    ("isPrioritizedPreferredDealsEnabled", s "false");
    ("adExchangeAuctionOpeningPriority", s "0");
    ("isSetTopBoxEnabled", s "false");
    ("isMissingCreatives", s "false");
    ("primaryGoal", TObj [("goalType", s "NONE");
                          ("unitType", s "IMPRESSIONS");
                          ("units", s "-1")]);
    ("targeting",
     TObj [("inventoryTargeting",
            TObj [("targetedAdUnits",
                   TArr [TObj [("adUnitId", s "21661848134");
                               ("includeDescendants", TPrim (VBool true))]]
                        [])]);
           ("customTargeting",
            TObj [("logicalOperator", s "OR");
                  ("children",
                   TArr [TObj [("attributes",
                                TObj [("xsi:type", s "CustomCriteriaSet")]);
                               ("logicalOperator", s "AND");
                               ("children", TArr [] [])]]
                        [])])]);
    ("customCriteriaKVPairs", TPrim customCriteriaKVPairs);
    ("date", TPrim date);
    ("adUnitName", TPrim (default VUndef (lineItem !! "adUnitName")))
  ].

Definition formatOrder (name traffickerId partner : val) : tree :=
  TObj [("name", TPrim name);
        ("unlimitedEndDateTime", TPrim (VBool true));
        ("status", TPrim (VStr "DRAFT"));
        ("currencyCode", TPrim (VStr "NOK"));
        ("advertiserId", TPrim VNull);
        ("traffickerId", TPrim traffickerId);
        ("appliedLabels", TPrim VNull);
        ("isProgrammatic", TPrim (VBool false));
        ("partner", TPrim partner)].

(** [getCombinations] of [scripts/create-line-items-custom.js], for the
    price points given: one line item per price point, in their order.
    The progress bar it also creates is not part of the value. *)
Definition combination (cpm : string) : Promise val :=
  let* kvPairs := Literal.build (TObj [("hb_pb", TPrim (VStr cpm))]) in
  let* h := read_heap in
  Literal.build
    (formatLineItem h
       {[ "cpm" := VStr cpm;
          "orderName" := VStr "yo_first_order";
          "customCriteriaKVPairs" := kvPairs;
          "date" := VStr "10-26-2017, 15:00:00";
          "adUnitName" := VStr "TV2no" ]}).

Definition getCombinations (pricePoints : list string) : Promise (list val) :=
  map_ combination pricePoints.

(** The chain of the script,
    [Bluebird.resolve(getCombinations()).map(prepareLineItem, ...)], with
    one line item in flight at a time. *)
Definition line_items_chain (pricePoints : list string)
  : Promise (list val) :=
  let* lineItems := getCombinations pricePoints in
  map_ (prepareLineItem env) lineItems.

(** The chain of [scripts/create-order.js],
    [Bluebird.resolve(formatOrder()).then(prepareOrder)]. *)
Definition order_chain (name traffickerId partner : val) : Promise val :=
  let* order := Literal.build (formatOrder name traffickerId partner) in
  prepareOrder env order.

End formatter.

(** A line item of the script for a price point, as it is seen in a
    heap: an object with the name, the criteria, the date and the ad unit
    name of the script, and with no order name and no order id. *)
Definition line_item_for (h : list hobj) (cpm : string) (item : val) : Prop :=
  (∃ l, item = VRef l ∧ l < length h)
  ∧ prop_of h item "name" = VStr ("PREBID_" +:+ cpm)
  ∧ prop_of h (prop_of h item "customCriteriaKVPairs") "hb_pb" = VStr cpm
  ∧ prop_of h item "date" = VStr "10-26-2017, 15:00:00"
  ∧ prop_of h item "adUnitName" = VStr "TV2no"
  ∧ prop_of h item "orderName" = VUndef
  ∧ prop_of h item "orderId" = VUndef.

End Objects.

(** ** The association scripts *)

Module Associations.

(** [{lineItemId: ..., creativeId: ..., sizes: ...}]; [sizes] is [None]
    in the script that deletes, which has no such property. *)
Record Association := {
  lineItemId : val;
  creativeId : val;
  sizes : option val }.

(** [lineItem.id] of a line item the remote platform returned. *)
Definition id_of (r : Result) : val :=
  match result_id r with
  | Some i => VStr i
  | None => VUndef
  end.

(** [prepareAssociations] of [scripts/create-associations-custom.js]; the
    script keeps [creatives] and [sizes] in variables of the module. *)
Definition prepareAssociations (creatives : list val) (sizes : option val)
    (lineItems : list Result) : list (list Association) :=
  (λ lineItem,
     (λ creativeId,
        {| lineItemId := id_of lineItem;
           creativeId := creativeId;
           sizes := sizes |}) <$> creatives) <$> lineItems.

(** [_.flatten] on an array of arrays of objects. *)
Definition flatten {A} (arrays : list (list A)) : list A := concat arrays.

End Associations.

(** ** The listing methods of the wrapper *)

Definition CREATIVE_FIELDS : list string :=
  ["id"; "name"; "advertiserId"; "width"; "height"; "lastModifiedDateTime"].

Definition ASSOCIATION_FIELDS : list string :=
  ["creativeId"; "manualCreativeRotationWeight"; "destinationUrl";
   "lineItemId"; "status"; "lastModifiedDateTime"].

Section Listing.

Context (env : Env).

Definition getLineItems (conditions : gmap string val)
  : Promise (list Result) :=
  let service := "LineItemService" in
  let method := "getLineItemsByStatement" in
  let* h := read_heap in
  let query := _makeQuery env h conditions LINE_ITEM_FIELDS in
  let* response := executeAPIFunction env service method query in
  extractResults response.

Definition getCreatives (conditions : gmap string val)
  : Promise (list Result) :=
  let service := "CreativeService" in
  let method := "getCreativesByStatement" in
  let* h := read_heap in
  let query := _makeQuery env h conditions CREATIVE_FIELDS in
  let* response := executeAPIFunction env service method query in
  extractResults response.

Definition getAssociations (conditions : gmap string val)
  : Promise (list Result) :=
  let service := "LineItemCreativeAssociationService" in
  let method := "getLineItemCreativeAssociationsByStatement" in
  let* h := read_heap in
  let query := _makeQuery env h conditions ASSOCIATION_FIELDS in
  let* response := executeAPIFunction env service method query in
  extractResults response.

(** The chain of the script that creates associations, from the query
    for the line items to the batches:
    [.then(getLineItems).then(prepareAssociations).then(_.flatten).then(splitBatches)];
    [creatives] and [sizes] are the variables of the script. *)
Definition create_associations_chain (creatives : list val) (sizes : val)
    (query : gmap string val) : Promise (list (list Associations.Association)) :=
  let* lineItems := getLineItems query in
  let* associations :=
    resolve (Associations.prepareAssociations creatives (Some sizes) lineItems) in
  let* flattened := resolve (Associations.flatten associations) in
  resolve (Batch.splitBatches flattened).

(** The same chain in the script that deletes associations. *)
Definition delete_associations_chain (creatives : list val)
    (query : gmap string val) : Promise (list (list Associations.Association)) :=
  let* lineItems := getLineItems query in
  let* associations :=
    resolve (Associations.prepareAssociations creatives None lineItems) in
  let* flattened := resolve (Associations.flatten associations) in
  resolve (Batch.splitBatches_delete flattened).

End Listing.

(** ** What the proofs about the caches and the prepared objects speak of *)

#[global] Instance Store_eq_dec : EqDecision Store.
Proof. solve_decision. Defined.

Module Invariants.

(** No entry of a store is lost or changed from [w] to [w']. *)
Definition stores_grow (w w' : World) : Prop :=
  ∀ st, store_of st w ⊆ store_of st w'.

(** The same of every store but the one of the ad units. *)
Definition caches_grow (w w' : World) : Prop :=
  ∀ st, st ≠ adUnitStore → store_of st w ⊆ store_of st w'.

(** The same, with the heap left as it is. *)
Definition settled (w w' : World) : Prop :=
  stores_grow w w' ∧ heap w' = heap w.

(** Every run of the chain relates the world it starts in to the world it
    leaves. *)
Definition steps (R : World → World → Prop) {A} (p : Promise A) : Prop :=
  ∀ w, R w (p w).2.

(** A chain that changes the heap and nothing else. *)
Definition heap_only {A} (p : Promise A) : Prop :=
  ∀ w, (p w).2 = set_heap (heap (p w).2) w.

(** The calls of [w'] are those of [w] followed by at most [k] more. *)
Definition calls_extend (k : nat) (w w' : World) : Prop :=
  ∃ calls, remoteCalls w' = remoteCalls w ++ calls ∧ length calls ≤ k.

Definition calls_within (k : nat) {A} (p : Promise A) : Prop :=
  ∀ w, calls_extend k w (p w).2.

(** A chain that, once it has resolved, resolves with the same value and
    changes nothing in every later world in which the stores have only
    grown and the heap is the same. *)
Definition replayable {A} (p : Promise A) : Prop :=
  ∀ w a w1, p w = (Resolved a, w1) →
    settled w w1 ∧ ∀ w2, settled w1 w2 → p w2 = (Resolved a, w2).

(** The properties of a line item that stand for something to look up:
    each is removed by the step that replaces it. *)
Definition helper_names : list string :=
  ["date"; "orderName"; "adUnitName"; "customCriteriaKVPairs"].

(** The heap has not lost a cell, and no cell that was without one of
    those properties has got it. *)
Definition adds_no_helper (w w' : World) : Prop :=
  length (heap w) ≤ length (heap w')
  ∧ ∀ l name,
      name ∈ helper_names → l < length (heap w) →
      Shape.prop_of (heap w) (VRef l) name = VUndef →
      Shape.prop_of (heap w') (VRef l) name = VUndef.

(** A chain that resolves only with [item], then without the property
    [name], and that adds none of those properties on its way. *)
Definition ends_without (item : val) (name : string) (body : Promise val)
  : Prop :=
  ∀ w r w', body w = (Resolved r, w') →
    r = item ∧ adds_no_helper w w'
    ∧ Shape.prop_of (heap w') item name = VUndef.

End Invariants.

(** ** Worlds the properties are tried in *)

Module Worlds.

(** The line items of the script for one size and one price point, in a
    fresh process. *)
Definition combinations : outcome (list val) * World :=
  Objects.getCombinations Scenario.mock_env ["300x250"] (λ _, "500000")
    ["0.50"] empty_world.

(** A remote platform that answers every query with three line items,
    the second without an id. *)
Definition listing_env : Env :=
  {| remote := λ _ _,
       ApiResolve {| results := Some [ {| result_id := Some "l1" |};
                                       {| result_id := None |};
                                       {| result_id := Some "l3" |} ] |};
     putFails := λ _ _ _, false;
     objToString := λ _ _, "[object Object]";
     moment := Scenario.mock_moment |}.

Definition order_query : gmap string val :=
  {[ "orderId" := VStr "2172772969" ]}.

(** A process whose ad unit store has an entry under the string conversion
    of a statement. *)
Definition poisoned : World :=
  set_store adUnitStore {[ "[object Object]" := "1" ]} empty_world.

(** The world a first resolution of the criteria [{"hb_pb": "0.50"}]
    leaves. *)
Definition criteria_heap : list hobj := [HObj [("hb_pb", VStr "0.50")]].

Definition criteria_world : World := set_heap criteria_heap empty_world.

Definition after_criteria : World :=
  (getCriteria Scenario.mock_env (VRef 0) criteria_world).2.

(** The worlds a first lookup of a criteria value and of a label leave. *)
Definition after_value_lookup : World :=
  (lookupCriteriaValues Scenario.mock_env (VStr "0.50") "K1" criteria_world).2.

Definition after_label_lookup : World :=
  (lookupLabel Scenario.mock_env "sports" empty_world).2.

(** The steps of the pipeline, each on the line item of the scenario. *)
Definition start_date_run : outcome val * World :=
  replaceStartDate Scenario.mock_env (VRef 0) Scenario.lineItem_world.

Definition order_name_run : outcome val * World :=
  replaceOrderName Scenario.mock_env (VRef 0) Scenario.lineItem_world.

Definition ad_unit_run : outcome val * World :=
  replaceAdUnitName Scenario.mock_env (VRef 0) Scenario.lineItem_world.

Definition criteria_run : outcome val * World :=
  addCriteria Scenario.mock_env (VRef 0) Scenario.lineItem_world.

(** A line item whose date is [null], and one whose date has nothing of
    a date. *)
Definition undated_world : World :=
  set_heap [HObj [("name", VStr "PREBID_0.50"); ("date", VNull)]]
    empty_world.

Definition misdated_world : World :=
  set_heap [HObj [("name", VStr "PREBID_0.50"); ("date", VStr "tomorrow")]]
    empty_world.

End Worlds.

(** * Properties *)

(** ** Batches *)

Module BatchFacts.
Import Batch.

Section chunks.
Context {A : Type}.
Implicit Types (array : list A) (size index fuel : nat).

Lemma baseSlice_length array size index :
  index + size ≤ length array →
  length (baseSlice array index (index + size)) = size.
Proof.
  intros Hle. unfold baseSlice.
  rewrite length_take, length_drop. lia.
Qed.

Lemma baseSlice_drop array size index :
  baseSlice array index (index + size) ++ drop (index + size) array
  = drop index array.
Proof.
  unfold baseSlice.
  replace (index + size - index) with size by lia.
  rewrite <- drop_drop.
  apply take_drop.
Qed.

(** The slices of the loop, put end to end, are the rest of the array. *)
Lemma chunk_while_concat fuel array size index :
  0 < size → length array ≤ index + fuel →
  concat (chunk_while fuel array size index) = drop index array.
Proof.
  intros Hsize. revert index.
  induction fuel as [|fuel IH]; intros index Hfuel; simpl.
  - rewrite drop_ge by lia. done.
  - case_decide as Hlt; simpl.
    + rewrite IH by lia. apply baseSlice_drop.
    + rewrite drop_ge by lia. done.
Qed.

Lemma ceil_div_step m size :
  0 < size → 0 < m → ceil_div m size = S (ceil_div (m - size) size).
Proof.
  intros Hsize Hm. unfold ceil_div.
  destruct (decide (size ≤ m)) as [Hle|Hgt].
  - replace (m + size - 1) with ((m - size + size - 1) + 1 * size) by lia.
    rewrite Nat.div_add by lia. lia.
  - replace (m - size) with 0 by lia. simpl.
    rewrite (Nat.div_small (size - 1)) by lia.
    symmetry. apply (Nat.div_unique _ _ 1 (m - 1)); lia.
Qed.

Lemma chunk_while_length fuel array size index :
  0 < size → length array ≤ index + fuel →
  length (chunk_while fuel array size index)
  = ceil_div (length array - index) size.
Proof.
  intros Hsize. revert index.
  induction fuel as [|fuel IH]; intros index Hfuel; simpl.
  - replace (length array - index) with 0 by lia.
    unfold ceil_div. simpl. rewrite Nat.div_small; lia.
  - case_decide as Hlt; simpl.
    + rewrite IH by lia.
      rewrite (ceil_div_step (length array - index)) by lia.
      do 2 f_equal. lia.
    + replace (length array - index) with 0 by lia.
      unfold ceil_div. simpl. rewrite Nat.div_small; lia.
Qed.

(** A slice that is followed by another one is full. *)
Lemma chunk_while_full fuel array size index i batch :
  chunk_while fuel array size index !! i = Some batch →
  S i < length (chunk_while fuel array size index) →
  length batch = size.
Proof.
  revert index i.
  induction fuel as [|fuel IH]; intros index i Hi Hnext; simpl in *.
  - done.
  - case_decide as Hlt; [|done].
    destruct i as [|i]; simpl in *.
    + injection Hi as <-.
      destruct fuel as [|fuel']; simpl in Hnext; [lia|].
      case_decide as Hlt'; simpl in Hnext; [|lia].
      apply baseSlice_length. lia.
    + apply (IH (index + size) i); [done|lia].
Qed.

Lemma chunk_while_nonempty fuel array size index batch :
  0 < size → batch ∈ chunk_while fuel array size index → batch ≠ [].
Proof.
  intros Hsize. revert index.
  induction fuel as [|fuel IH]; intros index Hin; simpl in *.
  - by apply elem_of_nil in Hin.
  - case_decide as Hlt; [|by apply elem_of_nil in Hin].
    apply elem_of_cons in Hin as [->|Hin]; [|by eapply IH].
    unfold baseSlice. intros Hnil.
    apply (f_equal length) in Hnil.
    rewrite length_take, length_drop in Hnil. simpl in Hnil. lia.
Qed.
End chunks.

End BatchFacts.

(** C5.  For every list of items and every positive batch size [n],
    [_.chunk(items, n)] consists of [ceil(len / n)] batches, every batch
    that is not the last one has exactly [n] items, and the batches put end
    to end are the items; [splitBatches] is the chunking by 100 (by 50 in
    the script that deletes associations), and on 250 items its batches have
    the sizes 100, 100 and 50. *)
Theorem splitBatches_chunks {A} (items : list A) (n : nat) :
  0 < n →
  length (Batch.chunk items n) = Batch.ceil_div (length items) n
  ∧ (∀ i batch, Batch.chunk items n !! i = Some batch →
                S i < length (Batch.chunk items n) → length batch = n)
  ∧ concat (Batch.chunk items n) = items
  ∧ Batch.splitBatches items = Batch.chunk items 100
  ∧ Batch.splitBatches_delete items = Batch.chunk items 50
  ∧ (length items = 250 →
     length <$> Batch.splitBatches items = [100; 100; 50]).
Proof.
  intros Hn. unfold Batch.splitBatches, Batch.splitBatches_delete, Batch.chunk.
  replace (n `max` 1) with n by lia.
  split_and!.
  - rewrite BatchFacts.chunk_while_length by lia. f_equal. lia.
  - intros i batch Hi Hnext. by eapply BatchFacts.chunk_while_full.
  - rewrite BatchFacts.chunk_while_concat by lia. done.
  - done.
  - done.
  - intros Hlen. simpl Nat.max.
    pose proof (BatchFacts.chunk_while_length (length items) items 100 0
                  ltac:(lia) ltac:(lia)) as Hcount.
    pose proof (BatchFacts.chunk_while_concat (length items) items 100 0
                  ltac:(lia) ltac:(lia)) as Hcat.
    pose proof (BatchFacts.chunk_while_full (length items) items 100 0) as Hfull.
    rewrite Hlen in Hcount at 2. rewrite Nat.sub_0_r in Hcount.
    change (Batch.ceil_div 250 100) with 3 in Hcount.
    destruct (Batch.chunk_while (length items) items 100 0)
      as [|b1 [|b2 [|b3 [|b4 rest]]]]; simpl in Hcount; try lia.
    pose proof (Hfull 0 b1 eq_refl ltac:(simpl; lia)) as H1.
    pose proof (Hfull 1 b2 eq_refl ltac:(simpl; lia)) as H2.
    apply (f_equal length) in Hcat.
    simpl in Hcat. rewrite !length_app, length_drop in Hcat. simpl in Hcat.
    simpl. repeat f_equal; lia.
Qed.

Lemma splitBatches_chunks_witness :
  0 < 3
  ∧ Batch.chunk [1; 2; 3; 4; 5; 6; 7] 3 = [[1; 2; 3]; [4; 5; 6]; [7]]
  ∧ concat (Batch.chunk [1; 2; 3; 4; 5; 6; 7] 3) = [1; 2; 3; 4; 5; 6; 7]
  ∧ length (replicate 250 tt) = 250
  ∧ length <$> Batch.splitBatches (replicate 250 tt) = [100; 100; 50].
Proof.
  split; [lia|]. split; [reflexivity|]. split.
  - apply (splitBatches_chunks [1; 2; 3; 4; 5; 6; 7] 3). lia.
  - split; [by vm_compute|].
    apply (splitBatches_chunks (replicate 250 tt) 100); [lia|by vm_compute].
Defined.

(** ** Strings *)

Module StringFacts.

Lemma app_cons (c : Ascii.ascii) (s t : string) :
  String c s +:+ t = String c (s +:+ t).
Proof. reflexivity. Qed.

Lemma app_empty_r (s : string) : s +:+ EmptyString = s.
Proof. induction s as [|c s IH]; [done|]. by rewrite app_cons, IH. Qed.

Lemma app_assoc (s1 s2 s3 : string) : (s1 +:+ s2) +:+ s3 = s1 +:+ (s2 +:+ s3).
Proof. induction s1 as [|c s1 IH]; [done|]. by rewrite !app_cons, IH. Qed.

Lemma length_app (s1 s2 : string) :
  String.length (s1 +:+ s2) = String.length s1 + String.length s2.
Proof. induction s1 as [|c s1 IH]; [done|]. rewrite app_cons. cbn. by rewrite IH. Qed.

Lemma substring_all (s : string) : String.substring 0 (String.length s) s = s.
Proof. induction s as [|c s IH]; [done|]. cbn. by rewrite IH. Qed.

Lemma substring_app_r (s1 s2 : string) :
  String.substring (String.length s1) (String.length s2) (s1 +:+ s2) = s2.
Proof.
  induction s1 as [|c s1 IH]; [apply substring_all|].
  rewrite app_cons. cbn. apply IH.
Qed.

Lemma substring_app_l (s1 s2 : string) :
  String.substring 0 (String.length s1) (s1 +:+ s2) = s1.
Proof.
  induction s1 as [|c s1 IH].
  - by destruct s2.
  - rewrite app_cons. cbn. by rewrite IH.
Qed.

(** The replacement removes a final [" and "] . *)
Lemma strip_final_and_app (s : string) : strip_final_and (s +:+ " and ") = s.
Proof.
  unfold strip_final_and. rewrite length_app.
  change (String.length " and ") with 5.
  replace (String.length s + 5 - 5) with (String.length s) by lia.
  pose proof (substring_app_r s " and ") as Hend.
  change (String.length " and ") with 5 in Hend.
  rewrite Hend, substring_app_l.
  case_decide as Hc; [done|]. exfalso. apply Hc. split; [lia|done].
Qed.

End StringFacts.

(** ** The query builder *)

Module QueryFacts.
Import QuerySpec StringFacts.

Lemma additions_concat c cs :
  additions (c :: cs) = String.concat " and " (c :: cs) +:+ " and ".
Proof.
  revert c. induction cs as [|c' cs IH]; intros c.
  - cbn. by rewrite app_empty_r.
  - change (additions (c :: c' :: cs))
      with (c +:+ " and " +:+ additions (c' :: cs)).
    rewrite IH.
    change (String.concat " and " (c :: c' :: cs))
      with (c +:+ " and " +:+ String.concat " and " (c' :: cs)).
    by rewrite !app_assoc.
Qed.

Lemma value_clauses_cons to_string conditions field fields :
  value_clauses to_string conditions (field :: fields)
  = if truthy (cond conditions field)
    then like_clause field (to_string (cond conditions field))
           :: value_clauses to_string conditions fields
    else value_clauses to_string conditions fields.
Proof.
  unfold value_clauses, cond. simpl.
  by destruct (truthy (default VUndef (conditions !! field))).
Qed.

(** The test [if (v)] and the string conversion [+ v], value by value. *)
Lemma truthy_given v : truthy v = given v.
Proof.
  destruct v as [| |[]|z| |s|l]; simpl; try done.
  - case_decide as Hz; [by subst|]. by apply negb_true_iff, Z.eqb_neq.
  - case_decide as Hs; [by subst|]. by apply negb_true_iff, String.eqb_neq.
Qed.

Lemma toStr_text env h v : toStr env h v = text (objToString env h) v.
Proof. by destruct v as [| |[]| | | |]. Qed.

Lemma given_clauses_cons object conditions field fields :
  given_clauses object conditions (field :: fields)
  = match conditions !! field with
    | Some v =>
        if given v
        then like_clause field (text object v)
               :: given_clauses object conditions fields
        else given_clauses object conditions fields
    | None => given_clauses object conditions fields
    end.
Proof.
  unfold given_clauses. simpl.
  destruct (conditions !! field) as [v|]; [by destruct (given v)|done].
Qed.

Lemma clauses_cons object conditions field fields :
  clauses object conditions (field :: fields)
  = match conditions !! field with
    | Some v =>
        if present v
        then like_clause field (text object v)
               :: clauses object conditions fields
        else clauses object conditions fields
    | None => clauses object conditions fields
    end.
Proof.
  unfold clauses. simpl.
  destruct (conditions !! field) as [v|]; [by destruct (present v)|done].
Qed.

(** The fields whose value passes the test are those whose value is
    given. *)
Lemma value_clauses_given env h conditions fields :
  value_clauses (toStr env h) conditions fields
  = given_clauses (objToString env h) conditions fields.
Proof.
  induction fields as [|field fields IH]; [done|].
  rewrite value_clauses_cons, given_clauses_cons, IH. unfold cond.
  destruct (conditions !! field) as [v|]; simpl; [|done].
  by rewrite truthy_given, toStr_text.
Qed.

(** Without a value that is [false], zero or [NaN], the values given are
    the values present and not empty. *)
Lemma given_clauses_present object conditions fields :
  no_false_or_zero conditions →
  given_clauses object conditions fields = clauses object conditions fields.
Proof.
  intros Hno.
  induction fields as [|field fields IH]; [done|].
  rewrite given_clauses_cons, clauses_cons, IH.
  destruct (conditions !! field) as [v|] eqn:Hv; [|done].
  destruct (Hno field v Hv) as (Hfalse & Hzero & Hnan).
  destruct v as [| |[]|z| |s|l]; simpl; try done.
  case_decide; [by subst|done].
Qed.

Section reduce.
Context (env : Env) (h : list hobj) (conditions : gmap string val).

Lemma reduce_additions fields acc :
  foldl (query_step env h conditions) acc fields
  = acc +:+ additions (value_clauses (toStr env h) conditions fields).
Proof.
  revert acc. induction fields as [|field fields IH]; intros acc.
  - cbn. by rewrite app_empty_r.
  - rewrite value_clauses_cons. simpl foldl. rewrite IH.
    unfold query_step.
    destruct (truthy (cond conditions field)); simpl.
    + unfold like_clause.
      change (EmptyString +:+ field) with field.
      change "' and " with ("'" +:+ " and ").
      by rewrite !app_assoc.
    + by rewrite app_empty_r.
Qed.

Lemma makeQuery_filter fields :
  _makeQuery env h conditions fields
  = {| filterStatement :=
         filter (value_clauses (toStr env h) conditions fields) |}.
Proof.
  unfold _makeQuery, filter. f_equal.
  rewrite reduce_additions.
  destruct (value_clauses _ conditions fields) as [|c cs].
  - reflexivity.
  - rewrite additions_concat, <- app_assoc.
    apply strip_final_and_app.
Qed.
End reduce.

End QueryFacts.

(** C6, as first stated: one clause for every allowed field whose value is
    present and not empty.  It is not so for the values [false] and zero:
    they are present and not empty, and get no clause.  Conditions that say
    only that a label is not active give the bare keyword, a filter that
    matches every label, where the specification has
    [isActive like 'false']; the same for an order id of zero. *)
Lemma makeQuery_skips_false_and_zero :
  QuerySpec.clauses (objToString Scenario.mock_env [])
    {[ "isActive" := VBool false ]} LABEL_FIELDS
  = ["isActive like 'false'"]
  ∧ _makeQuery Scenario.mock_env [] {[ "isActive" := VBool false ]} LABEL_FIELDS
    = {| filterStatement := "Where " |}
  ∧ _makeQuery Scenario.mock_env [] {[ "isActive" := VBool false ]} LABEL_FIELDS
    ≠ {| filterStatement :=
           QuerySpec.filter
             (QuerySpec.clauses (objToString Scenario.mock_env [])
                {[ "isActive" := VBool false ]} LABEL_FIELDS) |}
  ∧ QuerySpec.clauses (objToString Scenario.mock_env [])
      {[ "orderId" := VNum 0; "name" := VStr "PREBID_0.50" ]} LINE_ITEM_FIELDS
    = ["name like 'PREBID_0.50'"; "orderId like '0'"]
  ∧ _makeQuery Scenario.mock_env []
      {[ "orderId" := VNum 0; "name" := VStr "PREBID_0.50" ]} LINE_ITEM_FIELDS
    = {| filterStatement := "Where name like 'PREBID_0.50'" |}.
Proof. split_and!; by vm_compute. Qed.

(** C6, amended.  For every condition set and every list of allowed
    fields, the statement built by [_makeQuery] is the keyword followed by
    the [and]-combination of one [field like 'value'] clause per allowed
    field whose value is given, in the order of the allowed fields and
    without a final [and].  A value is given when it is present, not the
    empty string, and none of [false], zero and [NaN]; it stands in its
    clause as the string it converts to.  Where no value of the conditions
    is [false], zero or [NaN], the clauses are those of the fields whose
    value is present and not empty.  When no allowed field has a value that
    is given the statement is the bare keyword, an empty filter, and not an
    error.  (The allowed fields are names for which an object has no
    property unless it is given one, as those of the field lists of the
    wrapper are, and the numbers are below 10^21 in size.) *)
Theorem makeQuery_and_combination (env : Env) (h : list hobj)
    (conditions : gmap string val) (fields : list string) :
  QuerySpec.own_fields fields →
  QuerySpec.written_out conditions →
  _makeQuery env h conditions fields
  = {| filterStatement :=
         "Where " +:+ String.concat " and "
                        (QuerySpec.given_clauses (objToString env h)
                           conditions fields) |}
  ∧ (QuerySpec.no_false_or_zero conditions →
     QuerySpec.given_clauses (objToString env h) conditions fields
     = QuerySpec.clauses (objToString env h) conditions fields)
  ∧ (QuerySpec.given_clauses (objToString env h) conditions fields = [] →
     _makeQuery env h conditions fields = {| filterStatement := "Where " |}).
Proof.
  intros _ _.
  pose proof (QueryFacts.makeQuery_filter env h conditions fields) as Hq.
  rewrite QueryFacts.value_clauses_given in Hq.
  split_and!.
  - exact Hq.
  - apply QueryFacts.given_clauses_present.
  - intros Hnone. rewrite Hq. unfold QuerySpec.filter. by rewrite Hnone.
Qed.

Lemma makeQuery_and_combination_witness :
  QuerySpec.given_clauses (objToString Scenario.mock_env [])
    {[ "name" := VStr "TV2no"; "status" := VStr EmptyString; "id" := VNum 7 ]}
    AD_UNIT_FIELDS
  = ["id like '7'"; "name like 'TV2no'"]
  ∧ _makeQuery Scenario.mock_env []
      {[ "name" := VStr "TV2no"; "status" := VStr EmptyString; "id" := VNum 7 ]}
      AD_UNIT_FIELDS
    = {| filterStatement := "Where id like '7' and name like 'TV2no'" |}
  ∧ _makeQuery Scenario.mock_env [] {[ "name" := VUndef ]} AD_UNIT_FIELDS
    = {| filterStatement := "Where " |}.
Proof.
  assert (QuerySpec.own_fields AD_UNIT_FIELDS) as Hown.
  { unfold QuerySpec.own_fields, AD_UNIT_FIELDS.
    repeat constructor; intros Hin%list_elem_of_In; vm_compute in Hin;
      intuition discriminate. }
  assert (∀ field v,
            ({[ "name" := VStr "TV2no"; "status" := VStr EmptyString; "id" := VNum 7 ]}
               : gmap string val) !! field = Some v →
            v = VStr "TV2no" ∨ v = VStr EmptyString ∨ v = VNum 7) as Hvalues.
  { intros field v Hv.
    apply lookup_insert_Some in Hv as [[_ <-]|[_ Hv]]; [by left|].
    apply lookup_insert_Some in Hv as [[_ <-]|[_ Hv]]; [by right; left|].
    apply lookup_singleton_Some in Hv as [_ <-]. by right; right. }
  destruct (makeQuery_and_combination Scenario.mock_env []
              {[ "name" := VStr "TV2no"; "status" := VStr EmptyString; "id" := VNum 7 ]}
              AD_UNIT_FIELDS Hown) as (Hquery & Hsame & _).
  { intros field z Hz. destruct (Hvalues _ _ Hz) as [?|[?|?]]; simplify_eq.
    by vm_compute. }
  split_and!.
  - rewrite Hsame; [by vm_compute|].
    intros field v Hv. destruct (Hvalues _ _ Hv) as [->|[->| ->]]; done.
  - rewrite Hquery. by vm_compute.
  - apply (makeQuery_and_combination Scenario.mock_env []
             {[ "name" := VUndef ]} AD_UNIT_FIELDS Hown).
    + intros field z Hz. by apply lookup_singleton_Some in Hz as [_ ?].
    + by vm_compute.
Defined.

(** ** Promise chains *)

(** Unfolds one promise chain of the wrapper down to the matches on what the
    stores and the remote platform give. *)
Ltac unchain :=
  unfold tap, catch_, then_, getAsync, putAsync, executeAPIFunction,
    extractResults, extractFirstId, console_log, read_heap, resolve, reject
    in *;
  simpl in *.

Ltac split_run :=
  repeat (case_match; simplify_eq/=; try done).

Module PromiseFacts.

(** What holds of every result of the mapped function holds of the
    results of [map_], which are as many as the items. *)
Lemma map_Forall {A B} (f : A → Promise B) (P : B → Prop) :
  (∀ x w y w', f x w = (Resolved y, w') → P y) →
  ∀ items w ys w',
    map_ f items w = (Resolved ys, w') →
    Forall P ys ∧ length ys = length items.
Proof.
  intros Hf items. induction items as [|x items IH]; intros w ys w' Hrun.
  - unfold map_, resolve in Hrun. simplify_eq. by split.
  - simpl in Hrun. unfold then_ at 1 in Hrun.
    destruct (f x w) as [[y|e] w1] eqn:Hx; [|done].
    unfold then_ at 1 in Hrun.
    destruct (map_ f items w1) as [[ys'|e] w2] eqn:Hrest; [|done].
    unfold resolve in Hrun. simplify_eq.
    destruct (IH _ _ _ Hrest) as [Hall Hlen].
    split; [constructor; eauto|simpl; by rewrite Hlen].
Qed.

End PromiseFacts.

(** ** Extraction of the first id *)

Module ResolverFacts.

Section extract.
Context (env : Env).

Lemma extract_none response w :
  results response = None ∨ results response = Some [] →
  ∃ message,
    then_ (extractResults response) extractFirstId w
    = (Rejected (Error message), w).
Proof. intros [H|H]; unchain; rewrite H; simpl; eauto. Qed.

Lemma extract_first response r rest i w :
  results response = Some (r :: rest) →
  result_id r = Some i → i ≠ EmptyString →
  then_ (extractResults response) extractFirstId w = (Resolved i, w).
Proof.
  intros Hrs Hid Hne. unchain. rewrite Hrs. simpl. rewrite Hid.
  by case_decide.
Qed.

Lemma extract_first_without_id response r rest w :
  results response = Some (r :: rest) →
  result_id r = None ∨ result_id r = Some EmptyString →
  ∃ message,
    then_ (extractResults response) extractFirstId w
    = (Rejected (Error message), w).
Proof.
  intros Hrs [Hid|Hid]; unchain; rewrite Hrs; simpl; rewrite Hid; eauto.
Qed.
End extract.

End ResolverFacts.

(** C7, as first stated: any response with at least one result makes the
    extraction succeed.  It does not: a first result without an id is
    rejected although a later result has one. *)
Lemma first_result_without_id_is_rejected :
  ¬ (∀ (response : Response) (r : Result) (rest : list Result) (w : World),
       results response = Some (r :: rest) →
       ∃ i, then_ (extractResults response) extractFirstId w = (Resolved i, w)).
Proof.
  intros Hclaim.
  destruct (Hclaim {| results := Some [ {| result_id := None |};
                                        {| result_id := Some "7" |} ] |}
              _ _ empty_world eq_refl) as [i Hi].
  vm_compute in Hi. discriminate Hi.
Qed.

(** C7, amended.  A response without results, or with an empty list of
    results, is rejected with an error.  A response whose first result has a
    non-empty id resolves to that id, whatever follows it.  A response whose
    first result has no id is rejected with an error.  The same holds of a
    whole lookup at the remote platform, [getCriteriaKey]. *)
Theorem first_match_extraction (env : Env) (response : Response) (w : World) :
  (results response = None ∨ results response = Some [] →
   ∃ message,
     then_ (extractResults response) extractFirstId w
     = (Rejected (Error message), w))
  ∧ (∀ r rest i,
       results response = Some (r :: rest) → result_id r = Some i → i ≠ EmptyString →
       then_ (extractResults response) extractFirstId w = (Resolved i, w))
  ∧ (∀ r rest,
       results response = Some (r :: rest) →
       result_id r = None ∨ result_id r = Some EmptyString →
       ∃ message,
         then_ (extractResults response) extractFirstId w
         = (Rejected (Error message), w))
  ∧ (∀ conditions,
       remote env (remoteCalls w)
         {| service := "CustomTargetingService";
            method := "getCustomTargetingKeysByStatement";
            input := _makeQuery env (heap w) conditions CRITERIA_KEY_FIELDS |}
       = ApiResolve response →
       (getCriteriaKey env conditions w).1
       = (then_ (extractResults response) extractFirstId w).1).
Proof.
  split_and!.
  - apply ResolverFacts.extract_none.
  - intros r rest i. apply ResolverFacts.extract_first.
  - intros r rest. apply ResolverFacts.extract_first_without_id.
  - intros conditions Hremote. unfold getCriteriaKey. unchain.
    rewrite Hremote. split_run.
Qed.

Lemma first_match_extraction_witness :
  (∃ message,
     then_ (extractResults {| results := Some [] |}) extractFirstId empty_world
     = (Rejected (Error message), empty_world))
  ∧ then_ (extractResults
             {| results := Some [ {| result_id := Some "K1" |};
                                  {| result_id := Some "K2" |} ] |})
      extractFirstId empty_world
    = (Resolved "K1", empty_world)
  ∧ (∃ message,
       then_ (extractResults
                {| results := Some [ {| result_id := None |};
                                     {| result_id := Some "K2" |} ] |})
         extractFirstId empty_world
       = (Rejected (Error message), empty_world))
  ∧ (getCriteriaKey Scenario.mock_env {[ "name" := VStr "hb_pb" ]} empty_world).1
    = Resolved "K1".
Proof.
  split_and!.
  - apply (first_match_extraction Scenario.mock_env {| results := Some [] |}
             empty_world). by right.
  - refine (proj1 (proj2 (first_match_extraction Scenario.mock_env
                            {| results := Some [ {| result_id := Some "K1" |};
                                                 {| result_id := Some "K2" |} ] |}
                            empty_world))
              {| result_id := Some "K1" |} [ {| result_id := Some "K2" |} ] "K1"
              eq_refl eq_refl _).
    done.
  - refine (proj1 (proj2 (proj2 (first_match_extraction Scenario.mock_env
                            {| results := Some [ {| result_id := None |};
                                                 {| result_id := Some "K2" |} ] |}
                            empty_world)))
              {| result_id := None |} [ {| result_id := Some "K2" |} ]
              eq_refl _).
    by left.
  - rewrite (proj2 (proj2 (proj2 (first_match_extraction Scenario.mock_env
                            {| results := Some [ {| result_id := Some "K1" |} ] |}
                            empty_world)))
               {[ "name" := VStr "hb_pb" ]}); by vm_compute.
Defined.

(** ** Cache-backed lookups *)

Module CacheFacts.

Lemma store_of_set_store st m w : store_of st (set_store st m w) = m.
Proof. by destruct st. Qed.

Lemma heap_set_store st m w : heap (set_store st m w) = heap w.
Proof. by destruct st. Qed.

Lemma remoteCalls_set_store st m w :
  remoteCalls (set_store st m w) = remoteCalls w.
Proof. by destruct st. Qed.

(** The two fields of the conditions of a value lookup. *)
Lemma cond_value_name (value : val) (keyId : string) :
  cond {[ "name" := value; "customTargetingKeyId" := VStr keyId ]} "name"
  = value.
Proof. unfold cond. by rewrite lookup_insert_eq. Qed.

Lemma cond_value_key (value : val) (keyId : string) :
  cond {[ "name" := value; "customTargetingKeyId" := VStr keyId ]}
    "customTargetingKeyId"
  = VStr keyId.
Proof.
  unfold cond. rewrite lookup_insert_ne by done.
  by rewrite lookup_singleton_eq.
Qed.

Section lookups.
Context (env : Env).

(** A resolved [lookupCriteriaKey] leaves the id in the store. *)
Lemma lookupCriteriaKey_stored name w id w1 :
  lookupCriteriaKey env name w = (Resolved id, w1) →
  criteriaKeys w1 !! name = Some id.
Proof.
  unfold lookupCriteriaKey, getCriteriaKey. unchain. intros Hrun.
  split_run. apply lookup_insert_eq.
Qed.

(** A lookup that finds the name in the store returns at once. *)
Lemma lookupCriteriaKey_hit name w id :
  criteriaKeys w !! name = Some id →
  lookupCriteriaKey env name w = (Resolved id, w).
Proof. intros Hhit. unfold lookupCriteriaKey. unchain. by rewrite Hhit. Qed.

Lemma lookupLabel_stored name w id w1 :
  lookupLabel env name w = (Resolved id, w1) →
  labels w1 !! name = Some id.
Proof.
  unfold lookupLabel, getLabel. unchain. intros Hrun.
  split_run. apply lookup_insert_eq.
Qed.

Lemma lookupLabel_hit name w id :
  labels w !! name = Some id →
  lookupLabel env name w = (Resolved id, w).
Proof. intros Hhit. unfold lookupLabel. unchain. by rewrite Hhit. Qed.

Lemma getOrder_stored conditions w id w1 :
  getOrder env conditions w = (Resolved id, w1) →
  heap w1 = heap w
  ∧ ∃ k, key_of_val env (heap w) (cond conditions "name") = Some k
         ∧ orders w1 !! k = Some id.
Proof.
  unfold getOrder. unchain. intros Hrun.
  split_run; split; try done; eexists; split; try done.
  apply lookup_insert_eq.
Qed.

Lemma getOrder_hit conditions w k id :
  key_of_val env (heap w) (cond conditions "name") = Some k →
  orders w !! k = Some id →
  getOrder env conditions w = (Resolved id, w).
Proof.
  intros Hk Hhit. unfold getOrder. unchain. by rewrite Hk, Hhit.
Qed.

(** A resolved [lookupCriteriaValues] is one id, kept in the store under
    the key id, a colon and the value name. *)
Lemma lookupCriteriaValues_stored value keyId w ids w1 :
  lookupCriteriaValues env value keyId w = (Resolved ids, w1) →
  ∃ id, ids = [id]
        ∧ criteriaValues w1 !! (keyId +:+ ":" +:+ toStr env (heap w) value)
          = Some id.
Proof.
  unfold lookupCriteriaValues, getCriteriaValue.
  rewrite cond_value_name, cond_value_key.
  unchain. intros Hrun.
  split_run; eexists; split; try done.
  apply lookup_insert_eq.
Qed.

(** A lookup that misses the store, finds a first id at the remote
    platform and writes it. *)
Lemma lookupCriteriaKey_miss name w response r rest i :
  criteriaKeys w !! name = None →
  remote env (remoteCalls w)
    {| service := "CustomTargetingService";
       method := "getCustomTargetingKeysByStatement";
       input := _makeQuery env (heap w) {[ "name" := VStr name ]}
                  CRITERIA_KEY_FIELDS |} = ApiResolve response →
  results response = Some (r :: rest) → result_id r = Some i → i ≠ EmptyString →
  putFails env criteriaKeyStore name i = false →
  lookupCriteriaKey env name w
  = (Resolved i,
     set_store criteriaKeyStore (<[name:=i]> (criteriaKeys w))
       (set_remoteCalls
          (remoteCalls w
             ++ [{| service := "CustomTargetingService";
                    method := "getCustomTargetingKeysByStatement";
                    input := _makeQuery env (heap w) {[ "name" := VStr name ]}
                               CRITERIA_KEY_FIELDS |}]) w)).
Proof.
  intros Hmiss Hremote Hrs Hid Hne Hput.
  unfold lookupCriteriaKey, getCriteriaKey. unchain.
  rewrite Hmiss, Hremote, Hrs. simpl. rewrite Hid.
  case_decide; [done|]. by rewrite Hput.
Qed.

Lemma lookupCriteriaValues_miss value keyId w response r rest i :
  let lookupKey := keyId +:+ ":" +:+ toStr env (heap w) value in
  let call :=
    {| service := "CustomTargetingService";
       method := "getCustomTargetingValuesByStatement";
       input :=
         {| filterStatement :=
              "Where customTargetingKeyId = '" +:+ keyId
                +:+ "' and name like '" +:+ toStr env (heap w) value
                +:+ "'" |} |} in
  criteriaValues w !! lookupKey = None →
  remote env (remoteCalls w) call = ApiResolve response →
  results response = Some (r :: rest) → result_id r = Some i → i ≠ EmptyString →
  putFails env criteriaValueStore lookupKey i = false →
  lookupCriteriaValues env value keyId w
  = (Resolved [i],
     set_store criteriaValueStore (<[lookupKey:=i]> (criteriaValues w))
       (set_remoteCalls (remoteCalls w ++ [call])
          (set_console (console w ++ [LogQuery "query 2: " (input call)]) w))).
Proof.
  intros lookupKey call Hmiss Hremote Hrs Hid Hne Hput.
  unfold lookupCriteriaValues, getCriteriaValue.
  rewrite cond_value_name, cond_value_key.
  unchain. fold lookupKey. rewrite Hmiss.
  fold call. rewrite Hremote, Hrs. simpl. rewrite Hid.
  case_decide; [done|]. by rewrite Hput.
Qed.
End lookups.

End CacheFacts.

(** C1.  When [lookupCriteriaKey] has resolved a name, or [getOrder] an
    order, the store holds the id, and the same call made again in the world
    the first one left resolves to the same id and leaves that world as it
    is: in particular no further call reaches the remote platform. *)
Theorem second_resolution_is_a_cache_hit (env : Env) (w w1 : World) (id : string) :
  (∀ name,
     lookupCriteriaKey env name w = (Resolved id, w1) →
     criteriaKeys w1 !! name = Some id
     ∧ lookupCriteriaKey env name w1 = (Resolved id, w1))
  ∧ (∀ conditions,
       getOrder env conditions w = (Resolved id, w1) →
       (∃ k, key_of_val env (heap w) (cond conditions "name") = Some k
             ∧ orders w1 !! k = Some id)
       ∧ getOrder env conditions w1 = (Resolved id, w1)).
Proof.
  split.
  - intros name Hrun.
    pose proof (CacheFacts.lookupCriteriaKey_stored env _ _ _ _ Hrun) as Hst.
    split; [done|]. by apply CacheFacts.lookupCriteriaKey_hit.
  - intros conditions Hrun.
    destruct (CacheFacts.getOrder_stored env _ _ _ _ Hrun) as (Hheap & k & Hk & Hst).
    split; [eauto|].
    apply (CacheFacts.getOrder_hit env conditions w1 k); [|done].
    by rewrite Hheap.
Qed.

Lemma second_resolution_is_a_cache_hit_witness :
  (length (remoteCalls Runs.after_key_lookup) = 1
   ∧ criteriaKeys Runs.after_key_lookup !! "hb_pb" = Some "K1"
   ∧ lookupCriteriaKey Scenario.mock_env "hb_pb" Runs.after_key_lookup
     = (Resolved "K1", Runs.after_key_lookup))
  ∧ (length (remoteCalls Runs.after_order_lookup) = 1
     ∧ getOrder Scenario.mock_env Runs.order_conditions Runs.after_order_lookup
       = (Resolved "2172772969", Runs.after_order_lookup)).
Proof.
  split; (split; [by vm_compute|]).
  - apply (proj1 (second_resolution_is_a_cache_hit Scenario.mock_env
                    empty_world Runs.after_key_lookup "K1") "hb_pb").
    by vm_compute.
  - apply (proj2 (second_resolution_is_a_cache_hit Scenario.mock_env
                    empty_world Runs.after_order_lookup "2172772969")
             Runs.order_conditions).
    by vm_compute.
Defined.

(** C2, as first stated: a failed write to the store leaves the lookup
    resolved with the fetched id.  It does not: with a remote platform that
    knows the key and a store that refuses the write, the lookup is rejected
    with the write error. *)
Lemma failed_write_rejects_the_lookup :
  remote Scenario.failing_store_env []
    {| service := "CustomTargetingService";
       method := "getCustomTargetingKeysByStatement";
       input := {| filterStatement := "Where name like 'hb_pb'" |} |}
  = Scenario.answer ["K1"]
  ∧ putFails Scenario.failing_store_env criteriaKeyStore "hb_pb" "K1" = true
  ∧ (lookupCriteriaKey Scenario.failing_store_env "hb_pb" empty_world).1
    = Rejected (WriteError criteriaKeyStore)
  ∧ (lookupCriteriaKey Scenario.failing_store_env "hb_pb" empty_world).1
    ≠ Resolved "K1".
Proof. by vm_compute. Qed.

(** C2, amended.  For [lookupCriteriaKey], [lookupLabel], [getOrder] and
    [lookupCriteriaValues]: when the store has no entry, the remote platform
    answers with a first result of non-empty id, and the write of that id to
    the store fails, the failure is written to the console and the lookup is
    rejected with the write error; the store is left as it was. *)
Theorem failed_write_is_logged_and_fatal (env : Env) (w : World)
    (response : Response) (r : Result) (rest : list Result) (i : string) :
  results response = Some (r :: rest) → result_id r = Some i → i ≠ EmptyString →
  (∀ name,
     criteriaKeys w !! name = None →
     remote env (remoteCalls w)
       {| service := "CustomTargetingService";
          method := "getCustomTargetingKeysByStatement";
          input := _makeQuery env (heap w) {[ "name" := VStr name ]}
                     CRITERIA_KEY_FIELDS |} = ApiResolve response →
     putFails env criteriaKeyStore name i = true →
     ∃ w', lookupCriteriaKey env name w = (Rejected (WriteError criteriaKeyStore), w')
           ∧ console w' = console w
               ++ [LogError "locally storing criteria key failed"
                     (WriteError criteriaKeyStore)]
           ∧ criteriaKeys w' = criteriaKeys w)
  ∧ (∀ name,
       labels w !! name = None →
       remote env (remoteCalls w)
         {| service := "LabelService";
            method := "getLabelsByStatement";
            input := _makeQuery env (heap w) {[ "name" := VStr name ]}
                       LABEL_FIELDS |} = ApiResolve response →
       putFails env labelStore name i = true →
       ∃ w', lookupLabel env name w = (Rejected (WriteError labelStore), w')
             ∧ console w' = console w
                 ++ [LogError "locally storing label failed"
                       (WriteError labelStore)]
             ∧ labels w' = labels w)
  ∧ (∀ conditions k,
       key_of_val env (heap w) (cond conditions "name") = Some k →
       orders w !! k = None →
       remote env (remoteCalls w)
         {| service := "OrderService";
            method := "getOrdersByStatement";
            input := _makeQuery env (heap w) conditions ORDER_FIELDS |}
       = ApiResolve response →
       putFails env orderStore k i = true →
       ∃ w', getOrder env conditions w = (Rejected (WriteError orderStore), w')
             ∧ console w' = console w
                 ++ [LogError "locally storing order failed"
                       (WriteError orderStore)]
             ∧ orders w' = orders w)
  ∧ (∀ value keyId,
       let lookupKey := keyId +:+ ":" +:+ toStr env (heap w) value in
       let newQuery :=
         {| filterStatement :=
              "Where customTargetingKeyId = '" +:+ keyId
                +:+ "' and name like '" +:+ toStr env (heap w) value +:+ "'" |} in
       criteriaValues w !! lookupKey = None →
       remote env (remoteCalls w)
         {| service := "CustomTargetingService";
            method := "getCustomTargetingValuesByStatement";
            input := newQuery |} = ApiResolve response →
       putFails env criteriaValueStore lookupKey i = true →
       ∃ w', lookupCriteriaValues env value keyId w
             = (Rejected (WriteError criteriaValueStore), w')
             ∧ console w' = console w
                 ++ [LogQuery "query 2: " newQuery;
                     LogError "locally storing criteria value failed"
                       (WriteError criteriaValueStore)]
             ∧ criteriaValues w' = criteriaValues w).
Proof.
  intros Hrs Hid Hne. split_and!.
  - intros name Hmiss Hremote Hput.
    unfold lookupCriteriaKey, getCriteriaKey. unchain.
    rewrite Hmiss, Hremote, Hrs. simpl. rewrite Hid.
    case_decide; [done|]. rewrite Hput. eauto.
  - intros name Hmiss Hremote Hput.
    unfold lookupLabel, getLabel. unchain.
    rewrite Hmiss, Hremote, Hrs. simpl. rewrite Hid.
    case_decide; [done|]. rewrite Hput. eauto.
  - intros conditions k Hk Hmiss Hremote Hput.
    unfold getOrder. unchain.
    rewrite Hk, Hmiss, Hremote, Hrs. simpl. rewrite Hid.
    case_decide; [done|]. rewrite Hput. eauto.
  - intros value keyId lookupKey newQuery Hmiss Hremote Hput.
    unfold lookupCriteriaValues, getCriteriaValue.
    rewrite CacheFacts.cond_value_name, CacheFacts.cond_value_key.
    unchain. fold lookupKey. rewrite Hmiss.
    fold newQuery. rewrite Hremote, Hrs. simpl. rewrite Hid.
    case_decide; [done|]. rewrite Hput.
    eexists. split; [done|]. simpl. by rewrite <- app_assoc.
Qed.

Lemma failed_write_is_logged_and_fatal_witness :
  (∃ w', lookupCriteriaKey Scenario.failing_store_env "hb_pb" empty_world
         = (Rejected (WriteError criteriaKeyStore), w')
         ∧ console w' = console empty_world
             ++ [LogError "locally storing criteria key failed"
                   (WriteError criteriaKeyStore)]
         ∧ criteriaKeys w' = criteriaKeys empty_world)
  ∧ (∃ w', lookupLabel Scenario.failing_store_env "sports" empty_world
           = (Rejected (WriteError labelStore), w')
           ∧ console w' = console empty_world
               ++ [LogError "locally storing label failed"
                     (WriteError labelStore)]
           ∧ labels w' = labels empty_world)
  ∧ (∃ w', getOrder Scenario.failing_store_env Runs.order_conditions empty_world
           = (Rejected (WriteError orderStore), w')
           ∧ console w' = console empty_world
               ++ [LogError "locally storing order failed"
                     (WriteError orderStore)]
           ∧ orders w' = orders empty_world).
Proof.
  split_and!.
  - refine (proj1 (failed_write_is_logged_and_fatal Scenario.failing_store_env
                     empty_world
                     {| results := Some [ {| result_id := Some "K1" |} ] |}
                     {| result_id := Some "K1" |} [] "K1" eq_refl eq_refl _)
              "hb_pb" _ _ _); [done|done|by vm_compute|done].
  - refine (proj1 (proj2 (failed_write_is_logged_and_fatal
                     Scenario.failing_store_env empty_world
                     {| results := Some [ {| result_id := Some "L7" |} ] |}
                     {| result_id := Some "L7" |} [] "L7" eq_refl eq_refl _))
              "sports" _ _ _); [done|done|by vm_compute|done].
  - refine (proj1 (proj2 (proj2 (failed_write_is_logged_and_fatal
                     Scenario.failing_store_env empty_world
                     {| results := Some [ {| result_id := Some "2172772969" |} ] |}
                     {| result_id := Some "2172772969" |} [] "2172772969"
                     eq_refl eq_refl _)))
              Runs.order_conditions "yo_first_order" _ _ _ _);
      [done|by vm_compute|done|by vm_compute|done].
Defined.

(** C3, on the code.  [getAdUnit] reads the ad unit store under the string
    conversion of the statement and writes it under the name.  Resolving
    ["TV2no"] in a fresh process gives the id of the remote platform and
    stores it under the name; the same resolution made again gives the same
    id but, the read having missed, reaches the remote platform a second
    time. *)
Lemma getAdUnit_repeat_reaches_the_remote_twice :
  Runs.first_adUnit.1 = Resolved "21661848134"
  ∧ adUnits Runs.first_adUnit.2 !! "TV2no" = Some "21661848134"
  ∧ length (remoteCalls Runs.first_adUnit.2) = 1
  ∧ Runs.second_adUnit.1 = Resolved "21661848134"
  ∧ length (remoteCalls Runs.second_adUnit.2) = 2.
Proof. by vm_compute. Qed.

(** ** Criteria *)

(** C9.  With a criteria object [{"hb_pb": "0.50"}], stores that hold
    neither the key name nor the composite key and accept the writes, and a
    remote platform that answers the key query with ["K1"] and the value
    query scoped to ["K1"] with ["V1"], [getCriteria] resolves to exactly
    one entry of key id ["K1"] and value ids ["V1"], and the value store
    then holds ["V1"] under the key ["K1:0.50"].  In general a resolved
    [lookupCriteriaValues] leaves its id in the value store under the key
    id, a colon and the value name. *)
Theorem getCriteria_hb_pb (env : Env) (w : World) (l : nat) :
  heap w !! l = Some (HObj [("hb_pb", VStr "0.50")]) →
  criteriaKeys w !! "hb_pb" = None →
  criteriaValues w !! "K1:0.50" = None →
  (∀ calls,
     remote env calls
       {| service := "CustomTargetingService";
          method := "getCustomTargetingKeysByStatement";
          input := {| filterStatement := "Where name like 'hb_pb'" |} |}
     = Scenario.answer ["K1"]) →
  (∀ calls,
     remote env calls
       {| service := "CustomTargetingService";
          method := "getCustomTargetingValuesByStatement";
          input := {| filterStatement :=
                        "Where customTargetingKeyId = 'K1' and name like '0.50'" |} |}
     = Scenario.answer ["V1"]) →
  putFails env criteriaKeyStore "hb_pb" "K1" = false →
  putFails env criteriaValueStore "K1:0.50" "V1" = false →
  ∃ w', getCriteria env (VRef l) w
        = (Resolved [ {| keyId := "K1"; valueIds := ["V1"] |} ], w')
        ∧ criteriaKeys w' !! "hb_pb" = Some "K1"
        ∧ criteriaValues w' !! "K1:0.50" = Some "V1"
        ∧ length (remoteCalls w') = length (remoteCalls w) + 2
        ∧ ∀ value keyId ids w1 w2,
            lookupCriteriaValues env value keyId w1 = (Resolved ids, w2) →
            ∃ id, ids = [id]
                  ∧ criteriaValues w2
                      !! (keyId +:+ ":" +:+ toStr env (heap w1) value)
                    = Some id.
Proof.
  intros Hobj Hkmiss Hvmiss Hkey Hval Hkput Hvput.
  unfold getCriteria, pairs. unfold then_ at 1. unfold read_heap. simpl.
  rewrite Hobj. simpl.
  unfold then_ at 1. unfold then_ at 1. unfold _lookupKeyInPair at 1.
  unfold then_ at 1. simpl.
  rewrite (CacheFacts.lookupCriteriaKey_miss env "hb_pb" w
             {| results := Some [ {| result_id := Some "K1" |} ] |}
             {| result_id := Some "K1" |} [] "K1"
             Hkmiss (Hkey _) eq_refl eq_refl ltac:(done) Hkput).
  unfold resolve at 1. unfold then_ at 1. unfold resolve at 1.
  unfold resolve at 1.
  unfold then_ at 1. simpl map_. unfold then_ at 1.
  unfold _lookupValueInPair at 1. unfold then_ at 1. simpl.
  match goal with
  | |- context [lookupCriteriaValues env _ _ ?w1] =>
      rewrite (CacheFacts.lookupCriteriaValues_miss env (VStr "0.50") "K1" w1
                 {| results := Some [ {| result_id := Some "V1" |} ] |}
                 {| result_id := Some "V1" |} [] "V1"
                 Hvmiss (Hval _) eq_refl eq_refl ltac:(done) Hvput)
  end.
  unfold resolve. simpl.
  eexists. split; [done|]. simpl.
  rewrite !lookup_insert_eq. rewrite !length_app. simpl.
  split_and!; try done; [lia|].
  intros value keyId ids w1 w2.
  apply CacheFacts.lookupCriteriaValues_stored.
Qed.

Lemma getCriteria_hb_pb_witness :
  ∃ w', getCriteria Scenario.mock_env (VRef 7) Scenario.lineItem_world
        = (Resolved [ {| keyId := "K1"; valueIds := ["V1"] |} ], w')
        ∧ criteriaKeys w' !! "hb_pb" = Some "K1"
        ∧ criteriaValues w' !! "K1:0.50" = Some "V1"
        ∧ length (remoteCalls w') = length (remoteCalls Scenario.lineItem_world) + 2.
Proof.
  destruct (getCriteria_hb_pb Scenario.mock_env Scenario.lineItem_world 7)
    as (w' & Hrun & Hkey & Hvalue & Hcalls & _);
    try done; try (intros calls; by vm_compute).
  by exists w'.
Defined.

(** ** Clones and the cells they leave alone *)

Module FrameFacts.
Import Alias.

Lemma fresh_val_prim n v : (∀ l, v ≠ VRef l) → fresh_val n v.
Proof. destruct v; try done. intros H. by destruct (H l). Qed.

Lemma lookup_prop_Forall (P : val → Prop) name props :
  P VUndef → Forall P props.*2 → P (lookup_prop name props).
Proof.
  intros Hundef. induction props as [|[k v] props IH]; simpl; [done|].
  intros Hall. apply Forall_cons in Hall as [Hv Hall].
  case_decide; auto.
Qed.

Lemma assign_prop_Forall (P : val → Prop) name x props :
  P x → Forall P props.*2 → Forall P (assign_prop name x props).*2.
Proof.
  intros Hx. induction props as [|[k v] props IH]; simpl.
  - intros _. by constructor.
  - intros Hall. apply Forall_cons in Hall as [Hv Hall].
    case_decide; simpl; constructor; auto.
Qed.

Lemma remove_prop_Forall (P : val → Prop) name props :
  Forall P props.*2 → Forall P (remove_prop name props).*2.
Proof.
  unfold remove_prop. induction props as [|[k v] props IH]; simpl; [done|].
  intros Hall. apply Forall_cons in Hall as [Hv Hall].
  rewrite filter_cons. case_decide; simpl; [constructor|]; auto.
Qed.

Lemma zip_snd_Forall (P : val → Prop) (names : list string) vs :
  Forall P vs → Forall P (zip names vs).*2.
Proof.
  intros Hall. revert names. induction Hall as [|v vs Hv Hall IH];
    intros [|k names]; simpl; try done.
  constructor; auto.
Qed.

(** Replacing a cell from [n] on by one that does not refer below [n]. *)
Lemma closed_above_insert n h l o :
  closed_above n h → Forall (fresh_val n) (vals_of o) →
  closed_above n (<[l:=o]> h).
Proof.
  intros Hclosed Ho l' o' Hn Hl'.
  destruct (decide (l = l')) as [<-|Hne].
  - destruct (decide (l < length h)) as [Hlt|Hge].
    + rewrite list_lookup_insert_eq in Hl' by done. by simplify_eq.
    + rewrite list_insert_ge in Hl' by lia. eauto.
  - rewrite list_lookup_insert_ne in Hl' by done. eauto.
Qed.

Lemma closed_above_snoc n h o :
  closed_above n h → Forall (fresh_val n) (vals_of o) →
  closed_above n (h ++ [o]).
Proof.
  intros Hclosed Ho l' o' Hn Hl'.
  apply lookup_app_Some in Hl' as [Hl'|[Hge Hl']]; [eauto|].
  apply list_lookup_singleton_Some in Hl' as [_ <-]. done.
Qed.

Lemma closed_above_length h : closed_above (length h) h.
Proof.
  intros l o Hn Hl. apply lookup_lt_Some in Hl. lia.
Qed.

Section clone.
Context (n : nat).

Lemma grows_refl st : grows n st st.
Proof. by split. Qed.

Lemma grows_trans st1 st2 st3 :
  grows n st1 st2 → grows n st2 st3 → grows n st1 st3.
Proof.
  intros [H1 L1] [H2 L2]. split; [|lia].
  intros l Hl. rewrite H2, H1; done.
Qed.

(** What holds of one clone holds of the clones of a list. *)
Lemma clone_list_inv clone :
  (∀ v st v' st',
     clone v st = Some (v', st') → clone_inv n st →
     clone_inv n st' ∧ grows n st st' ∧ fresh_val n v') →
  ∀ vs st vs' st',
    clone_list clone vs st = Some (vs', st') → clone_inv n st →
    clone_inv n st' ∧ grows n st st' ∧ Forall (fresh_val n) vs'.
Proof.
  intros Hclone vs. induction vs as [|v vs IH]; intros st vs' st' Hrun Hinv;
    simpl in Hrun.
  - simplify_eq. split_and!; [done|apply grows_refl|done].
  - destruct (clone v st) as [[v1 st1]|] eqn:Hv; [|done].
    destruct (clone_list clone vs st1) as [[vs1 st2]|] eqn:Hvs; [|done].
    simplify_eq.
    destruct (Hclone _ _ _ _ Hv Hinv) as (Hinv1 & Hg1 & Hf1).
    destruct (IH _ _ _ Hvs Hinv1) as (Hinv2 & Hg2 & Hf2).
    split_and!; [done|by eapply grows_trans|by constructor].
Qed.

(** Recording a new clone and giving it an empty cell. *)
Lemma clone_inv_begin st l o :
  clone_inv n st → vals_of o = [] →
  clone_inv n (<[l:=length st.2]> st.1, st.2 ++ [o])
  ∧ grows n st (<[l:=length st.2]> st.1, st.2 ++ [o]).
Proof.
  intros (Hlen & Hclosed & Hmemo) Ho. split; [split_and!|split]; simpl.
  - rewrite length_app. lia.
  - apply closed_above_snoc; [done|]. by rewrite Ho.
  - intros l1 l2 Hl. apply lookup_insert_Some in Hl as [[_ <-]|[_ Hl]];
      [done|eauto].
  - intros l1 Hl1. apply lookup_app_l. lia.
  - rewrite length_app. lia.
Qed.

(** Filling the cell of a clone. *)
Lemma clone_inv_fill st l' o :
  clone_inv n st → n ≤ l' → Forall (fresh_val n) (vals_of o) →
  clone_inv n (st.1, <[l':=o]> st.2) ∧ grows n st (st.1, <[l':=o]> st.2).
Proof.
  intros (Hlen & Hclosed & Hmemo) Hl' Ho. split; [split_and!|split]; simpl.
  - by rewrite length_insert.
  - by apply closed_above_insert.
  - done.
  - intros l Hl. apply list_lookup_insert_ne. lia.
  - by rewrite length_insert.
Qed.

(** A clone is made of new cells only, and touches no cell below [n]. *)
Lemma baseClone_inv fuel :
  ∀ v st v' st',
    baseClone fuel v st = Some (v', st') → clone_inv n st →
    clone_inv n st' ∧ grows n st st' ∧ fresh_val n v'.
Proof.
  induction fuel as [|fuel IH]; intros v st v' st' Hrun Hinv.
  - destruct v; simpl in Hrun; simplify_eq;
      try (split_and!; [done|apply grows_refl|done]).
    destruct (st.1 !! l) as [l'|] eqn:Hmemo; [|done]. simplify_eq.
    split_and!; [done|apply grows_refl|].
    destruct Hinv as (_ & _ & Hm). simpl. eauto.
  - destruct v; simpl in Hrun; simplify_eq;
      try (split_and!; [done|apply grows_refl|done]).
    destruct (st.1 !! l) as [l'|] eqn:Hmemo.
    { simplify_eq. split_and!; [done|apply grows_refl|].
      destruct Hinv as (_ & _ & Hm). simpl. eauto. }
    assert (n ≤ length st.2) as Hlen by apply Hinv.
    destruct (st.2 !! l) as [[props|elems extras]|] eqn:Hcell; [| |done].
    + destruct (clone_inv_begin st l (HObj []) Hinv eq_refl) as [Hinv1 Hg1].
      destruct (clone_list (baseClone fuel) props.*2 _)
        as [[vs st2]|] eqn:Hvs; [|done].
      simplify_eq.
      destruct (clone_list_inv _ IH _ _ _ _ Hvs Hinv1) as (Hinv2 & Hg2 & Hf2).
      destruct (clone_inv_fill st2 (length st.2) (HObj (zip props.*1 vs))
                  Hinv2 Hlen) as [Hinv3 Hg3].
      { simpl. by apply zip_snd_Forall. }
      split_and!; [done| |done].
      eapply grows_trans; [exact Hg1|]. by eapply grows_trans.
    + destruct (clone_inv_begin st l (HArr [] []) Hinv eq_refl) as [Hinv1 Hg1].
      destruct (clone_list (baseClone fuel) elems _)
        as [[vs st2]|] eqn:Hvs; [|done].
      simplify_eq.
      destruct (clone_list_inv _ IH _ _ _ _ Hvs Hinv1) as (Hinv2 & Hg2 & Hf2).
      destruct (clone_inv_fill st2 (length st.2) (HArr vs [])
                  Hinv2 Hlen) as [Hinv3 Hg3].
      { simpl. by rewrite app_nil_r. }
      split_and!; [done| |done].
      eapply grows_trans; [exact Hg1|]. by eapply grows_trans.
Qed.
End clone.

End FrameFacts.

(** ** Chains that leave the old cells alone *)

Module SafeFacts.
Import Alias FrameFacts.

Section rules.
Context (n : nat).

Lemma safe_weaken {A} (P Q : A → Prop) p :
  (∀ a, P a → Q a) → safe n P p → safe n Q p.
Proof.
  intros HPQ Hp w Hlen Hclosed.
  destruct (Hp w Hlen Hclosed) as (H1 & H2 & H3 & H4).
  split_and!; auto.
Qed.

(** A chain that does not change the heap. *)
Lemma safe_heap_const {A} (P : A → Prop) (p : Promise A) :
  heap_const p →
  (∀ w a, (p w).1 = Resolved a → P a) →
  safe n P p.
Proof.
  intros Hheap HP w Hlen Hclosed. rewrite (Hheap w).
  split_and!; eauto.
Qed.

Lemma safe_resolve {A} (P : A → Prop) a : P a → safe n P (resolve a).
Proof.
  intros Ha. apply safe_heap_const; [done|].
  intros w a'. unfold resolve. simpl. by intros [= <-].
Qed.

Lemma safe_reject {A} (P : A → Prop) e : safe n P (reject e).
Proof. by apply safe_heap_const. Qed.

Lemma safe_then {A B} (P : A → Prop) (Q : B → Prop) p f :
  safe n P p → (∀ a, P a → safe n Q (f a)) → safe n Q (then_ p f).
Proof.
  intros Hp Hf w Hlen Hclosed. unfold then_.
  destruct (Hp w Hlen Hclosed) as (H1 & H2 & H3 & H4).
  destruct (p w) as [[a|e] w1]  eqn:Hpw; simpl in *.
  - destruct (Hf a (H4 a eq_refl) w1 H2 H3) as (G1 & G2 & G3 & G4).
    split_and!; [|done..]. intros l Hl. by rewrite G1, H1.
  - split_and!; done.
Qed.

Lemma safe_catch {A} (P : A → Prop) p handler :
  safe n P p → (∀ e, safe n P (handler e)) → safe n P (catch_ p handler).
Proof.
  intros Hp Hh w Hlen Hclosed. unfold catch_.
  destruct (Hp w Hlen Hclosed) as (H1 & H2 & H3 & H4).
  destruct (p w) as [[a|e] w1]  eqn:Hpw; simpl in *.
  - split_and!; done.
  - destruct (Hh e w1 H2 H3) as (G1 & G2 & G3 & G4).
    split_and!; [|done..]. intros l Hl. by rewrite G1, H1.
Qed.





Lemma safe_cloneDeep v : safe n (fresh_val n) (cloneDeep v).
Proof.
  intros w Hlen Hclosed. unfold cloneDeep.
  destruct (baseClone (S (length (heap w))) v (∅, heap w))
    as [[v' st']|] eqn:Hclone; simpl.
  - destruct (baseClone_inv n _ _ _ _ _ Hclone)
      as ((H1 & H2 & _) & [G1 G2] & Hfresh).
    { split_and!; [done..|]. intros l l' Hl. simpl in Hl.
      by rewrite lookup_empty in Hl. }
    destruct w. simpl in *. split_and!; [done..|].
    by intros a [= <-].
  - split_and!; done.
Qed.


(** Reading from a value that does not refer below [n]. *)
Lemma safe_get_prop v name :
  fresh_val n v → safe n (fresh_val n) (get_prop v name).
Proof.
  intros Hv. intros w Hlen Hclosed. unfold get_prop.
  destruct v; simpl; try by split_and!; [done..|intros a [= <-]].
  destruct (heap w !! l) as [[props|elems extras]|] eqn:Hcell; simpl;
    split_and!; try done; intros a [= <-];
    pose proof (Hclosed _ _ Hv Hcell) as Hall; simpl in Hall.
  - by apply lookup_prop_Forall.
  - apply Forall_app in Hall as [_ Hall]. by apply lookup_prop_Forall.
Qed.


(** Writing to a cell that is not below [n]. *)
Lemma safe_update v (update : hobj → hobj) (p : Promise unit) :
  fresh_val n v →
  (∀ o, Forall (fresh_val n) (vals_of o) →
        Forall (fresh_val n) (vals_of (update o))) →
  (∀ w, heap (p w).2 = heap w
        ∨ ∃ l o, v = VRef l ∧ heap w !! l = Some o
                 ∧ heap (p w).2 = <[l:=update o]> (heap w)) →
  safe n (λ _, True) p.
Proof.
  intros Hv Hupdate Hp w Hlen Hclosed.
  destruct (Hp w) as [->|(l & o & -> & Hcell & ->)]; [by split_and!|].
  simpl in Hv. split_and!.
  - intros l' Hl'. apply list_lookup_insert_ne. lia.
  - by rewrite length_insert.
  - apply closed_above_insert; [done|]. apply Hupdate. eauto.
  - done.
Qed.

Lemma safe_set_prop v name x :
  fresh_val n v → fresh_val n x → safe n (λ _, True) (set_prop v name x).
Proof.
  intros Hv Hx.
  apply (safe_update v
           (λ o, match o with
                 | HObj props => HObj (assign_prop name x props)
                 | HArr elems extras => HArr elems (assign_prop name x extras)
                 end)); [done| |].
  - intros [props|elems extras]; simpl; intros Hall.
    + by apply assign_prop_Forall.
    + apply Forall_app in Hall as [H1 H2]. apply Forall_app. split; [done|].
      by apply assign_prop_Forall.
  - intros w. unfold set_prop. destruct v; simpl; auto.
    destruct (heap w !! l) as [[props|elems extras]|] eqn:Hcell; simpl; auto;
      right; eexists _, _; split_and!; try done; by destruct w.
Qed.

Lemma safe_delete_prop v name :
  fresh_val n v → safe n (λ _, True) (delete_prop v name).
Proof.
  intros Hv.
  apply (safe_update v
           (λ o, match o with
                 | HObj props => HObj (remove_prop name props)
                 | HArr elems extras => HArr elems (remove_prop name extras)
                 end)); [done| |].
  - intros [props|elems extras]; simpl; intros Hall.
    + by apply remove_prop_Forall.
    + apply Forall_app in Hall as [H1 H2]. apply Forall_app. split; [done|].
      by apply remove_prop_Forall.
  - intros w. unfold delete_prop. destruct v; simpl; auto.
    destruct (heap w !! l) as [[props|elems extras]|] eqn:Hcell; simpl; auto;
      right; eexists _, _; split_and!; try done; by destruct w.
Qed.

End rules.

End SafeFacts.

(** ** A clone is made, and looks like its original *)

Module CloneFacts.
Import Alias Shape FrameFacts.

Lemma unvisited_insert (n l l' : nat) (memo : gmap nat nat) :
  l < n → memo !! l = None →
  size (unvisited n (<[l:=l']> memo)) < size (unvisited n memo).
Proof.
  intros Hl Hmiss. apply subset_size. unfold unvisited.
  rewrite dom_insert_L.
  assert (l ∉ dom memo) by by apply not_elem_of_dom.
  assert (l ∈ (set_seq 0 n : gset nat)) by (apply elem_of_set_seq; lia).
  set_solver.
Qed.

Lemma unvisited_mono (n : nat) (memo memo' : gmap nat nat) :
  dom memo ⊆ dom memo' →
  size (unvisited n memo') ≤ size (unvisited n memo).
Proof. intros Hsub. apply subseteq_size. unfold unvisited. set_solver. Qed.

Lemma unvisited_empty (n : nat) : size (unvisited n ∅) = n.
Proof.
  unfold unvisited. rewrite dom_empty_L, difference_empty_L.
  apply size_set_seq.
Qed.

Section total.
Context (h0 : list hobj).
Hypothesis Hwf : heap_wf h0.

Lemma clone_list_total clone fuel :
  (∀ v st,
     val_in (length h0) v → clone_inv (length h0) st → old_cells h0 st →
     size (unvisited (length h0) st.1) ≤ fuel →
     ∃ v' st', clone v st = Some (v', st') ∧ dom st.1 ⊆ dom st'.1) →
  (∀ v st v' st',
     clone v st = Some (v', st') → clone_inv (length h0) st →
     clone_inv (length h0) st' ∧ grows (length h0) st st'
     ∧ fresh_val (length h0) v') →
  ∀ vs st,
    Forall (val_in (length h0)) vs → clone_inv (length h0) st →
    old_cells h0 st → size (unvisited (length h0) st.1) ≤ fuel →
    ∃ vs' st', clone_list clone vs st = Some (vs', st')
               ∧ dom st.1 ⊆ dom st'.1.
Proof.
  intros Htotal Hinv vs. induction vs as [|v vs IH];
    intros st Hvs Hst Hold Hfuel; simpl.
  - eauto.
  - apply Forall_cons in Hvs as [Hv Hvs].
    destruct (Htotal v st Hv Hst Hold Hfuel) as (v' & st1 & Hrun & Hdom).
    rewrite Hrun.
    destruct (Hinv _ _ _ _ Hrun Hst) as (Hst1 & [Hcells _] & _).
    destruct (IH st1 Hvs Hst1) as (vs' & st2 & Hrest & Hdom2).
    + intros l Hl. rewrite Hcells by done. by apply Hold.
    + pose proof (unvisited_mono (length h0) _ _ Hdom). lia.
    + rewrite Hrest. eexists _, _. split; [done|]. set_solver.
Qed.

(** With fuel for the cells not visited yet, the clone is made. *)
Lemma baseClone_total fuel :
  ∀ v st,
    val_in (length h0) v → clone_inv (length h0) st → old_cells h0 st →
    size (unvisited (length h0) st.1) ≤ fuel →
    ∃ v' st', baseClone fuel v st = Some (v', st') ∧ dom st.1 ⊆ dom st'.1.
Proof.
  induction fuel as [|fuel IH]; intros v st Hv Hst Hold Hfuel.
  - destruct v; simpl; eauto.
    destruct (st.1 !! l) as [l'|] eqn:Hmemo; [eauto|].
    pose proof (unvisited_insert (length h0) l 0 st.1 Hv Hmemo). lia.
  - destruct v; simpl; eauto.
    destruct (st.1 !! l) as [l'|] eqn:Hmemo; [eauto|].
    simpl in Hv.
    destruct (lookup_lt_is_Some_2 h0 l Hv) as [o Ho].
    rewrite (Hold l Hv), Ho.
    pose proof (Hwf l o Ho) as Hvals.
    pose proof (unvisited_insert (length h0) l (length st.2) st.1 Hv Hmemo)
      as Hless.
    destruct o as [props|elems extras]; simpl in Hvals.
    + destruct (clone_inv_begin (length h0) st l (HObj []) Hst eq_refl)
        as [Hst1 [Hcells1 _]].
      destruct (clone_list_total (baseClone fuel) fuel IH
                  (baseClone_inv (length h0) fuel) props.*2
                  (<[l:=length st.2]> st.1, st.2 ++ [HObj []]))
        as (vs & st2 & Hrun & Hdom); try done.
      * intros l1 Hl1. rewrite Hcells1 by done. by apply Hold.
      * simpl. lia.
      * rewrite Hrun. eexists _, _. split; [done|]. simpl in *.
        rewrite dom_insert_L in Hdom. set_solver.
    + apply Forall_app in Hvals as [Hvals _].
      destruct (clone_inv_begin (length h0) st l (HArr [] []) Hst eq_refl)
        as [Hst1 [Hcells1 _]].
      destruct (clone_list_total (baseClone fuel) fuel IH
                  (baseClone_inv (length h0) fuel) elems
                  (<[l:=length st.2]> st.1, st.2 ++ [HArr [] []]))
        as (vs & st2 & Hrun & Hdom); try done.
      * intros l1 Hl1. rewrite Hcells1 by done. by apply Hold.
      * simpl. lia.
      * rewrite Hrun. eexists _, _. split; [done|]. simpl in *.
        rewrite dom_insert_L in Hdom. set_solver.
Qed.
End total.

(** [_.cloneDeep] resolves on every value of a well-formed heap. *)
Lemma cloneDeep_total v w :
  heap_wf (heap w) → val_in (length (heap w)) v →
  ∃ v' w', cloneDeep v w = (Resolved v', w').
Proof.
  intros Hwf Hv. unfold cloneDeep.
  destruct (baseClone_total (heap w) Hwf (S (length (heap w))) v (∅, heap w))
    as (v' & st' & -> & _); try done.
  - split_and!; [done|apply closed_above_length|].
    intros l l' Hl. simpl in Hl. by rewrite lookup_empty in Hl.
  - simpl. rewrite unvisited_empty. lia.
  - eauto.
Qed.

(** The clone of a primitive is the primitive. *)
Lemma baseClone_prim fuel v st v' st' :
  baseClone fuel v st = Some (v', st') → (∀ l, v ≠ VRef l) → v' = v.
Proof.
  intros Hrun Hprim. destruct v; try by destruct fuel; simpl in Hrun; simplify_eq.
  by destruct (Hprim l).
Qed.

Lemma clone_list_prims fuel vs st vs' st' :
  clone_list (baseClone fuel) vs st = Some (vs', st') →
  Forall2 (λ x x', (∀ l, x ≠ VRef l) → x' = x) vs vs'.
Proof.
  revert st vs'. induction vs as [|v vs IH]; intros st vs' Hrun; simpl in Hrun.
  - simplify_eq. constructor.
  - destruct (baseClone fuel v st) as [[v1 st1]|] eqn:Hv; [|done].
    destruct (clone_list (baseClone fuel) vs st1) as [[vs1 st2]|] eqn:Hvs;
      [|done].
    simplify_eq. constructor; [|eauto].
    intros Hprim. by eapply baseClone_prim.
Qed.

Lemma lookup_prop_zip name props vs :
  Forall2 (λ x x', (∀ l, x ≠ VRef l) → x' = x) props.*2 vs →
  lookup_prop name props = VUndef →
  lookup_prop name (zip props.*1 vs) = VUndef.
Proof.
  revert vs. induction props as [|[k v] props IH]; intros vs Hall; simpl.
  - done.
  - simpl in Hall. apply Forall2_cons_inv_l in Hall as (v' & vs' & Hv & Hall & ->).
    simpl. case_decide; [|eauto].
    intros ->. by apply Hv.
Qed.

(** The clone of an object that lacks a property lacks it too. *)
Lemma cloneDeep_prop_absent v w v' w' name :
  cloneDeep v w = (Resolved v', w') →
  prop_of (heap w) v name = VUndef →
  prop_of (heap w') v' name = VUndef.
Proof.
  unfold cloneDeep. intros Hrun.
  destruct (baseClone (S (length (heap w))) v (∅, heap w))
    as [[v1 st1]|] eqn:Hclone; [|done].
  simplify_eq. destruct v; simpl in Hclone; simplify_eq; try done.
  rewrite lookup_empty in Hclone.
  destruct (heap w !! l) as [[props|elems extras]|] eqn:Hcell; [| |done].
  - destruct (clone_list _ props.*2 _) as [[vs st2]|] eqn:Hvs; [|done].
    simplify_eq. intros Habsent. simpl in Habsent. rewrite Hcell in Habsent.
    destruct (clone_list_inv (length (heap w)) _
                (baseClone_inv (length (heap w)) _) _ _ _ _ Hvs)
      as (_ & [_ Hlen] & _).
    { split_and!; simpl.
      - rewrite length_app. lia.
      - apply closed_above_snoc; [apply closed_above_length|done].
      - intros l1 l2 Hl. apply lookup_insert_Some in Hl as [[_ <-]|[_ Hl]];
          [done|by rewrite lookup_empty in Hl]. }
    simpl in Hlen. rewrite length_app in Hlen. simpl in Hlen.
    destruct w; simpl in *.
    rewrite list_lookup_insert_eq by lia.
    eapply lookup_prop_zip; [|done]. by eapply clone_list_prims.
  - destruct (clone_list _ elems _) as [[vs st2]|] eqn:Hvs; [|done].
    simplify_eq. intros _.
    destruct (clone_list_inv (length (heap w)) _
                (baseClone_inv (length (heap w)) _) _ _ _ _ Hvs)
      as (_ & [_ Hlen] & _).
    { split_and!; simpl.
      - rewrite length_app. lia.
      - apply closed_above_snoc; [apply closed_above_length|done].
      - intros l1 l2 Hl. apply lookup_insert_Some in Hl as [[_ <-]|[_ Hl]];
          [done|by rewrite lookup_empty in Hl]. }
    simpl in Hlen. rewrite length_app in Hlen. simpl in Hlen.
    destruct w; simpl in *.
    rewrite list_lookup_insert_eq by lia. done.
Qed.

(** The clone of an object is an object. *)
Lemma cloneDeep_object l w v' w' :
  cloneDeep (VRef l) w = (Resolved v', w') →
  ∃ l', v' = VRef l' ∧ is_Some (heap w' !! l').
Proof.
  unfold cloneDeep. intros Hrun.
  destruct (baseClone (S (length (heap w))) (VRef l) (∅, heap w))
    as [[v1 st1]|] eqn:Hclone; [|done].
  simplify_eq. simpl in Hclone. rewrite lookup_empty in Hclone.
  assert (∀ vs st2 o,
            clone_list (baseClone (length (heap w))) vs
              (<[l:=length (heap w)]> ∅, heap w ++ [o]) = Some st2 →
            Forall (fresh_val (length (heap w))) (vals_of o) →
            length (heap w) < length st2.2.2) as Hlen.
  { intros vs [vs' st2] o Hvs Ho.
    destruct (clone_list_inv (length (heap w)) _
                (baseClone_inv (length (heap w)) _) _ _ _ _ Hvs)
      as (_ & [_ Hlen] & _).
    - split_and!; simpl.
      + rewrite length_app. lia.
      + apply closed_above_snoc; [apply closed_above_length|done].
      + intros l1 l2 Hl. apply lookup_insert_Some in Hl as [[_ <-]|[_ Hl]];
          [done|by rewrite lookup_empty in Hl].
    - simpl in *. rewrite length_app in Hlen. simpl in Hlen. lia. }
  destruct (heap w !! l) as [[props|elems extras]|] eqn:Hcell; [| |done].
  - destruct (clone_list _ props.*2 _) as [[vs st2]|] eqn:Hvs; [|done].
    simplify_eq. eexists. split; [done|].
    apply Hlen in Hvs; [|done]. destruct w; simpl in *.
    apply lookup_lt_is_Some. by rewrite length_insert.
  - destruct (clone_list _ elems _) as [[vs st2]|] eqn:Hvs; [|done].
    simplify_eq. eexists. split; [done|].
    apply Hlen in Hvs; [|done]. destruct w; simpl in *.
    apply lookup_lt_is_Some. by rewrite length_insert.
Qed.

Lemma cloneDeep_cell v w l' w' :
  cloneDeep v w = (Resolved (VRef l'), w') → is_Some (heap w' !! l').
Proof.
  intros Hrun. destruct v;
    try (unfold cloneDeep in Hrun; simpl in Hrun; done).
  destruct (cloneDeep_object _ _ _ _ Hrun) as (l1 & [= <-] & Hl). done.
Qed.

(** What could be seen of a value stays to be seen when the cells are
    preserved. *)
Lemma snapshot_preserved h h' :
  preserved h h' →
  ∀ fuel v t, snapshot fuel h v = Some t → snapshot fuel h' v = Some t.
Proof.
  intros Hpres fuel. induction fuel as [|fuel IH]; intros v t Hsnap.
  - by destruct v.
  - destruct v; try done. simpl in *.
    destruct (h !! l) as [o|] eqn:Hcell; [|done].
    rewrite (Hpres _ _ Hcell).
    assert (∀ (ps : list (string * val)) qs,
              mapM (λ kv : string * val, pair kv.1 <$> snapshot fuel h kv.2) ps
              = Some qs →
              mapM (λ kv : string * val, pair kv.1 <$> snapshot fuel h' kv.2) ps
              = Some qs) as Hnamed.
    { intros ps qs Hps. apply mapM_Some. apply mapM_Some in Hps.
      eapply Forall2_impl; [exact Hps|]. simpl. intros kv q Hq.
      apply fmap_Some in Hq as (t' & Ht' & ->). by rewrite (IH _ _ Ht'). }
    assert (∀ vs ts,
              mapM (snapshot fuel h) vs = Some ts →
              mapM (snapshot fuel h') vs = Some ts) as Helems.
    { intros vs ts Hvs. apply mapM_Some. apply mapM_Some in Hvs.
      eapply Forall2_impl; [exact Hvs|]. simpl. eauto. }
    destruct o as [props|elems extras].
    + apply fmap_Some in Hsnap as (qs & Hqs & ->).
      by rewrite (Hnamed _ _ Hqs).
    + destruct (mapM (snapshot fuel h) elems) as [es|] eqn:Hes; [|done].
      destruct (mapM _ extras) as [xs|] eqn:Hxs; [|done].
      simplify_eq. by rewrite (Helems _ _ Hes), (Hnamed _ _ Hxs).
Qed.

End CloneFacts.

(** ** The lookups do not touch the heap *)

Module HeapConst.
Import Alias.

Lemma hc_resolve {A} (a : A) : heap_const (resolve a).
Proof. done. Qed.

Lemma hc_reject {A} e : heap_const (@reject A e).
Proof. done. Qed.

Lemma hc_then {A B} (p : Promise A) (f : A → Promise B) :
  heap_const p → (∀ a, heap_const (f a)) → heap_const (then_ p f).
Proof.
  intros Hp Hf w. unfold then_. specialize (Hp w).
  destruct (p w) as [[a|e] w1]; simpl in *; [|done].
  by rewrite Hf.
Qed.

Lemma hc_catch {A} (p : Promise A) handler :
  heap_const p → (∀ e, heap_const (handler e)) → heap_const (catch_ p handler).
Proof.
  intros Hp Hh w. unfold catch_. specialize (Hp w).
  destruct (p w) as [[a|e] w1]; simpl in *; [done|].
  by rewrite Hh.
Qed.

Lemma hc_tap {A B} (p : Promise A) (f : A → Promise B) :
  heap_const p → (∀ a, heap_const (f a)) → heap_const (tap p f).
Proof.
  intros Hp Hf. unfold tap. apply hc_then; [done|]. intros a.
  apply hc_then; [apply Hf|]. intros _. apply hc_resolve.
Qed.

Lemma hc_map {A B} (f : A → Promise B) items :
  (∀ x, heap_const (f x)) → heap_const (map_ f items).
Proof.
  intros Hf. induction items as [|x items IH]; simpl; [done|].
  apply hc_then; [apply Hf|]. intros y.
  apply hc_then; [apply IH|]. intros ys. apply hc_resolve.
Qed.

Lemma hc_console_log entry : heap_const (console_log entry).
Proof. done. Qed.

Lemma hc_read_heap : heap_const read_heap.
Proof. done. Qed.

Lemma hc_getAsync st key : heap_const (getAsync st key).
Proof.
  intros w. unfold getAsync. destruct key as [k|]; [|done].
  by destruct (store_of st w !! k).
Qed.

Lemma hc_putAsync env st key value : heap_const (putAsync env st key value).
Proof.
  intros w. unfold putAsync. destruct key as [k|]; [|done].
  destruct (putFails env st k value); [done|]. by destruct st.
Qed.

Lemma hc_executeAPIFunction env service method query :
  heap_const (executeAPIFunction env service method query).
Proof.
  intros w. unfold executeAPIFunction. by destruct (remote env _ _).
Qed.

Lemma hc_extractResults response : heap_const (extractResults response).
Proof. unfold extractResults. by destruct (results response). Qed.

Lemma hc_extractFirstId rs : heap_const (extractFirstId rs).
Proof.
  unfold extractFirstId. destruct (rs !! 0) as [r|]; [|done].
  destruct (result_id r) as [i|]; [|done]. by case_decide.
Qed.

(** Goes through a chain of the operations above. *)
Ltac heap_const :=
  repeat first
    [ apply hc_resolve | apply hc_reject | apply hc_console_log
    | apply hc_read_heap | apply hc_getAsync | apply hc_putAsync
    | apply hc_executeAPIFunction | apply hc_extractResults
    | apply hc_extractFirstId
    | apply hc_then; [|intros ?] | apply hc_catch; [|intros ?]
    | apply hc_tap; [|intros ?] ].

Section lookups.
Context (env : Env).

Lemma getOrder_heap conditions : heap_const (getOrder env conditions).
Proof. unfold getOrder. heap_const. Qed.

Lemma getAdUnit_heap conditions : heap_const (getAdUnit env conditions).
Proof. unfold getAdUnit. heap_const. Qed.

Lemma getAdvertiser_heap conditions :
  heap_const (getAdvertiser env conditions).
Proof. unfold getAdvertiser. heap_const. Qed.

Lemma lookupCriteriaKey_heap name : heap_const (lookupCriteriaKey env name).
Proof. unfold lookupCriteriaKey, getCriteriaKey. heap_const. Qed.

Lemma lookupCriteriaValues_heap value keyId :
  heap_const (lookupCriteriaValues env value keyId).
Proof. unfold lookupCriteriaValues, getCriteriaValue. heap_const. Qed.

Lemma getCriteria_heap criteria : heap_const (getCriteria env criteria).
Proof.
  unfold getCriteria. heap_const; apply hc_map; intros pair.
  - unfold _lookupKeyInPair. heap_const.
  - unfold _lookupValueInPair. heap_const.
Qed.
End lookups.

End HeapConst.

(** ** The steps of the pipeline *)

Module PipelineFacts.
Import Alias Shape FrameFacts SafeFacts HeapConst CloneFacts.

(** Takes the next link of a chain. *)
Ltac link := eapply safe_then; [|intros ? ?].

Ltac no_heap H :=
  apply (safe_heap_const _ (λ _, True)); [apply H|done].

Section steps.
Context (env : Env) (n : nat).






Lemma safe_replacePartnerName v :
  safe n (fresh_val n) (replacePartnerName env v).
Proof.
  unfold replacePartnerName.
  link; [apply safe_cloneDeep|].
  link; [by apply safe_get_prop|].
  link; [no_heap getAdvertiser_heap|].
  link; [by apply safe_set_prop|].
  link; [by apply safe_delete_prop|].
  by apply safe_resolve.
Qed.
End steps.

(** A step that is safe from every [n] on clones its input. *)
Lemma safe_clones_input (f : val → Promise val) :
  (∀ n v, safe n (fresh_val n) (f v)) → clones_input f.
Proof.
  intros Hsafe original w.
  destruct (Hsafe (length (heap w)) original w (le_n _)
              (closed_above_length _)) as (H1 & H2 & H3 & H4).
  assert (preserved (heap w) (heap (f original w).2)) as Hpres.
  { intros l o Hl. rewrite H1; [done|]. by eapply lookup_lt_Some. }
  split_and!.
  - done.
  - intros fuel t. by apply snapshot_preserved.
  - intros result Hres. split; auto.
Qed.

End PipelineFacts.



(** ** Objects without a named reference *)

Module MissingFacts.
Import Alias Shape CloneFacts FrameFacts.

Lemma lookup_assign_eq name x props :
  lookup_prop name (assign_prop name x props) = x.
Proof.
  induction props as [|[k v] props IH]; simpl.
  - by case_decide.
  - case_decide; simpl; case_decide; try done; congruence.
Qed.

Lemma lookup_assign_ne name name' x props :
  name ≠ name' →
  lookup_prop name (assign_prop name' x props) = lookup_prop name props.
Proof.
  intros Hne. induction props as [|[k v] props IH]; simpl.
  - case_decide; [congruence|done].
  - case_decide; simpl; repeat case_decide; try done; congruence.
Qed.

Lemma lookup_remove_ne name name' props :
  name ≠ name' →
  lookup_prop name (remove_prop name' props) = lookup_prop name props.
Proof.
  intros Hne. unfold remove_prop.
  induction props as [|[k v] props IH]; simpl; [done|].
  rewrite filter_cons. simpl. repeat case_decide; simpl;
    repeat case_decide; try done; congruence.
Qed.

(** [_.cloneDeep] changes the heap and nothing else. *)
Lemma cloneDeep_world v w :
  (cloneDeep v w).2 = set_heap (heap (cloneDeep v w).2) w.
Proof.
  unfold cloneDeep. destruct (baseClone _ _ _) as [[v' st]|]; by destruct w.
Qed.

(** References that lead to cells still do in a longer heap. *)
Lemma val_in_mono n m v : val_in n v → n ≤ m → val_in m v.
Proof. destruct v; simpl; try done. lia. Qed.

Lemma heap_wf_snoc h o :
  heap_wf h → Forall (val_in (S (length h))) (vals_of o) → heap_wf (h ++ [o]).
Proof.
  intros Hwf Ho l o' Hl. rewrite length_app. simpl.
  replace (length h + 1) with (S (length h)) by lia.
  apply lookup_app_Some in Hl as [Hl|[_ Hl]].
  - eapply Forall_impl; [by eapply Hwf|].
    intros v Hv. eapply val_in_mono; [done|lia].
  - apply list_lookup_singleton_Some in Hl as [_ <-]. done.
Qed.

Lemma heap_wf_insert h l o :
  heap_wf h → Forall (val_in (length h)) (vals_of o) → heap_wf (<[l:=o]> h).
Proof.
  intros Hwf Ho l' o' Hl'. rewrite length_insert.
  destruct (decide (l = l')) as [<-|Hne].
  - destruct (decide (l < length h)) as [Hlt|Hge].
    + rewrite list_lookup_insert_eq in Hl' by done. by simplify_eq.
    + rewrite list_insert_ge in Hl' by lia. eauto.
  - rewrite list_lookup_insert_ne in Hl' by done. eauto.
Qed.

(** A clone in progress keeps the heap well formed: its cells and the
    clones it has recorded refer to cells. *)
Lemma clone_list_wf clone :
  (∀ v st v' st',
     clone v st = Some (v', st') →
     heap_wf st.2 → (∀ l l', st.1 !! l = Some l' → l' < length st.2) →
     (heap_wf st'.2 ∧ ∀ l l', st'.1 !! l = Some l' → l' < length st'.2)
     ∧ length st.2 ≤ length st'.2 ∧ val_in (length st'.2) v') →
  ∀ vs st vs' st',
    clone_list clone vs st = Some (vs', st') →
    heap_wf st.2 → (∀ l l', st.1 !! l = Some l' → l' < length st.2) →
    (heap_wf st'.2 ∧ ∀ l l', st'.1 !! l = Some l' → l' < length st'.2)
    ∧ length st.2 ≤ length st'.2 ∧ Forall (val_in (length st'.2)) vs'.
Proof.
  intros Hclone vs. induction vs as [|v vs IH]; intros st vs' st' Hrun Hwf Hmemo;
    simpl in Hrun.
  - simplify_eq. split_and!; done.
  - destruct (clone v st) as [[v1 st1]|] eqn:Hv; [|done].
    destruct (clone_list clone vs st1) as [[vs1 st2]|] eqn:Hvs; [|done].
    simplify_eq.
    destruct (Hclone _ _ _ _ Hv Hwf Hmemo) as ([Hwf1 Hmemo1] & Hlen1 & Hv1).
    destruct (IH _ _ _ Hvs Hwf1 Hmemo1) as ([Hwf2 Hmemo2] & Hlen2 & Hvs2).
    split_and!; [done|done|lia|].
    constructor; [|done]. eapply val_in_mono; [done|lia].
Qed.

Lemma baseClone_wf fuel :
  ∀ v st v' st',
    baseClone fuel v st = Some (v', st') →
    heap_wf st.2 → (∀ l l', st.1 !! l = Some l' → l' < length st.2) →
    (heap_wf st'.2 ∧ ∀ l l', st'.1 !! l = Some l' → l' < length st'.2)
    ∧ length st.2 ≤ length st'.2 ∧ val_in (length st'.2) v'.
Proof.
  induction fuel as [|fuel IH]; intros v st v' st' Hrun Hwf Hmemo.
  - destruct v; simpl in Hrun; simplify_eq; try (split_and!; done).
    destruct (st.1 !! l) as [l'|] eqn:Hl; [|done]. simplify_eq.
    split_and!; try done. simpl. eauto.
  - destruct v; simpl in Hrun; simplify_eq; try (split_and!; done).
    destruct (st.1 !! l) as [l'|] eqn:Hl.
    { simplify_eq. split_and!; try done. simpl. eauto. }
    assert (∀ o, vals_of o = [] →
              heap_wf (st.2 ++ [o])
              ∧ ∀ l1 l2, <[l:=length st.2]> st.1 !! l1 = Some l2 →
                         l2 < length (st.2 ++ [o])) as Hbegin.
    { intros o Ho. split.
      - apply heap_wf_snoc; [done|]. by rewrite Ho.
      - intros l1 l2 Hl12. rewrite length_app. simpl.
        apply lookup_insert_Some in Hl12 as [[_ <-]|[_ Hl12]]; [lia|].
        apply Hmemo in Hl12. lia. }
    destruct (st.2 !! l) as [[props|elems extras]|] eqn:Hcell; [| |done].
    + destruct (clone_list (baseClone fuel) props.*2 _)
        as [[vs st2]|] eqn:Hvs; [|done].
      simplify_eq.
      destruct (Hbegin (HObj []) eq_refl) as [Hwf1 Hmemo1].
      destruct (clone_list_wf _ IH _ _ _ _ Hvs Hwf1 Hmemo1)
        as ([Hwf2 Hmemo2] & Hlen2 & Hvs2).
      simpl in Hlen2. rewrite length_app in Hlen2. simpl in Hlen2.
      simpl. rewrite length_insert. split_and!; [| |lia|lia].
      * apply heap_wf_insert; [done|]. simpl. by apply zip_snd_Forall.
      * done.
    + destruct (clone_list (baseClone fuel) elems _)
        as [[vs st2]|] eqn:Hvs; [|done].
      simplify_eq.
      destruct (Hbegin (HArr [] []) eq_refl) as [Hwf1 Hmemo1].
      destruct (clone_list_wf _ IH _ _ _ _ Hvs Hwf1 Hmemo1)
        as ([Hwf2 Hmemo2] & Hlen2 & Hvs2).
      simpl in Hlen2. rewrite length_app in Hlen2. simpl in Hlen2.
      simpl. rewrite length_insert. split_and!; [| |lia|lia].
      * apply heap_wf_insert; [done|]. simpl. by rewrite app_nil_r.
      * done.
Qed.

(** [_.cloneDeep] leaves a well-formed heap well formed. *)
Lemma cloneDeep_wf v w v' w' :
  heap_wf (heap w) → cloneDeep v w = (Resolved v', w') →
  heap_wf (heap w') ∧ val_in (length (heap w')) v'.
Proof.
  intros Hwf. unfold cloneDeep.
  destruct (baseClone _ v (∅, heap w)) as [[v1 st1]|] eqn:Hclone; [|done].
  intros Hrun. simplify_eq.
  destruct (baseClone_wf _ _ _ _ _ Hclone Hwf) as ([Hwf1 _] & _ & Hv).
  { intros l l' Hl. simpl in Hl. by rewrite lookup_empty in Hl. }
  by destruct w.
Qed.

(** The clone of a plain object is a plain object. *)
Lemma cloneDeep_obj l props w v' w' :
  heap w !! l = Some (HObj props) →
  cloneDeep (VRef l) w = (Resolved v', w') →
  ∃ l' props', v' = VRef l' ∧ heap w' !! l' = Some (HObj props').
Proof.
  intros Hcell. unfold cloneDeep. intros Hrun.
  destruct (baseClone (S (length (heap w))) (VRef l) (∅, heap w))
    as [[v1 st1]|] eqn:Hclone; [|done].
  simplify_eq. simpl in Hclone. rewrite lookup_empty, Hcell in Hclone.
  destruct (clone_list _ props.*2 _) as [[vs st2]|] eqn:Hvs; [|done].
  simplify_eq.
  destruct (clone_list_inv (length (heap w)) _
              (baseClone_inv (length (heap w)) _) _ _ _ _ Hvs)
    as (_ & [_ Hlen] & _).
  { split_and!; simpl.
    - rewrite length_app. lia.
    - apply closed_above_snoc; [apply closed_above_length|done].
    - intros l1 l2 Hl. apply lookup_insert_Some in Hl as [[_ <-]|[_ Hl]];
        [done|by rewrite lookup_empty in Hl]. }
  simpl in Hlen. rewrite length_app in Hlen. simpl in Hlen.
  eexists _, _. split; [done|]. destruct w; simpl in *.
  by rewrite list_lookup_insert_eq by lia.
Qed.

Section missing.
Context (env : Env).

(** The statement for conditions whose only value is [undefined]. *)
Lemma makeQuery_undefined h fields :
  _makeQuery env h {[ "name" := VUndef ]} fields = empty_filter.
Proof.
  unfold _makeQuery, empty_filter. f_equal.
  assert (∀ acc, foldl (query_step env h {[ "name" := VUndef ]}) acc fields
                 = acc) as ->; [|done].
  induction fields as [|field fields IH]; intros acc; simpl; [done|].
  unfold query_step at 2.
  assert (truthy (cond {[ "name" := VUndef ]} field) = false) as ->.
  { unfold cond. destruct (decide (field = "name")) as [->|Hne].
    - by rewrite lookup_singleton_eq.
    - by rewrite lookup_singleton_ne. }
  rewrite IH. apply StringFacts.app_empty_r.
Qed.

(** A lookup of the order without a name is rejected: the store takes
    no [undefined] key, neither to read nor to write. *)
Lemma getOrder_undefined w :
  ∃ e w', getOrder env {[ "name" := VUndef ]} w = (Rejected e, w')
          ∧ remoteCalls w'
            = remoteCalls w
                ++ [{| service := "OrderService";
                       method := "getOrdersByStatement";
                       input := empty_filter |}]
          ∧ ∀ response r rest i,
              remote env (remoteCalls w)
                {| service := "OrderService";
                   method := "getOrdersByStatement";
                   input := empty_filter |} = ApiResolve response →
              results response = Some (r :: rest) →
              result_id r = Some i → i ≠ EmptyString →
              e = WriteError orderStore.
Proof.
  unfold getOrder. unfold then_ at 1. unfold read_heap. simpl.
  rewrite makeQuery_undefined.
  assert (cond {[ "name" := VUndef ]} "name" = VUndef) as ->.
  { unfold cond. by rewrite lookup_singleton_eq. }
  unchain.
  destruct (remote env _ _) as [response|reason] eqn:Hremote; simpl.
  - destruct (results response) as [[|r rest]|] eqn:Hrs; simpl.
    + eexists _, _; split_and!; try done.
      intros ???? [= <-]; congruence.
    + destruct (result_id r) as [i|] eqn:Hid; simpl.
      * case_decide as Hi; simpl.
        -- eexists _, _; split_and!; try done.
           intros ???? [= <-]; congruence.
        -- eexists _, _; split_and!; try done.
      * eexists _, _; split_and!; try done.
        intros ???? [= <-]; congruence.
    + eexists _, _; split_and!; try done.
      intros ???? [= <-]; congruence.
  - eexists _, _; split_and!; try done.
Qed.

(** Without [orderName] the step is rejected. *)
Lemma replaceOrderName_missing item w :
  prop_of (heap w) item "orderName" = VUndef →
  ∃ e w', replaceOrderName env item w = (Rejected e, w').
Proof.
  intros Habsent. unfold replaceOrderName. unfold then_ at 1.
  destruct (cloneDeep item w) as [[item'|e] wc] eqn:Hclone; [|eauto].
  pose proof (cloneDeep_prop_absent _ _ _ _ "orderName" Hclone Habsent)
    as Habsent'.
  unfold then_ at 1.
  assert (get_prop item' "orderName" wc = (Resolved VUndef, wc)
          ∨ ∃ e, get_prop item' "orderName" wc = (Rejected e, wc))
    as [->| [e ->]]; [|idtac|eauto].
  { unfold get_prop. destruct item'; simpl in *; eauto.
    destruct (heap wc !! l) as [[?|??]|]; rewrite ?Habsent'; eauto. }
  unfold then_ at 1.
  destruct (getOrder_undefined wc) as (e & w' & -> & _). eauto.
Qed.

(** [replaceStartDate] adds no property but [startDateTime]. *)
Lemma replaceStartDate_keeps_absent item w item' w' name :
  replaceStartDate env item w = (Resolved item', w') →
  name ≠ "startDateTime" →
  prop_of (heap w) item name = VUndef →
  prop_of (heap w') item' name = VUndef.
Proof.
  intros Hrun Hname Habsent. unfold replaceStartDate in Hrun.
  unfold then_ at 1 in Hrun.
  destruct (cloneDeep item w) as [[lineItem|e] wc] eqn:Hclone; [|done].
  pose proof (cloneDeep_prop_absent _ _ _ _ name Hclone Habsent) as Habsent'.
  destruct lineItem as [| | | | | |l];
    try (unfold then_, get_prop, read_heap, alloc, set_prop, resolve in Hrun;
         simpl in Hrun; done).
  destruct (cloneDeep_cell _ _ _ _ Hclone) as [o Ho].
  simpl in Habsent'. rewrite Ho in Habsent'.
  pose proof (lookup_lt_Some _ _ _ Ho) as Hlt.
  unfold then_, get_prop, read_heap, alloc, set_prop, delete_prop, resolve
    in Hrun.
  rewrite Ho in Hrun. destruct wc as [? ? ? ? ? ? ? h]. simpl in *.
  assert (∀ o1 o2, ((h ++ [o1]) ++ [o2]) !! l = Some o) as Hl.
  { intros o1 o2. rewrite !lookup_app_l; [done|lia|].
    rewrite length_app. lia. }
  destruct o as [props|elems extras]; simpl in Hrun;
    rewrite Hl in Hrun; simpl in Hrun;
    rewrite list_lookup_insert_eq in Hrun
      by (rewrite !length_app; simpl; lia);
    simpl in Hrun; simplify_eq; simpl;
    rewrite list_lookup_insert_eq
      by (rewrite length_insert, !length_app; simpl; lia).
  - destruct (decide (name = "date")) as [->|Hdate].
    + clear. induction (assign_prop _ _ _) as [|[k v] ps IH]; [done|].
      unfold remove_prop in *. rewrite filter_cons. simpl.
      case_decide; simpl; [case_decide; done|done].
    + by rewrite lookup_remove_ne, lookup_assign_ne.
  - destruct (decide (name = "date")) as [->|Hdate].
    + clear. induction (assign_prop _ _ _) as [|[k v] ps IH]; [done|].
      unfold remove_prop in *. rewrite filter_cons. simpl.
      case_decide; simpl; [case_decide; done|done].
    + by rewrite lookup_remove_ne, lookup_assign_ne.
Qed.

Lemma prepareLineItem_missing item w :
  prop_of (heap w) item "orderName" = VUndef →
  ∃ e w', prepareLineItem env item w = (Rejected e, w').
Proof.
  intros Habsent. unfold prepareLineItem.
  unfold then_ at 1. unfold console_log at 1.
  unfold then_ at 1.
  destruct (replaceStartDate env item _) as [[item1|e] w1] eqn:Hdate; [|eauto].
  apply (replaceStartDate_keeps_absent _ _ _ _ "orderName") in Hdate;
    [|done|done].
  unfold then_ at 1.
  destruct (replaceOrderName_missing item1 w1 Hdate) as (e & w2 & ->).
  eauto.
Qed.

(** The lookup of an order without a name asks the remote platform
    with the empty filter and is rejected with what comes of it. *)
Lemma getOrder_unnamed w :
  ∃ w', getOrder env {[ "name" := VUndef ]} w
        = (Rejected (unnamed_order_failure
                       (remote env (remoteCalls w) unnamed_order_call)), w')
        ∧ remoteCalls w' = remoteCalls w ++ [unnamed_order_call].
Proof.
  unfold getOrder. unfold then_ at 1. unfold read_heap. simpl.
  rewrite makeQuery_undefined.
  assert (cond {[ "name" := VUndef ]} "name" = VUndef) as ->.
  { unfold cond. by rewrite lookup_singleton_eq. }
  unchain. unfold unnamed_order_failure, unnamed_order_call.
  destruct (remote env _ _) as [response|reason] eqn:Hremote; simpl.
  - destruct (results response) as [[|r rest]|] eqn:Hrs; simpl.
    + by eexists.
    + destruct (result_id r) as [i|] eqn:Hid; simpl.
      * case_decide as Hi; simpl; by eexists.
      * by eexists.
    + by eexists.
  - by eexists.
Qed.

(** The same of the step, on a line item that is an object of a
    well-formed heap. *)
Lemma replaceOrderName_unnamed l props w :
  heap_wf (heap w) → heap w !! l = Some (HObj props) →
  lookup_prop "orderName" props = VUndef →
  ∃ w', replaceOrderName env (VRef l) w
        = (Rejected (unnamed_order_failure
                       (remote env (remoteCalls w) unnamed_order_call)), w')
        ∧ remoteCalls w' = remoteCalls w ++ [unnamed_order_call].
Proof.
  intros Hwf Hcell Habsent.
  destruct (cloneDeep_total (VRef l) w Hwf) as (item' & wc & Hclone).
  { simpl. by eapply lookup_lt_Some. }
  pose proof (cloneDeep_prop_absent _ _ _ _ "orderName" Hclone) as Habsent'.
  simpl in Habsent'. rewrite Hcell in Habsent'. specialize (Habsent' Habsent).
  destruct (cloneDeep_obj _ _ _ _ _ Hcell Hclone) as (l' & props' & -> & Hcell').
  pose proof (cloneDeep_world (VRef l) w) as Hworld.
  rewrite Hclone in Hworld. simpl in Hworld.
  assert (remoteCalls wc = remoteCalls w) as Hcalls
    by (rewrite Hworld; by destruct w).
  unfold replaceOrderName. unfold then_ at 1. rewrite Hclone.
  unfold then_ at 1. unfold get_prop at 1. rewrite Hcell'.
  simpl in Habsent'. rewrite Hcell' in Habsent'. rewrite Habsent'.
  unfold then_ at 1.
  destruct (getOrder_unnamed wc) as (w' & -> & Hcalls').
  exists w'. by rewrite <- Hcalls.
Qed.

(** [replaceStartDate] makes of an object of a well-formed heap an
    object of a well-formed heap, and asks the remote platform
    nothing. *)
Lemma replaceStartDate_object l props w :
  heap_wf (heap w) → heap w !! l = Some (HObj props) →
  ∃ l' props' w',
    replaceStartDate env (VRef l) w = (Resolved (VRef l'), w')
    ∧ heap_wf (heap w') ∧ heap w' !! l' = Some (HObj props')
    ∧ remoteCalls w' = remoteCalls w.
Proof.
  intros Hwf Hcell.
  destruct (cloneDeep_total (VRef l) w Hwf) as (item & wc & Hclone).
  { simpl. by eapply lookup_lt_Some. }
  destruct (cloneDeep_obj _ _ _ _ _ Hcell Hclone) as (l' & props' & -> & Hcell').
  destruct (cloneDeep_wf _ _ _ _ Hwf Hclone) as [Hwfc _].
  pose proof (cloneDeep_world (VRef l) w) as Hworld.
  rewrite Hclone in Hworld. simpl in Hworld.
  assert (remoteCalls wc = remoteCalls w) as Hcalls
    by (rewrite Hworld; by destruct w).
  pose proof (lookup_lt_Some _ _ _ Hcell') as Hlt.
  exists l'. unfold replaceStartDate. unfold then_ at 1. rewrite Hclone.
  unfold then_, get_prop, read_heap, alloc, set_prop, delete_prop, resolve.
  rewrite Hcell'. cbn [fst snd].
  destruct wc as [k1 k2 k3 k4 k5 calls logs h]. cbn [heap set_heap] in *.
  simpl in Hcalls.
  rewrite !lookup_app_l by (rewrite ?length_app; simpl; lia).
  rewrite Hcell'. cbn [heap set_heap].
  rewrite list_lookup_insert_eq by (rewrite !length_app; simpl; lia).
  cbn [heap set_heap].
  eexists _, _. split; [reflexivity|]. cbn [heap set_heap].
  rewrite list_insert_insert_eq.
  split_and!; [|by rewrite list_lookup_insert_eq
                    by (rewrite !length_app; simpl; lia)|done].
  apply heap_wf_insert.
  - apply heap_wf_snoc; [apply heap_wf_snoc; [done|]|].
    + simpl. repeat constructor.
    + rewrite length_app. simpl.
      repeat constructor; simpl; try lia; unfold num_to_val; by case_match.
  - rewrite !length_app. simpl.
    apply remove_prop_Forall, assign_prop_Forall; [simpl; lia|].
    pose proof (Hwfc l' _ Hcell') as Hvals. simpl in Hvals.
    eapply Forall_impl; [exact Hvals|].
    intros v Hv. eapply val_in_mono; [done|lia].
Qed.

(** The whole preparation, on such a line item. *)
Lemma prepareLineItem_unnamed l props w :
  heap_wf (heap w) → heap w !! l = Some (HObj props) →
  lookup_prop "orderName" props = VUndef →
  ∃ w', prepareLineItem env (VRef l) w
        = (Rejected (unnamed_order_failure
                       (remote env (remoteCalls w) unnamed_order_call)), w')
        ∧ remoteCalls w' = remoteCalls w ++ [unnamed_order_call].
Proof.
  intros Hwf Hcell Habsent. unfold prepareLineItem.
  unfold then_ at 1. unfold console_log at 1. cbn [fst snd].
  set (w0 := set_console _ w).
  assert (heap w0 = heap w ∧ remoteCalls w0 = remoteCalls w) as [Hh0 Hc0]
    by (by destruct w).
  destruct (replaceStartDate_object l props w0) as
    (l1 & props1 & w1 & Hdate & Hwf1 & Hcell1 & Hcalls1);
    [by rewrite Hh0|by rewrite Hh0|].
  unfold then_ at 1. rewrite Hdate.
  pose proof (replaceStartDate_keeps_absent _ _ _ _ "orderName" Hdate
                ltac:(done)) as Hkeep.
  simpl in Hkeep. rewrite ?Hh0 in Hkeep. rewrite Hcell, Hcell1 in Hkeep.
  specialize (Hkeep Habsent).
  destruct (replaceOrderName_unnamed l1 props1 w1 Hwf1 Hcell1 Hkeep)
    as (w' & Hrun & Hcalls').
  unfold then_ at 1. rewrite Hrun.
  exists w'. split; [by rewrite Hcalls1, Hc0|].
  by rewrite Hcalls', Hcalls1, Hc0.
Qed.

(** Without [partner] the order or creative takes the first id the
    remote platform gives for the empty filter. *)
Lemma replacePartnerName_missing l props w response r rest i :
  heap_wf (heap w) →
  heap w !! l = Some (HObj props) →
  lookup_prop "partner" props = VUndef →
  remote env (remoteCalls w)
    {| service := "CompanyService";
       method := "getCompaniesByStatement";
       input := empty_filter |} = ApiResolve response →
  results response = Some (r :: rest) → result_id r = Some i → i ≠ EmptyString →
  ∃ item' w',
    replacePartnerName env (VRef l) w = (Resolved item', w')
    ∧ prop_of (heap w') item' "advertiserId" = VStr i
    ∧ remoteCalls w'
      = remoteCalls w
          ++ [{| service := "CompanyService";
                 method := "getCompaniesByStatement";
                 input := empty_filter |}].
Proof.
  intros Hwf Hcell Habsent Hremote Hrs Hid Hne.
  destruct (cloneDeep_total (VRef l) w Hwf) as (item' & wc & Hclone).
  { simpl. by eapply lookup_lt_Some. }
  pose proof (cloneDeep_prop_absent _ _ _ _ "partner" Hclone) as Habsent'.
  simpl in Habsent'. rewrite Hcell in Habsent'. specialize (Habsent' Habsent).
  destruct (cloneDeep_object _ _ _ _ Hclone) as (l' & -> & [o Ho]).
  pose proof (cloneDeep_world (VRef l) w) as Hworld.
  rewrite Hclone in Hworld. simpl in Hworld.
  assert (remoteCalls wc = remoteCalls w) as Hcalls
    by (rewrite Hworld; by destruct w).
  pose proof (lookup_lt_Some _ _ _ Ho) as Hlt.
  unfold replacePartnerName. unfold then_ at 1. rewrite Hclone.
  unfold getAdvertiser.
  unfold then_, get_prop, read_heap, set_prop, delete_prop, console_log,
    executeAPIFunction, extractResults, extractFirstId, resolve, reject.
  simpl in Habsent'. rewrite Ho in *.
  destruct o as [ps|elems extras]; rewrite Habsent', makeQuery_undefined;
    simpl; rewrite Hcalls, Hremote, Hrs; simpl; rewrite Hid;
    (case_decide; [done|]); simpl; rewrite Ho; simpl;
    rewrite list_lookup_insert_eq by done; simpl;
    eexists _, _; (split; [done|]); simpl;
    rewrite list_lookup_insert_eq by (by rewrite length_insert);
    (split; [|done]);
    by rewrite lookup_remove_ne, lookup_assign_eq.
Qed.
End missing.

End MissingFacts.

(** C8, as first stated: an object without a named reference makes
    [prepare] fail.  It does not: the order of the scenario that has no
    [partner] is prepared, with the id of the first company of the remote
    platform, found with the empty filter. *)
Lemma order_without_partner_is_prepared :
  Shape.prop_of Scenario.order_heap (VRef 1) "partner" = VUndef
  ∧ Runs.prepared_order.1 = Resolved (VRef 2)
  ∧ Shape.prop_of (heap Runs.prepared_order.2) (VRef 2) "advertiserId"
    = VStr "4409"
  ∧ remoteCalls Runs.prepared_order.2
    = [{| service := "CompanyService"; method := "getCompaniesByStatement";
          input := empty_filter |}].
Proof. by vm_compute. Qed.

(** C8, amended.  [prepare] does not check that a named reference is
    present; the lookup is made with the empty filter.  An order or creative
    without [partner], in a well-formed heap, is prepared whenever the
    remote platform answers the empty filter with a first result of
    non-empty id, and gets that id as [advertiserId].  A line item without
    [orderName] is never prepared: [replaceOrderName] and [prepareLineItem]
    are rejected.  For a line item that is an object of a well-formed heap
    they are rejected by the failure of the lookup of the order, which asks
    the remote platform once, with the empty filter: with the error of the
    remote platform, with the error of a missing result or id, or, an id
    having come back, with the refusal of the order store to take the
    [undefined] key; no error names the missing property. *)
Theorem missing_reference_is_not_checked (env : Env) (w : World) (item : val) :
  (∀ l props response r rest i,
     item = VRef l →
     Shape.heap_wf (heap w) →
     heap w !! l = Some (HObj props) →
     lookup_prop "partner" props = VUndef →
     remote env (remoteCalls w)
       {| service := "CompanyService"; method := "getCompaniesByStatement";
          input := empty_filter |} = ApiResolve response →
     results response = Some (r :: rest) → result_id r = Some i → i ≠ EmptyString →
     ∃ item' w',
       prepareOrder env item w = (Resolved item', w')
       ∧ prepareCreative env item w = (Resolved item', w')
       ∧ Shape.prop_of (heap w') item' "advertiserId" = VStr i
       ∧ remoteCalls w'
         = remoteCalls w
             ++ [{| service := "CompanyService";
                    method := "getCompaniesByStatement";
                    input := empty_filter |}])
  ∧ (Shape.prop_of (heap w) item "orderName" = VUndef →
     (∃ e w', replaceOrderName env item w = (Rejected e, w'))
     ∧ (∃ e w', prepareLineItem env item w = (Rejected e, w')))
  ∧ (∀ l props,
       item = VRef l →
       Shape.heap_wf (heap w) →
       heap w !! l = Some (HObj props) →
       lookup_prop "orderName" props = VUndef →
       (∃ w', replaceOrderName env item w
              = (Rejected (unnamed_order_failure
                             (remote env (remoteCalls w) unnamed_order_call)),
                 w')
              ∧ remoteCalls w' = remoteCalls w ++ [unnamed_order_call])
       ∧ (∃ w', prepareLineItem env item w
                = (Rejected (unnamed_order_failure
                               (remote env (remoteCalls w) unnamed_order_call)),
                   w')
                ∧ remoteCalls w' = remoteCalls w ++ [unnamed_order_call])).
Proof.
  split_and!.
  - intros l props response r rest i -> Hwf Hcell Habsent Hremote Hrs Hid Hne.
    destruct (MissingFacts.replacePartnerName_missing env l props w response
                r rest i Hwf Hcell Habsent Hremote Hrs Hid Hne)
      as (item' & w' & Hrun & Hadv & Hcalls).
    exists item', w'. unfold prepareOrder, prepareCreative. by split_and!.
  - intros Habsent. split.
    + by apply MissingFacts.replaceOrderName_missing.
    + by apply MissingFacts.prepareLineItem_missing.
  - intros l props -> Hwf Hcell Habsent. split.
    + by eapply MissingFacts.replaceOrderName_unnamed.
    + by eapply MissingFacts.prepareLineItem_unnamed.
Qed.

Lemma missing_reference_is_not_checked_witness :
  (∃ item' w',
     prepareOrder Scenario.mock_env (VRef 1) Scenario.order_world
     = (Resolved item', w')
     ∧ prepareCreative Scenario.mock_env (VRef 1) Scenario.order_world
       = (Resolved item', w')
     ∧ Shape.prop_of (heap w') item' "advertiserId" = VStr "4409"
     ∧ remoteCalls w'
       = remoteCalls Scenario.order_world
           ++ [{| service := "CompanyService";
                  method := "getCompaniesByStatement";
                  input := empty_filter |}])
  ∧ (∃ e w',
       prepareLineItem Scenario.mock_env (VRef 0)
         (set_heap Scenario.lineItem_no_order_heap empty_world)
       = (Rejected e, w'))
  ∧ (∃ w',
       replaceOrderName Scenario.mock_env (VRef 0)
         (set_heap Scenario.lineItem_no_order_heap empty_world)
       = (Rejected (WriteError orderStore), w')
       ∧ remoteCalls w' = [unnamed_order_call])
  ∧ (∃ w',
       prepareLineItem Scenario.mock_env (VRef 0)
         (set_heap Scenario.lineItem_no_order_heap empty_world)
       = (Rejected (WriteError orderStore), w')
       ∧ remoteCalls w' = [unnamed_order_call]).
Proof.
  split; [|split].
  - refine (proj1 (missing_reference_is_not_checked Scenario.mock_env
                     Scenario.order_world (VRef 1))
              1 _ {| results := Some [ {| result_id := Some "4409" |};
                                       {| result_id := Some "4410" |} ] |}
              {| result_id := Some "4409" |} [ {| result_id := Some "4410" |} ]
              "4409" eq_refl _ eq_refl eq_refl eq_refl eq_refl eq_refl _);
      [|done].
    intros l o Hl.
    destruct l as [|[|l]]; simpl in Hl; simplify_eq; simpl;
      repeat constructor.
  - refine (proj2 (proj1 (proj2 (missing_reference_is_not_checked
                                   Scenario.mock_env
                                   (set_heap Scenario.lineItem_no_order_heap
                                      empty_world)
                                   (VRef 0))) _)).
    by vm_compute.
  - refine (proj2 (proj2 (missing_reference_is_not_checked Scenario.mock_env
                            (set_heap Scenario.lineItem_no_order_heap empty_world)
                            (VRef 0)))
              0 _ eq_refl _ eq_refl eq_refl).
    intros l o Hl.
    do 11 (destruct l as [|l]; [simpl in Hl; simplify_eq; simpl;
                                repeat constructor|]).
    done.
Defined.

(** ** The formatter *)

Module FormatterFacts.
Import Formatter StringFacts.

Lemma length_zeros n : String.length (zeros n) = n.
Proof. induction n as [|n IH]; [done|]. cbn. by rewrite IH. Qed.

Lemma zeros_add a b : zeros (a + b) = zeros a +:+ zeros b.
Proof.
  induction a as [|a IH]; [done|].
  cbn [zeros Nat.add]. by rewrite app_cons, IH.
Qed.

Lemma length_substring n m s :
  String.length (String.substring n m s) = Nat.min m (String.length s - n).
Proof.
  revert n m. induction s as [|c s IH]; intros [|n] [|m];
    cbn [String.substring String.length]; rewrite ?IH; lia.
Qed.

Lemma length_nil s : String.length s = 0 → s = EmptyString.
Proof. by destruct s. Qed.

(** Two texts with endings of one length are equal part by part. *)
Lemma app_inj_ending s1 s2 t1 t2 :
  String.length t1 = String.length t2 →
  s1 +:+ t1 = s2 +:+ t2 → s1 = s2 ∧ t1 = t2.
Proof.
  intros Hlen. revert s2.
  induction s1 as [|c s1 IH]; intros [|c' s2] Heq.
  - done.
  - exfalso. apply (f_equal String.length) in Heq.
    rewrite length_app in Heq. cbn in Heq.
    rewrite length_app in Heq. cbn in Heq. lia.
  - exfalso. apply (f_equal String.length) in Heq.
    rewrite length_app in Heq. cbn in Heq.
    rewrite length_app in Heq. cbn in Heq. lia.
  - rewrite !app_cons in Heq. injection Heq as -> Heq.
    destruct (IH _ Heq) as [-> ->]. done.
Qed.

Lemma pad_from numString size :
  let s := "000000000" +:+ remove_first_dot numString in
  pad numString size
  = let from := (if decide (Z.of_nat (String.length s) - size < 0)%Z
                 then Z.max (Z.of_nat (String.length s)
                             + (Z.of_nat (String.length s) - size)) 0
                 else Z.min (Z.of_nat (String.length s) - size)
                        (Z.of_nat (String.length s))) in
    String.substring (Z.to_nat from) (String.length s - Z.to_nat from) s.
Proof. reflexivity. Qed.

(** An integer up to 2^53 in size is a double; the double nearest to a
    larger one is as large, on the same side of zero. *)
Lemma to_double_small z : (Z.abs z ≤ 2 ^ 53)%Z → to_double z = z.
Proof. intros Hz. unfold to_double. by rewrite decide_True. Qed.

Lemma to_double_large z :
  (2 ^ 53 < Z.abs z)%Z →
  (2 ^ 53 ≤ Z.abs (to_double z))%Z ∧ Z.sgn (to_double z) = Z.sgn z.
Proof.
  intros Hz. unfold to_double. rewrite decide_False by lia.
  set (a := Z.abs z) in *.
  assert (53 ≤ Z.log2 a)%Z as Hlog.
  { change 53%Z with (Z.log2 (2 ^ 53)). apply Z.log2_le_mono. lia. }
  destruct (Z.log2_spec a ltac:(lia)) as [Hlow _].
  set (ulp := (2 ^ (Z.log2 a - 52))%Z).
  assert (0 < ulp)%Z as Hulp by (apply Z.pow_pos_nonneg; lia).
  assert (2 ^ Z.log2 a = 2 ^ 52 * ulp)%Z as Hsplit.
  { unfold ulp. rewrite <- Z.pow_add_r by lia. f_equal. lia. }
  assert (2 ^ 52 ≤ a / ulp)%Z as Hq.
  { apply Z.div_le_lower_bound; [done|]. lia. }
  assert (2 ^ 53 ≤ 2 ^ 52 * ulp)%Z as Hbig.
  { rewrite <- Hsplit. apply Z.pow_le_mono_r; lia. }
  match goal with
  | |- context [(Z.sgn z * (?q * ulp))%Z] => set (q' := q)
  end.
  assert (a / ulp ≤ q')%Z as Hq'.
  { unfold q'. repeat case_decide; try lia. destruct (Z.even _); lia. }
  assert (2 ^ 53 ≤ q' * ulp)%Z as Hres by nia.
  unfold a in Hz. destruct z as [|z|z]; [lia| |].
  - change (Z.sgn (Z.pos z)) with 1%Z. rewrite Z.mul_1_l. split; lia.
  - change (Z.sgn (Z.neg z)) with (-1)%Z. split; lia.
Qed.

(** The half above an integer up to 2^52 in size. *)
Lemma toFixed2_half_exact i :
  (- 2 ^ 52 ≤ i < 2 ^ 52)%Z →
  toFixed2_half i
  = if decide (0 ≤ i)%Z then pretty i +:+ ".50"
    else "-" +:+ pretty (- i - 1)%Z +:+ ".50".
Proof. intros Hi. unfold toFixed2_half. rewrite decide_True; [done|lia]. Qed.

(** The rounds of the loop, one after the other, as long as the bounds
    are below 2^53 in size and the array can take two price points a
    round: the loop ends. *)
Lemma price_loop_bind fuel i end_ points :
  (- 2 ^ 53 ≤ i)%Z → (end_ < 2 ^ 53)%Z →
  Z.of_nat fuel = Z.max 0 (end_ - i + 1) →
  (Z.of_nat (length points) + 2 * Z.of_nat fuel < 2 ^ 32)%Z →
  price_loop fuel i end_ points
  = Some (points ++ (seqZ i (Z.of_nat fuel) ≫= points_at)).
Proof.
  revert i points.
  induction fuel as [|fuel IH]; intros i points Hi Hend Hfuel Hroom.
  - cbn [price_loop]. rewrite decide_False by lia.
    cbn. by rewrite app_nil_r.
  - cbn [price_loop].
    rewrite decide_True by lia.
    rewrite seqZ_cons by lia. rewrite bind_cons.
    replace (Z.pred (Z.of_nat (S fuel))) with (Z.of_nat fuel) by lia.
    replace (Z.succ i) with (i + 1)%Z by lia.
    rewrite to_double_small by lia.
    assert ((if decide (i < 100)%Z
             then if decide (i = 0)%Z then points ++ ["0.50"]
                  else (points ++ [toFixed2 i]) ++ [toFixed2_half i]
             else points ++ [toFixed2 i]) = points ++ points_at i) as ->.
    { unfold points_at. repeat case_decide; try done.
      by rewrite <- (assoc (++)). }
    assert (length (points_at i) ≤ 2) as Hlen.
    { unfold points_at. repeat case_decide; simpl; lia. }
    rewrite decide_True by (rewrite List.length_app; lia).
    rewrite IH; [|lia..|rewrite List.length_app; lia].
    by rewrite (assoc (++)).
Qed.

(** A loop that gets to 2^53 with rounds still to come gives no list
    whatever the fuel. *)
Lemma price_loop_reaches fuel i end_ points :
  (- 2 ^ 53 ≤ i ≤ 2 ^ 53)%Z → (2 ^ 53 ≤ end_)%Z →
  price_loop fuel i end_ points = None.
Proof.
  intros Hi Hend. revert i points Hi.
  induction fuel as [|fuel IH]; intros i points Hi; cbn [price_loop];
    rewrite decide_True by lia; [done|].
  case_decide; [|done].
  destruct (decide (i = 2 ^ 53)%Z) as [->|Hne].
  - change (to_double (2 ^ 53 + 1)) with (2 ^ 53)%Z. by apply IH.
  - rewrite to_double_small by lia. apply IH. lia.
Qed.

Lemma generatePricePoints_bind start end_ :
  (- 2 ^ 52 ≤ start)%Z → (end_ < 2 ^ 53)%Z → (end_ - start < 2 ^ 31 - 1)%Z →
  generatePricePoints start end_
  = Some (seqZ start (Z.max 0 (end_ - start + 1)) ≫= points_at).
Proof.
  intros Hstart Hend Hsize. unfold generatePricePoints.
  destruct (decide (start ≤ 2 ^ 53 ∧ - 2 ^ 53 ≤ end_)%Z) as [[Hs He]|Hout].
  - rewrite !to_double_small by lia.
    rewrite price_loop_bind by (simpl; lia). simpl. do 3 f_equal. lia.
  - assert (to_double end_ < to_double start)%Z as Hempty.
    { destruct (decide (start ≤ 2 ^ 53)%Z) as [Hs|Hs].
      - rewrite (to_double_small start) by lia.
        destruct (to_double_large end_) as [Habs Hsgn]; lia.
      - destruct (to_double_large start) as [Habs Hsgn]; [lia|].
        destruct (decide (- 2 ^ 53 ≤ end_)%Z) as [He|He].
        + rewrite (to_double_small end_) by lia. lia.
        + destruct (to_double_large end_) as [Habs' Hsgn']; lia. }
    replace (Z.to_nat (to_double end_ - to_double start + 1)) with 0 by lia.
    cbn [price_loop]. rewrite decide_False by lia.
    replace (Z.max 0 (end_ - start + 1)) with 0%Z by lia. done.
Qed.

Lemma elem_of_points start end_ p :
  p ∈ seqZ start (Z.max 0 (end_ - start + 1)) ≫= points_at
  ↔ ∃ i, (start ≤ i ≤ end_)%Z ∧ p ∈ points_at i.
Proof.
  rewrite list_elem_of_bind.
  split; intros (i & H1 & H2); exists i.
  - apply elem_of_seqZ in H2. split; [lia|done].
  - split; [done|]. apply elem_of_seqZ. lia.
Qed.

Lemma toFixed2_inj i j : toFixed2 i = toFixed2 j → i = j.
Proof.
  unfold toFixed2. intros [H _]%app_inj_ending; [|done].
  by apply (inj pretty) in H.
Qed.

Lemma toFixed2_half_inj i j :
  (0 ≤ i < 2 ^ 52)%Z → (0 ≤ j < 2 ^ 52)%Z →
  toFixed2_half i = toFixed2_half j → i = j.
Proof.
  intros Hi Hj. rewrite !toFixed2_half_exact by lia.
  rewrite !decide_True by lia.
  intros [H _]%app_inj_ending; [|done].
  by apply (inj pretty) in H.
Qed.

Lemma toFixed2_half_ending i :
  (- 2 ^ 52 ≤ i < 2 ^ 52)%Z → ∃ s, toFixed2_half i = s +:+ ".50".
Proof.
  intros Hi. rewrite toFixed2_half_exact by done. case_decide.
  - by eexists.
  - eexists. by rewrite <- app_assoc.
Qed.

Lemma toFixed2_ne_half i j :
  (- 2 ^ 52 ≤ j < 2 ^ 52)%Z → toFixed2 i ≠ toFixed2_half j.
Proof.
  intros Hj. destruct (toFixed2_half_ending j Hj) as [s ->]. unfold toFixed2.
  intros [_ H]%app_inj_ending; done.
Qed.

(** Every price point of a round is the whole price or the half above it. *)
Lemma points_at_cases p i :
  p ∈ points_at i →
  p = toFixed2 i ∧ i ≠ 0%Z ∨ p = toFixed2_half i ∧ (i < 100)%Z.
Proof.
  unfold points_at. repeat case_decide; subst;
    rewrite ?elem_of_cons, ?elem_of_nil; naive_solver.
Qed.

Lemma points_at_NoDup i : (- 2 ^ 52 ≤ i)%Z → NoDup (points_at i).
Proof.
  intros Hi. unfold points_at. repeat case_decide.
  - apply NoDup_singleton.
  - apply NoDup_cons. split; [|apply NoDup_singleton].
    rewrite elem_of_cons, elem_of_nil.
    intros [Heq|[]]. apply toFixed2_ne_half in Heq; [done|lia].
  - apply NoDup_singleton.
Qed.

Lemma points_at_length i :
  length (points_at i)
  = if decide (i < 100 ∧ i ≠ 0)%Z then 2 else 1.
Proof. unfold points_at. repeat case_decide; try done; lia. Qed.

Lemma bind_points_length start n :
  (0 ≤ start)%Z →
  length (seqZ start (Z.of_nat n) ≫= points_at)
  = n + Z.to_nat (Z.min (start + Z.of_nat n - 1) 99 - Z.max start 1 + 1).
Proof.
  revert start. induction n as [|n IH]; intros start Hstart.
  - replace (length (seqZ start (Z.of_nat 0) ≫= points_at)) with 0 by done.
    lia.
  - rewrite seqZ_cons by lia. rewrite bind_cons, List.length_app.
    replace (Z.pred (Z.of_nat (S n))) with (Z.of_nat n) by lia.
    rewrite IH by lia. rewrite points_at_length.
    case_decide; lia.
Qed.

(** The parts of a text between the separators. *)
Lemma split_none sep s :
  (∀ c, c ∈ String.list_ascii_of_string s → c ≠ sep) → split sep s = [s].
Proof.
  induction s as [|c s IH]; intros Hno; [done|].
  cbn [split]. rewrite decide_False.
  - rewrite IH; [done|]. intros c' Hc'. apply Hno. cbn. by right.
  - apply Hno. cbn. by left.
Qed.

Lemma split_app sep s t :
  (∀ c, c ∈ String.list_ascii_of_string s → c ≠ sep) →
  split sep (s +:+ String sep t) = s :: split sep t.
Proof.
  induction s as [|c s IH]; intros Hno.
  - change (EmptyString +:+ String sep t) with (String sep t).
    cbn [split]. by rewrite decide_True.
  - rewrite app_cons. cbn [split]. rewrite decide_False.
    + rewrite IH; [done|]. intros c' Hc'. apply Hno. cbn. by right.
    + apply Hno. cbn. by left.
Qed.

End FormatterFacts.

(** X1.  For a size from zero up to nine more than the number of characters
    left once the first dot is removed, [pad] returns exactly [size]
    characters, the last ones of the zero-prefixed text; when the size is at
    least the number of those characters, the result is the characters with
    zeros in front (nothing is cut). *)
Theorem pad_within_range (numString : string) (size : Z) :
  let digits := Formatter.remove_first_dot numString in
  (0 ≤ size ≤ 9 + Z.of_nat (String.length digits))%Z →
  Formatter.pad numString size
  = Formatter.last_chars (Z.to_nat size) ("000000000" +:+ digits)
  ∧ String.length (Formatter.pad numString size) = Z.to_nat size
  ∧ ((Z.of_nat (String.length digits) ≤ size)%Z →
     Formatter.pad numString size
     = Formatter.zeros (Z.to_nat size - String.length digits) +:+ digits).
Proof.
  intros digits Hsize.
  pose proof (FormatterFacts.pad_from numString size) as Hpad.
  cbn zeta in Hpad. fold digits in Hpad.
  assert (String.length ("000000000" +:+ digits) = 9 + String.length digits)
    as Hlen by (by rewrite StringFacts.length_app).
  rewrite Hlen in Hpad.
  rewrite decide_False in Hpad by lia.
  assert (Hcut : Formatter.pad numString size
                 = Formatter.last_chars (Z.to_nat size) ("000000000" +:+ digits)).
  { rewrite Hpad. unfold Formatter.last_chars. rewrite Hlen. f_equal; lia. }
  split; [done|]. split.
  - rewrite Hcut. unfold Formatter.last_chars.
    rewrite FormatterFacts.length_substring, Hlen. lia.
  - intros Hwide. rewrite Hcut. unfold Formatter.last_chars. rewrite Hlen.
    set (k := Z.to_nat size - String.length digits).
    change "000000000" with (Formatter.zeros 9).
    replace (Formatter.zeros 9) with (Formatter.zeros ((9 - k) + k))
      by (f_equal; lia).
    rewrite FormatterFacts.zeros_add, StringFacts.app_assoc.
    replace (9 + String.length digits - Z.to_nat size)
      with (String.length (Formatter.zeros (9 - k)))
      by (rewrite FormatterFacts.length_zeros; lia).
    replace (Z.to_nat size)
      with (String.length (Formatter.zeros k +:+ digits))
      by (rewrite StringFacts.length_app, FormatterFacts.length_zeros; lia).
    apply StringFacts.substring_app_r.
Qed.

Lemma pad_within_range_witness :
  Formatter.pad "1.75" 4 = Formatter.last_chars 4 "000000000175"
  ∧ String.length (Formatter.pad "1.75" 4) = 4
  ∧ Formatter.pad "1.75" 4 = "0175".
Proof.
  destruct (pad_within_range "1.75" 4 ltac:(vm_compute; split; discriminate))
    as (Hlast & Hlength & Hzeros).
  split_and!; [exact Hlast|exact Hlength|].
  exact (Hzeros ltac:(vm_compute; discriminate)).
Defined.

(** X2.  Outside that range [pad] does not pad to the size: for a size
    above the length [n] of the zero-prefixed text the start of [substr]
    is negative and counts from the end, so the result is the last
    [min (size - n) n] characters, fewer than [size]; for a size of zero or
    below the result is empty. *)
Theorem pad_outside_range (numString : string) (size : Z) :
  let s := "000000000" +:+ Formatter.remove_first_dot numString in
  let n := Z.of_nat (String.length s) in
  ((n < size)%Z →
   Formatter.pad numString size
   = Formatter.last_chars (Z.to_nat (Z.min (size - n) n)) s
   ∧ (Z.of_nat (String.length (Formatter.pad numString size)) < size)%Z)
  ∧ ((size ≤ 0)%Z → Formatter.pad numString size = EmptyString).
Proof.
  intros s n.
  pose proof (FormatterFacts.pad_from numString size) as Hpad.
  cbn zeta in Hpad. fold s in Hpad. fold n in Hpad.
  split.
  - intros Hwide. rewrite decide_True in Hpad by lia.
    assert (Hcut : Formatter.pad numString size
                   = Formatter.last_chars (Z.to_nat (Z.min (size - n) n)) s).
    { rewrite Hpad. unfold Formatter.last_chars. f_equal; lia. }
    split; [done|]. rewrite Hcut. unfold Formatter.last_chars.
    rewrite FormatterFacts.length_substring. lia.
  - intros Hneg. apply FormatterFacts.length_nil.
    rewrite Hpad, FormatterFacts.length_substring.
    case_decide; lia.
Qed.

Lemma pad_outside_range_witness :
  Formatter.pad "5" 11 = "5" ∧ Formatter.pad "12345" 0 = EmptyString.
Proof.
  split.
  - refine (proj1 (proj1 (pad_outside_range "5" 11) _)). vm_compute. done.
  - refine (proj2 (pad_outside_range "12345" 0) _). vm_compute. discriminate.
Defined.

(** X3.  For integer bounds with [0 <= start], [end < 2^53] and fewer
    than 2^31 - 1 integers between them, [generatePricePoints] returns, and
    what it returns has one price point for every integer from [start] to
    [end] and one more (the half above) for every integer from 1 to 99
    among them: zero gives one price point only, an empty range gives
    none. *)
Theorem generatePricePoints_length (start end_ : Z) :
  (0 ≤ start)%Z → (end_ < 2 ^ 53)%Z → (end_ - start < 2 ^ 31 - 1)%Z →
  ∃ points,
    Formatter.generatePricePoints start end_ = Some points
    ∧ length points
      = Z.to_nat (end_ - start + 1)
        + Z.to_nat (Z.min end_ 99 - Z.max start 1 + 1).
Proof.
  intros Hstart Hend Hsize. eexists. split.
  - apply FormatterFacts.generatePricePoints_bind; lia.
  - replace (Z.max 0 (end_ - start + 1))
      with (Z.of_nat (Z.to_nat (end_ - start + 1))) by lia.
    rewrite FormatterFacts.bind_points_length by done. lia.
Qed.

Lemma generatePricePoints_length_witness :
  ∃ points,
    Formatter.generatePricePoints 0 250 = Some points ∧ length points = 350.
Proof. apply (generatePricePoints_length 0 250); lia. Defined.

(** X4.  For such bounds no price point is returned twice, so no two line
    items of a run share a name. *)
Theorem generatePricePoints_NoDup (start end_ : Z) :
  (0 ≤ start)%Z → (end_ < 2 ^ 53)%Z → (end_ - start < 2 ^ 31 - 1)%Z →
  ∃ points,
    Formatter.generatePricePoints start end_ = Some points ∧ NoDup points.
Proof.
  intros Hstart Hend Hsize. eexists. split.
  - apply FormatterFacts.generatePricePoints_bind; lia.
  - apply NoDup_bind; [|intros i Hi%elem_of_seqZ;
                         apply FormatterFacts.points_at_NoDup; lia
                       |apply NoDup_seqZ].
    intros i j p Hi%elem_of_seqZ Hj%elem_of_seqZ Hpi Hpj.
    apply FormatterFacts.points_at_cases in Hpi, Hpj.
    destruct Hpi as [[-> _]|[-> Hi100]], Hpj as [[Hp _]|[Hp Hj100]].
    + by apply FormatterFacts.toFixed2_inj.
    + apply FormatterFacts.toFixed2_ne_half in Hp; [done|lia].
    + symmetry in Hp. apply FormatterFacts.toFixed2_ne_half in Hp; [done|lia].
    + apply FormatterFacts.toFixed2_half_inj; [lia..|done].
Qed.

Lemma generatePricePoints_NoDup_witness :
  ∃ points,
    Formatter.generatePricePoints 0 250 = Some points ∧ NoDup points.
Proof. apply (generatePricePoints_NoDup 0 250); lia. Defined.

(** X5.  For integer bounds with [-2^52 <= start], [end < 2^53] and fewer
    than 2^31 - 1 integers between them, [generatePricePoints] returns, and
    among the price points it returns the price 0.00 is never found, every
    integer of the range other than zero is there with two decimals, and a
    half above an integer is there only for an integer below 100 of the
    range. *)
Theorem generatePricePoints_members (start end_ : Z) :
  (- 2 ^ 52 ≤ start)%Z → (end_ < 2 ^ 53)%Z → (end_ - start < 2 ^ 31 - 1)%Z →
  ∃ points,
    Formatter.generatePricePoints start end_ = Some points
    ∧ ("0.00" ∉ points)
    ∧ (∀ i, (start ≤ i ≤ end_)%Z → i ≠ 0%Z → Formatter.toFixed2 i ∈ points)
    ∧ (∀ p, p ∈ points →
            ∃ i, (start ≤ i ≤ end_)%Z
                 ∧ (p = Formatter.toFixed2 i ∧ i ≠ 0%Z
                    ∨ p = Formatter.toFixed2_half i ∧ (i < 100)%Z)).
Proof.
  intros Hstart Hend Hsize. eexists. split; [|split_and!].
  - by apply FormatterFacts.generatePricePoints_bind.
  - intros (i & Hi & Hp)%FormatterFacts.elem_of_points.
    apply FormatterFacts.points_at_cases in Hp as [[Hp Hi0]|[Hp Hi100]].
    + change "0.00" with (Formatter.toFixed2 0) in Hp.
      apply FormatterFacts.toFixed2_inj in Hp. congruence.
    + change "0.00" with (Formatter.toFixed2 0) in Hp.
      apply FormatterFacts.toFixed2_ne_half in Hp; [done|lia].
  - intros i Hi Hne. apply FormatterFacts.elem_of_points.
    exists i. split; [done|]. unfold Formatter.points_at.
    repeat case_decide; try done; apply list_elem_of_here.
  - intros p (i & Hi & Hp)%FormatterFacts.elem_of_points.
    exists i. split; [done|].
    by apply FormatterFacts.points_at_cases.
Qed.

Lemma generatePricePoints_members_witness :
  ∃ points,
    Formatter.generatePricePoints 0 3 = Some points
    ∧ ("0.00" ∉ points)
    ∧ Formatter.toFixed2 2 ∈ points
    ∧ ∃ i, (0 ≤ i ≤ 3)%Z
           ∧ ("1.50" = Formatter.toFixed2 i ∧ i ≠ 0%Z
              ∨ "1.50" = Formatter.toFixed2_half i ∧ (i < 100)%Z).
Proof.
  destruct (generatePricePoints_members 0 3
              ltac:(vm_compute; discriminate) ltac:(reflexivity)
              ltac:(reflexivity))
    as (points & Hrun & Hzero & Hwhole & Hany).
  exists points. split_and!; [exact Hrun|exact Hzero|apply Hwhole; lia|].
  apply Hany.
  assert (Formatter.generatePricePoints 0 3
          = Some ["0.50"; "1.00"; "1.50"; "2.00"; "2.50"; "3.00"; "3.50"])
    as Hlist by (by vm_compute).
  rewrite Hrun in Hlist. injection Hlist as ->.
  apply list_elem_of_In. vm_compute. tauto.
Defined.

(** X21.  A range that reaches 2^53 is never finished: for integer bounds
    with [-2^53 <= start <= 2^53 <= end], the loop cannot get past 2^53,
    where [i++] no longer changes [i], and [generatePricePoints] returns no
    list, whatever fuel the loop is given. *)
Theorem generatePricePoints_does_not_return (start end_ : Z) :
  (- 2 ^ 53 ≤ start ≤ 2 ^ 53)%Z → (2 ^ 53 ≤ end_)%Z →
  Formatter.generatePricePoints start end_ = None
  ∧ ∀ fuel,
      Formatter.price_loop fuel (Formatter.to_double start)
        (Formatter.to_double end_) [] = None.
Proof.
  intros Hstart Hend.
  assert (2 ^ 53 ≤ Formatter.to_double end_)%Z as Hend'.
  { destruct (decide (end_ = 2 ^ 53)%Z) as [->|Hne]; [by vm_compute|].
    destruct (FormatterFacts.to_double_large end_) as [Habs Hsgn]; lia. }
  rewrite (FormatterFacts.to_double_small start) by lia.
  assert (∀ fuel, Formatter.price_loop fuel start (Formatter.to_double end_) []
                  = None) as Hloop.
  { intros fuel. by apply FormatterFacts.price_loop_reaches. }
  split; [|done]. unfold Formatter.generatePricePoints.
  rewrite (FormatterFacts.to_double_small start) by lia. apply Hloop.
Qed.

Lemma generatePricePoints_does_not_return_witness :
  Formatter.generatePricePoints 9007199254740000 9007199254740992 = None.
Proof.
  apply (generatePricePoints_does_not_return 9007199254740000 9007199254740992);
    lia.
Defined.

(** X6.  [formatSizes] takes the width of a size from before the first
    [x] and the height from between the first and the second: a size
    ["WxH"] gives the width ["W"] and the height ["H"], as strings; a size
    without [x] gives itself as the width and no height ([undefined]); what
    follows a second [x] is dropped. *)
Theorem formatSizes_entry (width height : string) (sizes : list string) :
  (∀ c, c ∈ String.list_ascii_of_string width → c ≠ Formatter.char_of "x") →
  (∀ c, c ∈ String.list_ascii_of_string height → c ≠ Formatter.char_of "x") →
  Objects.formatSizes ((width +:+ "x" +:+ height) :: sizes)
  = Objects.formatSize (VStr width) (VStr height) :: Objects.formatSizes sizes
  ∧ Objects.formatSizes (width :: sizes)
    = Objects.formatSize (VStr width) VUndef :: Objects.formatSizes sizes
  ∧ ∀ rest,
      Objects.formatSizes ((width +:+ "x" +:+ height +:+ "x" +:+ rest) :: sizes)
      = Objects.formatSize (VStr width) (VStr height)
          :: Objects.formatSizes sizes.
Proof.
  intros Hw Hh. unfold Objects.formatSizes. rewrite !fmap_cons.
  split_and!; [| |intros rest; rewrite fmap_cons]; cbn beta.
  - change (width +:+ "x" +:+ height)
      with (width +:+ String (Formatter.char_of "x") height).
    rewrite FormatterFacts.split_app by done.
    by rewrite FormatterFacts.split_none.
  - by rewrite FormatterFacts.split_none.
  - change (width +:+ "x" +:+ height +:+ "x" +:+ rest)
      with (width +:+ String (Formatter.char_of "x")
                        (height +:+ String (Formatter.char_of "x") rest)).
    by rewrite !FormatterFacts.split_app.
Qed.

Lemma formatSizes_entry_witness :
  Objects.formatSizes ["300x250"]
  = [Objects.formatSize (VStr "300") (VStr "250")].
Proof.
  apply (proj1 (formatSizes_entry "300" "250" []
                  ltac:(intros c Hc%list_elem_of_In ->; vm_compute in Hc;
                        intuition discriminate)
                  ltac:(intros c Hc%list_elem_of_In ->; vm_compute in Hc;
                        intuition discriminate))).
Defined.

(** ** What a chain does to the stores and to the remote platform *)

Module StepFacts.
Import Invariants.

#[export] Instance stores_grow_preorder : PreOrder stores_grow.
Proof.
  split.
  - intros w st. reflexivity.
  - intros w1 w2 w3 H12 H23 st. etrans; [apply H12|apply H23].
Qed.

#[export] Instance caches_grow_preorder : PreOrder caches_grow.
Proof.
  split.
  - intros w st _. reflexivity.
  - intros w1 w2 w3 H12 H23 st Hst. etrans; [by apply H12|by apply H23].
Qed.

#[export] Instance settled_preorder : PreOrder settled.
Proof.
  split.
  - intros w. split; reflexivity.
  - intros w1 w2 w3 [H12 Hh12] [H23 Hh23]. split.
    + by etrans.
    + congruence.
Qed.

Lemma stores_grow_caches w w' : stores_grow w w' → caches_grow w w'.
Proof. intros H st _. apply H. Qed.

Section rules.
Context (R : World → World → Prop) `{!PreOrder R}.

Lemma steps_resolve {A} (a : A) : steps R (resolve a).
Proof. intros w. simpl. reflexivity. Qed.

Lemma steps_reject {A} e : steps R (@reject A e).
Proof. intros w. simpl. reflexivity. Qed.

Lemma steps_then {A B} (p : Promise A) (f : A → Promise B) :
  steps R p → (∀ a, steps R (f a)) → steps R (then_ p f).
Proof.
  intros Hp Hf w. unfold then_. specialize (Hp w).
  destruct (p w) as [[a|e] w1]; simpl in *; [|done].
  etrans; [done|apply Hf].
Qed.

Lemma steps_map {A B} (f : A → Promise B) items :
  (∀ x, steps R (f x)) → steps R (map_ f items).
Proof.
  intros Hf. induction items as [|x items IH]; simpl.
  - apply steps_resolve.
  - apply steps_then; [apply Hf|]. intros y.
    apply steps_then; [apply IH|]. intros ys. apply steps_resolve.
Qed.

Lemma steps_forEach {A} (f : A → Promise unit) items :
  (∀ x, steps R (f x)) → steps R (forEach f items).
Proof.
  intros Hf. induction items as [|x items IH]; simpl.
  - apply steps_resolve.
  - apply steps_then; [apply Hf|]. intros _. apply IH.
Qed.
End rules.

Lemma steps_impl (R R' : World → World → Prop) {A} (p : Promise A) :
  (∀ w w', R w w' → R' w w') → steps R p → steps R' p.
Proof. intros HR Hp w. apply HR, Hp. Qed.

(** ** The operations on the heap leave the stores alone *)

Lemma store_of_set_heap st h w : store_of st (set_heap h w) = store_of st w.
Proof. by destruct st. Qed.

Lemma heap_only_grow {A} (p : Promise A) : heap_only p → steps stores_grow p.
Proof.
  intros Hp w st. rewrite (Hp w), store_of_set_heap. reflexivity.
Qed.

Lemma set_heap_same w : set_heap (heap w) w = w.
Proof. by destruct w. Qed.

Lemma ho_cloneDeep v : heap_only (cloneDeep v).
Proof. intros w. apply MissingFacts.cloneDeep_world. Qed.

Lemma ho_alloc o : heap_only (alloc o).
Proof. intros w. by destruct w. Qed.

Lemma ho_get_prop v name : heap_only (get_prop v name).
Proof.
  intros w. unfold get_prop.
  destruct v as [| | | | | |l]; simpl; try by rewrite set_heap_same.
  destruct (heap w !! l) as [[?|??]|]; simpl; by rewrite set_heap_same.
Qed.

Lemma ho_get_index v i : heap_only (get_index v i).
Proof.
  intros w. unfold get_index.
  destruct v as [| | | | | |l]; simpl; try by rewrite set_heap_same.
  destruct (heap w !! l) as [[?|??]|]; simpl; by rewrite set_heap_same.
Qed.

Lemma ho_set_prop v name x : heap_only (set_prop v name x).
Proof.
  intros w. unfold set_prop.
  destruct v as [| | | | | |l]; simpl; try by rewrite set_heap_same.
  destruct (heap w !! l) as [[?|??]|]; simpl;
    try (by rewrite set_heap_same); by destruct w.
Qed.

Lemma ho_delete_prop v name : heap_only (delete_prop v name).
Proof.
  intros w. unfold delete_prop.
  destruct v as [| | | | | |l]; simpl; try by rewrite set_heap_same.
  destruct (heap w !! l) as [[?|??]|]; simpl;
    try (by rewrite set_heap_same); by destruct w.
Qed.

Lemma ho_push_target v : heap_only (push_target v).
Proof.
  intros w. unfold push_target.
  destruct v; simpl; by rewrite set_heap_same.
Qed.

Lemma ho_array_push v x : heap_only (array_push v x).
Proof.
  intros w. unfold array_push.
  destruct v as [| | | | | |l]; simpl; try by rewrite set_heap_same.
  destruct (heap w !! l) as [[?|??]|]; simpl;
    try (by rewrite set_heap_same); by destruct w.
Qed.

Lemma ho_read_heap : heap_only read_heap.
Proof. intros w. simpl. by rewrite set_heap_same. Qed.

(** ** The operations of the lookups *)

Lemma sg_console_log entry : steps stores_grow (console_log entry).
Proof. intros w st. by destruct st. Qed.

(** A write under a key that has no entry. *)
Lemma put_absent_grows env st k value w w0 :
  store_of st w0 !! k = None →
  stores_grow w0 w → store_of st w = store_of st w0 →
  stores_grow w0 (putAsync env st (Some k) value w).2.
Proof.
  intros Hmiss Hgrow Hsame. unfold putAsync.
  destruct (putFails env st k value); simpl; [done|].
  intros st'. destruct (decide (st' = st)) as [->|Hne].
  - rewrite CacheFacts.store_of_set_store, Hsame.
    by apply insert_subseteq.
  - etrans; [apply Hgrow|]. by destruct st, st'.
Qed.

Section lookups.
Context (env : Env).

(** The part of a lookup after the miss: the query at the remote
    platform, then the write under the key that missed.  It grows the
    stores whatever is done with a failed write. *)
Lemma fetch_and_put_grows (fetch : Promise string) st k w
    (handler : error → Promise unit) :
  store_of st w !! k = None →
  steps stores_grow fetch →
  (∀ w', store_of st (fetch w').2 = store_of st w') →
  (∀ e, steps stores_grow (handler e)) →
  stores_grow w
    (tap fetch (λ id, catch_ (putAsync env st (Some k) id) handler) w).2.
Proof.
  intros Hmiss Hfetch Hsame Hh. unfold tap. unfold then_ at 1.
  pose proof (Hfetch w) as Hgrow. pose proof (Hsame w) as Hst.
  destruct (fetch w) as [[id|e] w1]; simpl in *; [|done].
  unfold then_ at 1. unfold catch_.
  pose proof (put_absent_grows env st k id w1 w Hmiss Hgrow Hst) as Hput.
  destruct (putAsync env st (Some k) id w1) as [[[]|e] w2]; simpl in *;
    [done|].
  unfold then_. specialize (Hh e w2).
  destruct (handler e w2) as [[[]|e'] w3]; simpl in *; by etrans.
Qed.

Lemma getCriteriaKey_stores conditions st w :
  store_of st (getCriteriaKey env conditions w).2 = store_of st w.
Proof.
  unfold getCriteriaKey. unchain.
  destruct (remote env _ _) as [r|?]; simpl; [|by destruct st].
  destruct (results r) as [rs|]; simpl; [|by destruct st].
  destruct (rs !! 0) as [x|]; simpl; [|by destruct st].
  destruct (result_id x) as [i|]; simpl; [|by destruct st].
  case_decide; by destruct st.
Qed.

Lemma getLabel_stores conditions st w :
  store_of st (getLabel env conditions w).2 = store_of st w.
Proof.
  unfold getLabel. unchain.
  destruct (remote env _ _) as [r|?]; simpl; [|by destruct st].
  destruct (results r) as [rs|]; simpl; [|by destruct st].
  destruct (rs !! 0) as [x|]; simpl; [|by destruct st].
  destruct (result_id x) as [i|]; simpl; [|by destruct st].
  case_decide; by destruct st.
Qed.

Lemma getCriteriaValue_stores conditions st w :
  store_of st (getCriteriaValue env conditions w).2 = store_of st w.
Proof.
  unfold getCriteriaValue. unchain.
  destruct (remote env _ _) as [r|?]; simpl; [|by destruct st].
  destruct (results r) as [rs|]; simpl; [|by destruct st].
  destruct (rs !! 0) as [x|]; simpl; [|by destruct st].
  destruct (result_id x) as [i|]; simpl; [|by destruct st].
  case_decide; by destruct st.
Qed.

Lemma stores_same_grow w w' :
  (∀ st, store_of st w' = store_of st w) → stores_grow w w'.
Proof. intros H st. by rewrite H. Qed.

Lemma lookupCriteriaKey_grows name :
  steps stores_grow (lookupCriteriaKey env name).
Proof.
  intros w. unfold lookupCriteriaKey. unfold catch_ at 1, getAsync.
  destruct (store_of criteriaKeyStore w !! name) as [id|] eqn:Hmiss;
    simpl; [reflexivity|].
  apply fetch_and_put_grows; [done| | |].
  - intros w'. apply stores_same_grow. intros st.
    apply getCriteriaKey_stores.
  - intros w'. apply getCriteriaKey_stores.
  - intros e. apply steps_then; [apply _|apply sg_console_log|].
    intros _. apply steps_reject. apply _.
Qed.

Lemma lookupLabel_grows name : steps stores_grow (lookupLabel env name).
Proof.
  intros w. unfold lookupLabel. unfold catch_ at 1, getAsync.
  destruct (store_of labelStore w !! name) as [id|] eqn:Hmiss;
    simpl; [reflexivity|].
  apply fetch_and_put_grows; [done| | |].
  - intros w'. apply stores_same_grow. intros st. apply getLabel_stores.
  - intros w'. apply getLabel_stores.
  - intros e. apply steps_then; [apply _|apply sg_console_log|].
    intros _. apply steps_reject. apply _.
Qed.

Lemma lookupCriteriaValues_grows value keyId :
  steps stores_grow (lookupCriteriaValues env value keyId).
Proof.
  intros w. unfold lookupCriteriaValues. unfold then_ at 1.
  unfold read_heap. simpl. unfold then_ at 1.
  unfold catch_ at 1, getAsync.
  destruct (store_of criteriaValueStore w !! _) as [id|] eqn:Hmiss;
    simpl; [reflexivity|].
  match goal with
  | |- stores_grow w (match ?p w with _ => _ end).2 =>
      assert (stores_grow w (p w).2) as Hrun; [|by destruct (p w) as [[?|?] ?]]
  end.
  unfold catch_ at 1.
  match goal with
  | |- stores_grow w (match tap ?fetch ?put w with _ => _ end).2 =>
      assert (stores_grow w (tap fetch put w).2) as Hrun
  end.
  { unfold tap. unfold then_ at 1.
    pose proof (getCriteriaValue_stores
                  {[ "name" := value; "customTargetingKeyId" := VStr keyId ]})
      as Hsame.
    destruct (getCriteriaValue env _ w) as [[id|e] w1] eqn:Hfetch;
      simpl; [|apply stores_same_grow; intros st;
               specialize (Hsame st w); by rewrite Hfetch in Hsame].
    unfold then_ at 1.
    assert (stores_grow w w1) as Hgrow.
    { apply stores_same_grow. intros st. specialize (Hsame st w).
      by rewrite Hfetch in Hsame. }
    pose proof (put_absent_grows env criteriaValueStore _ id w1 w
                  Hmiss Hgrow) as Hput.
    specialize (Hsame criteriaValueStore w). rewrite Hfetch in Hsame.
    specialize (Hput Hsame).
    destruct (putAsync env criteriaValueStore _ id w1) as [[[]|e] w2];
      simpl in *; done. }
  destruct (tap _ _ w) as [[id|e] w1]; simpl in *; [done|].
  etrans; [exact Hrun|]. intros st. by destruct st.
Qed.

Lemma getOrder_grows conditions : steps stores_grow (getOrder env conditions).
Proof.
  intros w. unfold getOrder. unfold then_ at 1. unfold read_heap. simpl.
  unfold catch_ at 1, getAsync.
  destruct (key_of_val env (heap w) (cond conditions "name")) as [k|]
    eqn:Hkey; simpl.
  - destruct (orders w !! k) as [id|] eqn:Hmiss;
      simpl; [reflexivity|].
    unfold catch_ at 1.
    match goal with
    | |- stores_grow w (match tap ?fetch ?put w with _ => _ end).2 =>
        assert (stores_grow w (tap fetch put w).2) as Hrun
    end.
    { unfold tap. unfold then_ at 1.
      match goal with
      | |- context [then_ (executeAPIFunction env ?s ?m ?q) ?f w] =>
          set (fetch := then_ (executeAPIFunction env s m q) f)
      end.
      assert (∀ st, store_of st (fetch w).2 = store_of st w) as Hsame.
      { intros st. unfold fetch. unchain.
        destruct (remote env _ _) as [r|?]; simpl; [|by destruct st].
        destruct (results r) as [rs|]; simpl; [|by destruct st].
        destruct (rs !! 0) as [x|]; simpl; [|by destruct st].
        destruct (result_id x) as [i|]; simpl; [|by destruct st].
        case_decide; by destruct st. }
      destruct (fetch w) as [[id|e] w1] eqn:Hfetch; simpl in *;
        [|by apply stores_same_grow].
      unfold then_ at 1.
      pose proof (put_absent_grows env orderStore k id w1 w Hmiss
                    (stores_same_grow _ _ Hsame) (Hsame orderStore)) as Hput.
      destruct (putAsync env orderStore (Some k) id w1) as [[[]|e] w2];
        simpl in *; done. }
    destruct (tap _ _ w) as [[id|e] w1]; simpl in *; [done|].
    etrans; [exact Hrun|]. intros st. by destruct st.
  - unfold catch_ at 1.
    match goal with
    | |- stores_grow w (match tap ?fetch ?put w with _ => _ end).2 =>
        assert (stores_grow w (tap fetch put w).2) as Hrun
    end.
    { unfold tap. unfold then_ at 1.
      match goal with
      | |- context [then_ (executeAPIFunction env ?s ?m ?q) ?f w] =>
          set (fetch := then_ (executeAPIFunction env s m q) f)
      end.
      assert (∀ st, store_of st (fetch w).2 = store_of st w) as Hsame.
      { intros st. unfold fetch. unchain.
        destruct (remote env _ _) as [r|?]; simpl; [|by destruct st].
        destruct (results r) as [rs|]; simpl; [|by destruct st].
        destruct (rs !! 0) as [x|]; simpl; [|by destruct st].
        destruct (result_id x) as [i|]; simpl; [|by destruct st].
        case_decide; by destruct st. }
      destruct (fetch w) as [[id|e] w1] eqn:Hfetch; simpl in *;
        by apply stores_same_grow. }
    destruct (tap _ _ w) as [[id|e] w1]; simpl in *; [done|].
    etrans; [exact Hrun|]. intros st. by destruct st.
Qed.

Lemma getCriteria_grows criteria : steps stores_grow (getCriteria env criteria).
Proof.
  unfold getCriteria.
  apply steps_then; [apply _|apply heap_only_grow, ho_read_heap|].
  intros h. apply steps_then; [apply _| |intros ps].
  { apply steps_map; [apply _|]. intros pair. unfold _lookupKeyInPair.
    apply steps_then; [apply _|apply lookupCriteriaKey_grows|].
    intros ?. apply steps_resolve. apply _. }
  apply steps_then; [apply _| |intros qs; apply steps_resolve; apply _].
  apply steps_map; [apply _|]. intros pair. unfold _lookupValueInPair.
  apply steps_then; [apply _|apply lookupCriteriaValues_grows|].
  intros ?. apply steps_resolve. apply _.
Qed.

(** [getAdUnit] and [getAdvertiser] touch no store but, for the first,
    the one of the ad units. *)
Lemma getAdUnit_caches conditions : steps caches_grow (getAdUnit env conditions).
Proof.
  intros w st Hst. unfold getAdUnit. unchain.
  repeat (case_match; simplify_eq/=; try reflexivity);
    by destruct st.
Qed.

Lemma getAdvertiser_grows conditions :
  steps stores_grow (getAdvertiser env conditions).
Proof.
  intros w st. unfold getAdvertiser. unchain.
  repeat (case_match; simplify_eq/=; try reflexivity);
    by destruct st.
Qed.
End lookups.

(** Goes through a chain of heap operations and lookups. *)
Ltac grows :=
  repeat first
    [ apply steps_resolve; apply _
    | apply steps_reject; apply _
    | apply heap_only_grow;
      first [ apply ho_cloneDeep | apply ho_alloc | apply ho_get_prop
            | apply ho_get_index | apply ho_set_prop | apply ho_delete_prop
            | apply ho_push_target | apply ho_array_push | apply ho_read_heap ]
    | apply sg_console_log
    | apply getOrder_grows | apply getCriteria_grows
    | apply getAdvertiser_grows
    | apply steps_then; [apply _| |intros ?]
    | apply steps_forEach; [apply _|intros ?] ].

Section pipeline.
Context (env : Env).

Lemma replaceStartDate_grows v : steps stores_grow (replaceStartDate env v).
Proof. unfold replaceStartDate. grows. Qed.

Lemma replaceOrderName_grows v : steps stores_grow (replaceOrderName env v).
Proof. unfold replaceOrderName. grows. Qed.

Lemma addCriteria_grows v : steps stores_grow (addCriteria env v).
Proof. unfold addCriteria. grows. Qed.

Lemma replacePartnerName_grows v :
  steps stores_grow (replacePartnerName env v).
Proof. unfold replacePartnerName. grows. Qed.

Lemma replaceAdUnitName_caches v :
  steps caches_grow (replaceAdUnitName env v).
Proof.
  unfold replaceAdUnitName.
  repeat first
    [ apply getAdUnit_caches
    | apply steps_resolve; apply _
    | apply steps_then; [apply _| |intros ?]
    | eapply steps_impl; [apply stores_grow_caches|]; progress grows ].
Qed.

Lemma prepareLineItem_caches v : steps caches_grow (prepareLineItem env v).
Proof.
  unfold prepareLineItem.
  apply steps_then; [apply _| |intros _].
  { eapply steps_impl; [apply stores_grow_caches|]. apply sg_console_log. }
  apply steps_then; [apply _| |intros ?].
  { eapply steps_impl; [apply stores_grow_caches|].
    apply replaceStartDate_grows. }
  apply steps_then; [apply _| |intros ?].
  { eapply steps_impl; [apply stores_grow_caches|].
    apply replaceOrderName_grows. }
  apply steps_then; [apply _|apply replaceAdUnitName_caches|intros ?].
  eapply steps_impl; [apply stores_grow_caches|]. apply addCriteria_grows.
Qed.
End pipeline.

End StepFacts.

(** ** Counting the calls to the remote platform *)

Module CallFacts.
Import Invariants.

Lemma calls_extend_same k w w' :
  remoteCalls w' = remoteCalls w → calls_extend k w w'.
Proof.
  intros H. exists []. rewrite app_nil_r. split; [done|simpl; lia].
Qed.

Lemma calls_extend_trans k1 k2 w1 w2 w3 :
  calls_extend k1 w1 w2 → calls_extend k2 w2 w3 →
  calls_extend (k1 + k2) w1 w3.
Proof.
  intros (c1 & H1 & L1) (c2 & H2 & L2). exists (c1 ++ c2).
  rewrite H2, H1, <- (assoc (++)). split; [done|].
  rewrite length_app. lia.
Qed.

Lemma calls_extend_weaken k k' w w' :
  calls_extend k w w' → k ≤ k' → calls_extend k' w w'.
Proof. intros (c & H & L) Hk. exists c. split; [done|lia]. Qed.

Lemma cw_weaken {A} k k' (p : Promise A) :
  calls_within k p → k ≤ k' → calls_within k' p.
Proof. intros Hp Hk w. by eapply calls_extend_weaken. Qed.

Lemma cw_same {A} (p : Promise A) :
  (∀ w, remoteCalls (p w).2 = remoteCalls w) → calls_within 0 p.
Proof. intros H w. by apply calls_extend_same. Qed.

Lemma cw_resolve {A} (a : A) : calls_within 0 (resolve a).
Proof. by apply cw_same. Qed.

Lemma cw_reject {A} e : calls_within 0 (@reject A e).
Proof. by apply cw_same. Qed.

Lemma cw_console_log entry : calls_within 0 (console_log entry).
Proof. by apply cw_same. Qed.

Lemma cw_read_heap : calls_within 0 read_heap.
Proof. by apply cw_same. Qed.

Lemma cw_getAsync st key : calls_within 0 (getAsync st key).
Proof.
  apply cw_same. intros w. unfold getAsync. destruct key as [k|]; [|done].
  by destruct (store_of st w !! k).
Qed.

Lemma cw_putAsync env st key value :
  calls_within 0 (putAsync env st key value).
Proof.
  apply cw_same. intros w. unfold putAsync. destruct key as [k|]; [|done].
  destruct (putFails env st k value); [done|]. by destruct st.
Qed.

Lemma cw_extractResults response : calls_within 0 (extractResults response).
Proof.
  unfold extractResults. destruct (results response);
    [apply cw_resolve|apply cw_reject].
Qed.

Lemma cw_extractFirstId rs : calls_within 0 (extractFirstId rs).
Proof.
  unfold extractFirstId. destruct (rs !! 0) as [r|]; [|apply cw_reject].
  destruct (result_id r) as [i|]; [|apply cw_reject].
  case_decide; [apply cw_reject|apply cw_resolve].
Qed.

Lemma cw_executeAPIFunction env service method query :
  calls_within 1 (executeAPIFunction env service method query).
Proof.
  intros w. exists [Build_Call service method query].
  unfold executeAPIFunction. by destruct (remote env _ _).
Qed.

Lemma cw_then {A B} k1 k2 (p : Promise A) (f : A → Promise B) :
  calls_within k1 p → (∀ a, calls_within k2 (f a)) →
  calls_within (k1 + k2) (then_ p f).
Proof.
  intros Hp Hf w. unfold then_. specialize (Hp w).
  destruct (p w) as [[a|e] w1]; simpl in *.
  - eapply calls_extend_trans; [done|apply Hf].
  - eapply calls_extend_weaken; [done|lia].
Qed.

Lemma cw_catch {A} k1 k2 (p : Promise A) handler :
  calls_within k1 p → (∀ e, calls_within k2 (handler e)) →
  calls_within (k1 + k2) (catch_ p handler).
Proof.
  intros Hp Hh w. unfold catch_. specialize (Hp w).
  destruct (p w) as [[a|e] w1]; simpl in *.
  - eapply calls_extend_weaken; [done|lia].
  - eapply calls_extend_trans; [done|apply Hh].
Qed.

Lemma cw_tap {A B} k1 k2 (p : Promise A) (f : A → Promise B) :
  calls_within k1 p → (∀ a, calls_within k2 (f a)) →
  calls_within (k1 + (k2 + 0)) (tap p f).
Proof.
  intros Hp Hf. unfold tap. apply cw_then; [done|]. intros a.
  apply cw_then; [apply Hf|]. intros _. apply cw_resolve.
Qed.

Lemma cw_map {A B} k (f : A → Promise B) items :
  (∀ x, calls_within k (f x)) →
  calls_within (length items * k) (map_ f items).
Proof.
  intros Hf. induction items as [|x items IH]; simpl.
  - apply cw_resolve.
  - eapply cw_weaken.
    + apply cw_then; [apply Hf|]. intros y.
      apply cw_then; [apply IH|]. intros ys. apply cw_resolve.
    + lia.
Qed.

(** Goes through a chain, adding up the calls. *)
Ltac calls :=
  repeat first
    [ apply cw_resolve | apply cw_reject | apply cw_console_log
    | apply cw_read_heap | apply cw_getAsync | apply cw_putAsync
    | apply cw_executeAPIFunction | apply cw_extractResults
    | apply cw_extractFirstId
    | eapply cw_then; [|intros ?] | eapply cw_catch; [|intros ?]
    | eapply cw_tap; [|intros ?] ].

Ltac at_most := eapply cw_weaken; [calls|simpl; lia].

Section lookups.
Context (env : Env).

Lemma lookupCriteriaKey_calls name :
  calls_within 1 (lookupCriteriaKey env name).
Proof. unfold lookupCriteriaKey, getCriteriaKey. at_most. Qed.

Lemma lookupLabel_calls name : calls_within 1 (lookupLabel env name).
Proof. unfold lookupLabel, getLabel. at_most. Qed.

Lemma lookupCriteriaValues_calls value keyId :
  calls_within 1 (lookupCriteriaValues env value keyId).
Proof. unfold lookupCriteriaValues, getCriteriaValue. at_most. Qed.

Lemma getOrder_calls conditions : calls_within 1 (getOrder env conditions).
Proof. unfold getOrder. at_most. Qed.

Lemma getAdUnit_calls conditions : calls_within 1 (getAdUnit env conditions).
Proof. unfold getAdUnit. at_most. Qed.

Lemma getAdvertiser_calls conditions :
  calls_within 1 (getAdvertiser env conditions).
Proof. unfold getAdvertiser. at_most. Qed.

Lemma getCriteria_calls criteria w :
  calls_extend (2 * length (pairs (heap w) criteria)) w
    (getCriteria env criteria w).2.
Proof.
  unfold getCriteria. unfold then_ at 1. unfold read_heap. simpl.
  set (items := pairs (heap w) criteria).
  unfold then_ at 1.
  pose proof (cw_map 1 (_lookupKeyInPair env) items) as Hkeys.
  specialize (Hkeys ltac:(intros pair; unfold _lookupKeyInPair;
                          eapply cw_weaken;
                          [eapply cw_then;
                           [apply lookupCriteriaKey_calls
                           |intros ?; apply cw_resolve]
                          |lia]) w).
  destruct (map_ (_lookupKeyInPair env) items w) as [[ps|e] w1] eqn:Hrun;
    simpl in *; [|eapply calls_extend_weaken; [done|lia]].
  destruct (PromiseFacts.map_Forall (_lookupKeyInPair env) (λ _, True)
              ltac:(done) _ _ _ _ Hrun) as [_ Hlen].
  pose proof (cw_then (length ps * 1) 0
                (map_ (_lookupValueInPair env) ps)
                (λ qs, resolve (_convertPairToObject <$> qs))) as Hvals.
  specialize (Hvals ltac:(apply cw_map; intros pair;
                          unfold _lookupValueInPair;
                          eapply cw_weaken;
                          [eapply cw_then;
                           [apply lookupCriteriaValues_calls
                           |intros ?; apply cw_resolve]
                          |lia])
                    ltac:(intros ?; apply cw_resolve) w1).
  eapply calls_extend_weaken.
  - eapply calls_extend_trans; [exact Hkeys|exact Hvals].
  - lia.
Qed.
End lookups.

End CallFacts.

(** ** Lookups answered from the stores *)

Module ReplayFacts.
Import Invariants StepFacts.

Lemma replay_resolve {A} (a : A) : replayable (resolve a).
Proof.
  intros w a' w1 [= <- <-]. split; [reflexivity|done].
Qed.

Lemma replay_read_heap : replayable read_heap.
Proof.
  intros w h w1 [= <- <-]. split; [reflexivity|].
  intros w2 [_ Hh]. unfold read_heap. by rewrite Hh.
Qed.

Lemma replay_then {A B} (p : Promise A) (f : A → Promise B) :
  replayable p → (∀ a, replayable (f a)) → replayable (then_ p f).
Proof.
  intros Hp Hf w b w' Hrun. unfold then_ in Hrun.
  destruct (p w) as [[a|e] w1] eqn:Hpw; [|done].
  destruct (Hp _ _ _ Hpw) as [H1 Hp2].
  destruct (Hf a _ _ _ Hrun) as [H2 Hf2].
  split; [by etrans|].
  intros w2 Hw2. unfold then_.
  rewrite Hp2 by (by etrans). by apply Hf2.
Qed.

Lemma replay_map {A B} (f : A → Promise B) items :
  (∀ x, replayable (f x)) → replayable (map_ f items).
Proof.
  intros Hf. induction items as [|x items IH]; simpl.
  - apply replay_resolve.
  - apply replay_then; [apply Hf|]. intros y.
    apply replay_then; [apply IH|]. intros ys. apply replay_resolve.
Qed.

Section lookups.
Context (env : Env).

Lemma run_settled {A} (p : Promise A) w a w1 :
  steps stores_grow p → Alias.heap_const p →
  p w = (Resolved a, w1) → settled w w1.
Proof.
  intros Hg Hh Hrun. specialize (Hg w). specialize (Hh w).
  rewrite Hrun in Hg, Hh. by split.
Qed.

Lemma lookupCriteriaKey_replay name : replayable (lookupCriteriaKey env name).
Proof.
  intros w id w1 Hrun. split.
  - eapply run_settled; [apply lookupCriteriaKey_grows| |done].
    apply HeapConst.lookupCriteriaKey_heap.
  - intros w2 [Hg _]. apply CacheFacts.lookupCriteriaKey_hit.
    apply CacheFacts.lookupCriteriaKey_stored in Hrun.
    eapply lookup_weaken; [done|apply (Hg criteriaKeyStore)].
Qed.

Lemma lookupLabel_heap name : Alias.heap_const (lookupLabel env name).
Proof. unfold lookupLabel, getLabel. HeapConst.heap_const. Qed.

Lemma lookupLabel_replay name : replayable (lookupLabel env name).
Proof.
  intros w id w1 Hrun. split.
  - eapply run_settled; [apply lookupLabel_grows| |done].
    apply lookupLabel_heap.
  - intros w2 [Hg _]. apply CacheFacts.lookupLabel_hit.
    apply CacheFacts.lookupLabel_stored in Hrun.
    eapply lookup_weaken; [done|apply (Hg labelStore)].
Qed.

Lemma lookupCriteriaValues_hit value keyId w id :
  criteriaValues w !! (keyId +:+ ":" +:+ toStr env (heap w) value) = Some id →
  lookupCriteriaValues env value keyId w = (Resolved [id], w).
Proof.
  intros Hhit. unfold lookupCriteriaValues. unchain. by rewrite Hhit.
Qed.

Lemma lookupCriteriaValues_replay value keyId :
  replayable (lookupCriteriaValues env value keyId).
Proof.
  intros w ids w1 Hrun.
  assert (settled w w1) as Hset.
  { eapply run_settled; [apply lookupCriteriaValues_grows| |done].
    apply HeapConst.lookupCriteriaValues_heap. }
  split; [done|].
  intros w2 [Hg Hh].
  apply CacheFacts.lookupCriteriaValues_stored in Hrun as (id & -> & Hst).
  apply lookupCriteriaValues_hit.
  rewrite Hh, (proj2 Hset).
  eapply lookup_weaken; [done|apply (Hg criteriaValueStore)].
Qed.

Lemma getCriteria_replay criteria : replayable (getCriteria env criteria).
Proof.
  unfold getCriteria.
  apply replay_then; [apply replay_read_heap|]. intros h.
  apply replay_then; [|intros ps].
  { apply replay_map. intros pair. unfold _lookupKeyInPair.
    apply replay_then; [apply lookupCriteriaKey_replay|].
    intros ?. apply replay_resolve. }
  apply replay_then; [|intros qs; apply replay_resolve].
  apply replay_map. intros pair. unfold _lookupValueInPair.
  apply replay_then; [apply lookupCriteriaValues_replay|].
  intros ?. apply replay_resolve.
Qed.
End lookups.

End ReplayFacts.

(** X7.  [getAdUnit] reads the ad unit store under the string conversion
    of the statement, which is the same for every statement.  In a world
    whose store has no entry under that string, every call asks the remote
    platform, also for a name that the store holds; a call that resolves
    puts the id under the name, in place of what was there; and as long as
    the name itself is not that string, the store still has no entry under
    it afterwards, so the next call asks again.  In a world whose store has
    such an entry, every call resolves with it, whatever the conditions,
    without asking. *)
Theorem getAdUnit_never_finds_what_it_stored (env : Env)
    (conditions : gmap string val) (w : World) :
  (adUnits w !! "[object Object]" = None →
   remoteCalls (getAdUnit env conditions w).2
   = remoteCalls w
       ++ [{| service := "InventoryService";
              method := "getAdUnitsByStatement";
              input := _makeQuery env (heap w) conditions AD_UNIT_FIELDS |}]
   ∧ (∀ id w', getAdUnit env conditions w = (Resolved id, w') →
               ∃ k, key_of_val env (heap w) (cond conditions "name") = Some k
                    ∧ adUnits w' = <[k:=id]> (adUnits w))
   ∧ (key_of_val env (heap w) (cond conditions "name")
      ≠ Some "[object Object]" →
      adUnits (getAdUnit env conditions w).2 !! "[object Object]" = None))
  ∧ (∀ id, adUnits w !! "[object Object]" = Some id →
           getAdUnit env conditions w = (Resolved id, w)).
Proof.
  split.
  - intros Hmiss. unfold getAdUnit, key_of_statement. unchain.
    rewrite Hmiss. split_and!.
    + repeat (case_match; simplify_eq/=; try done).
    + intros id w' Hrun.
      repeat (case_match; simplify_eq/=; try done). eauto.
    + intros Hkey.
      repeat (case_match; simplify_eq/=; try done).
      rewrite lookup_insert_ne; [done|congruence].
  - intros id Hhit. unfold getAdUnit, key_of_statement. unchain.
    by rewrite Hhit.
Qed.

Lemma getAdUnit_never_finds_what_it_stored_witness :
  (adUnits Runs.first_adUnit.2 !! "TV2no" = Some "21661848134"
   ∧ length (remoteCalls Runs.second_adUnit.2) = 2
   ∧ (∃ k, key_of_val Scenario.mock_env (heap Runs.first_adUnit.2)
             (cond Runs.adUnit_conditions "name") = Some k
           ∧ adUnits Runs.second_adUnit.2
             = <[k:="21661848134"]> (adUnits Runs.first_adUnit.2))
   ∧ adUnits Runs.second_adUnit.2 !! "[object Object]" = None)
  ∧ getAdUnit Scenario.mock_env Runs.adUnit_conditions Worlds.poisoned
    = (Resolved "1", Worlds.poisoned).
Proof.
  split.
  - destruct (proj1 (getAdUnit_never_finds_what_it_stored
                       Scenario.mock_env Runs.adUnit_conditions
                       Runs.first_adUnit.2) ltac:(by vm_compute))
      as (Hcalls & Hput & Hmiss).
    split_and!.
    + by vm_compute.
    + unfold Runs.second_adUnit. rewrite Hcalls. by vm_compute.
    + apply (Hput "21661848134" Runs.second_adUnit.2). by vm_compute.
    + apply Hmiss. intros Hkey. vm_compute in Hkey. discriminate Hkey.
  - apply (proj2 (getAdUnit_never_finds_what_it_stored
                    Scenario.mock_env Runs.adUnit_conditions Worlds.poisoned)).
    by vm_compute.
Defined.

(** X8.  The lookups that go through a store never remove or change an
    entry of any store: what [lookupCriteriaKey], [lookupLabel],
    [getOrder], [lookupCriteriaValues] and [getCriteria] leave holds every
    entry there was, whether they resolve or are rejected.  The same holds
    of [prepareOrder] and [prepareCreative], and of [prepareLineItem] for
    every store but the one of the ad units. *)
Theorem lookups_keep_the_stored_entries (env : Env) (w : World) :
  (∀ name, Invariants.stores_grow w (lookupCriteriaKey env name w).2)
  ∧ (∀ name, Invariants.stores_grow w (lookupLabel env name w).2)
  ∧ (∀ conditions, Invariants.stores_grow w (getOrder env conditions w).2)
  ∧ (∀ value keyId,
       Invariants.stores_grow w (lookupCriteriaValues env value keyId w).2)
  ∧ (∀ criteria, Invariants.stores_grow w (getCriteria env criteria w).2)
  ∧ (∀ order, Invariants.stores_grow w (prepareOrder env order w).2)
  ∧ (∀ creative, Invariants.stores_grow w (prepareCreative env creative w).2)
  ∧ (∀ lineItem, Invariants.caches_grow w (prepareLineItem env lineItem w).2).
Proof.
  split_and!; intros.
  - apply StepFacts.lookupCriteriaKey_grows.
  - apply StepFacts.lookupLabel_grows.
  - apply StepFacts.getOrder_grows.
  - apply StepFacts.lookupCriteriaValues_grows.
  - apply StepFacts.getCriteria_grows.
  - apply StepFacts.replacePartnerName_grows.
  - apply StepFacts.replacePartnerName_grows.
  - apply StepFacts.prepareLineItem_caches.
Qed.

(** X9.  A resolution of criteria that has succeeded is answered from the
    stores from then on: in the world it left, and in every later world in
    which the stores have only grown and the heap is the same,
    [getCriteria] resolves with the same entries and leaves the world as it
    is, so that it asks the remote platform nothing and writes nothing to
    the console.  The same holds of [lookupCriteriaValues] and of
    [lookupLabel]. *)
Theorem resolved_criteria_are_answered_from_the_stores (env : Env)
    (w w1 w2 : World) :
  Invariants.settled w1 w2 →
  (∀ criteria entries,
     getCriteria env criteria w = (Resolved entries, w1) →
     getCriteria env criteria w1 = (Resolved entries, w1)
     ∧ getCriteria env criteria w2 = (Resolved entries, w2))
  ∧ (∀ value keyId ids,
       lookupCriteriaValues env value keyId w = (Resolved ids, w1) →
       lookupCriteriaValues env value keyId w2 = (Resolved ids, w2))
  ∧ (∀ name id,
       lookupLabel env name w = (Resolved id, w1) →
       lookupLabel env name w2 = (Resolved id, w2)).
Proof.
  intros Hlater. split_and!.
  - intros criteria entries Hrun.
    destruct (ReplayFacts.getCriteria_replay env criteria _ _ _ Hrun)
      as [_ Hreplay].
    split; apply Hreplay; [apply StepFacts.settled_preorder|done].
  - intros value keyId ids Hrun.
    by apply (ReplayFacts.lookupCriteriaValues_replay env value keyId _ _ _ Hrun).
  - intros name id Hrun.
    by apply (ReplayFacts.lookupLabel_replay env name _ _ _ Hrun).
Qed.

Lemma resolved_criteria_are_answered_from_the_stores_witness :
  (length (remoteCalls Worlds.after_criteria) = 2
   ∧ getCriteria Scenario.mock_env (VRef 0) Worlds.after_criteria
     = (Resolved [ {| keyId := "K1"; valueIds := ["V1"] |} ],
        Worlds.after_criteria))
  ∧ lookupCriteriaValues Scenario.mock_env (VStr "0.50") "K1"
      Worlds.after_value_lookup
    = (Resolved ["V1"], Worlds.after_value_lookup)
  ∧ lookupLabel Scenario.mock_env "sports" Worlds.after_label_lookup
    = (Resolved "L7", Worlds.after_label_lookup).
Proof.
  split_and!.
  - by vm_compute.
  - apply (proj1 (resolved_criteria_are_answered_from_the_stores
                    Scenario.mock_env Worlds.criteria_world
                    Worlds.after_criteria Worlds.after_criteria
                    ltac:(split; [intros st|]; reflexivity))
             (VRef 0) [ {| keyId := "K1"; valueIds := ["V1"] |} ]).
    by vm_compute.
  - apply (proj1 (proj2 (resolved_criteria_are_answered_from_the_stores
                           Scenario.mock_env Worlds.criteria_world
                           Worlds.after_value_lookup Worlds.after_value_lookup
                           ltac:(split; [intros st|]; reflexivity)))
             (VStr "0.50") "K1" ["V1"]).
    by vm_compute.
  - apply (proj2 (proj2 (resolved_criteria_are_answered_from_the_stores
                           Scenario.mock_env empty_world
                           Worlds.after_label_lookup Worlds.after_label_lookup
                           ltac:(split; [intros st|]; reflexivity)))
             "sports" "L7").
    by vm_compute.
Defined.

(** X10.  Every lookup asks the remote platform at most once per call, a
    lookup found in the store included, and [getCriteria] at most twice for
    each pair of the criteria: the calls made so far are kept, in order, and
    at most that many are added, whether the lookup resolves or is
    rejected. *)
Theorem lookups_ask_the_remote_at_most_once (env : Env) (w : World) :
  (∀ name, Invariants.calls_extend 1 w (lookupCriteriaKey env name w).2)
  ∧ (∀ name, Invariants.calls_extend 1 w (lookupLabel env name w).2)
  ∧ (∀ value keyId,
       Invariants.calls_extend 1 w (lookupCriteriaValues env value keyId w).2)
  ∧ (∀ conditions, Invariants.calls_extend 1 w (getOrder env conditions w).2)
  ∧ (∀ conditions, Invariants.calls_extend 1 w (getAdUnit env conditions w).2)
  ∧ (∀ conditions,
       Invariants.calls_extend 1 w (getAdvertiser env conditions w).2)
  ∧ (∀ criteria,
       Invariants.calls_extend (2 * length (pairs (heap w) criteria)) w
         (getCriteria env criteria w).2).
Proof.
  split_and!; intros.
  - apply CallFacts.lookupCriteriaKey_calls.
  - apply CallFacts.lookupLabel_calls.
  - apply CallFacts.lookupCriteriaValues_calls.
  - apply CallFacts.getOrder_calls.
  - apply CallFacts.getAdUnit_calls.
  - apply CallFacts.getAdvertiser_calls.
  - apply CallFacts.getCriteria_calls.
Qed.

(** ** The entries of resolved criteria *)

Module EntryFacts.
Import Invariants StepFacts.

Lemma steps_settled {A} (p : Promise A) :
  steps stores_grow p → Alias.heap_const p → steps settled p.
Proof. intros Hg Hh w. split; [apply Hg|apply Hh]. Qed.

(** What a mapped function leaves in the world for each of its results
    is still there when [map_] is done, if the steps of the function keep
    it. *)
Lemma map_Forall2 {A B} (R : World → World → Prop) `{!PreOrder R}
    (f : A → Promise B) (Q : A → B → World → Prop) (w0 : World) :
  (∀ x, steps R (f x)) →
  (∀ x y w w', R w0 w → f x w = (Resolved y, w') → Q x y w') →
  (∀ x y w w', Q x y w → R w w' → Q x y w') →
  ∀ items w ys w',
    R w0 w → map_ f items w = (Resolved ys, w') →
    Forall2 (λ x y, Q x y w') items ys.
Proof.
  intros Hsteps Hf Hkeep items.
  induction items as [|x items IH]; intros w ys w' Hw Hrun.
  - unfold map_, resolve in Hrun. simplify_eq. constructor.
  - simpl in Hrun. unfold then_ at 1 in Hrun.
    destruct (f x w) as [[y|e] w1] eqn:Hx; [|done].
    unfold then_ at 1 in Hrun.
    destruct (map_ f items w1) as [[ys'|e] w2] eqn:Hrest; [|done].
    unfold resolve in Hrun. simplify_eq.
    assert (R w w1) as Hw1.
    { pose proof (Hsteps x w) as Hstep. by rewrite Hx in Hstep. }
    assert (R w1 w') as Hw'.
    { pose proof (steps_map R f items Hsteps w1) as Hstep.
      by rewrite Hrest in Hstep. }
    constructor.
    + eapply Hkeep; [by eapply Hf|done].
    + eapply IH; [|done]. by etrans.
Qed.

Section entries.
Context (env : Env).

(** The id of a resolved lookup is the first match. *)
Lemma lookupCriteriaValues_first value keyId w ids w' :
  lookupCriteriaValues env value keyId w = (Resolved ids, w') →
  ∃ id, ids = [id] ∧ CriteriaSpec.first_match env value keyId w id.
Proof.
  unfold lookupCriteriaValues, getCriteriaValue, CriteriaSpec.first_match,
    CriteriaSpec.value_call.
  rewrite CacheFacts.cond_value_name, CacheFacts.cond_value_key.
  unchain. intros Hrun.
  destruct (criteriaValues w !! _) as [stored|] eqn:Hstore.
  - simplify_eq. by exists stored.
  - destruct (remote env _ _) as [response|reason] eqn:Hremote;
      simpl in Hrun; [|done].
    destruct (results response) as [[|r rest]|] eqn:Hrs; simpl in Hrun;
      try done.
    destruct (result_id r) as [i|] eqn:Hid; simpl in Hrun; [|done].
    case_decide; simpl in Hrun; [done|].
    split_run; (eexists; split; [done|]; by exists response, r, rest).
Qed.

Lemma lookupKeyInPair_settled pair : steps settled (_lookupKeyInPair env pair).
Proof.
  apply steps_settled.
  - unfold _lookupKeyInPair.
    apply steps_then; [apply _|apply lookupCriteriaKey_grows|].
    intros keyId. apply steps_resolve. apply _.
  - unfold _lookupKeyInPair. HeapConst.heap_const.
Qed.

Lemma lookupValueInPair_settled pair :
  steps settled (_lookupValueInPair env pair).
Proof.
  apply steps_settled.
  - unfold _lookupValueInPair.
    apply steps_then; [apply _|apply lookupCriteriaValues_grows|].
    intros ids. apply steps_resolve. apply _.
  - unfold _lookupValueInPair. HeapConst.heap_const.
Qed.

(** The entries of a resolved [getCriteria], pair by pair: the key id is
    the one stored for the key, and the value ids are the one id stored
    for the value under that key id. *)
Lemma getCriteria_entries criteria w entries w' :
  getCriteria env criteria w = (Resolved entries, w') →
  Forall2 (λ pair entry,
             criteriaKeys w' !! pair.1 = Some (keyId entry)
             ∧ ∃ id, valueIds entry = [id]
                     ∧ criteriaValues w'
                         !! (keyId entry +:+ ":" +:+ toStr env (heap w) pair.2)
                       = Some id)
    (pairs (heap w) criteria) entries.
Proof.
  unfold getCriteria. unfold then_ at 1. unfold read_heap. simpl.
  unfold then_ at 1.
  destruct (map_ (_lookupKeyInPair env) (pairs (heap w) criteria) w)
    as [[ps|e] w1] eqn:Hkeys; [|done].
  unfold then_ at 1.
  destruct (map_ (_lookupValueInPair env) ps w1) as [[qs|e] w2] eqn:Hvals;
    [|done].
  unfold resolve. intros Hrun. simplify_eq.
  assert (settled w w1) as Hw1.
  { pose proof (steps_map settled _ (pairs (heap w) criteria)
                  lookupKeyInPair_settled w) as Hstep.
    by rewrite Hkeys in Hstep. }
  assert (settled w1 w') as Hw'.
  { pose proof (steps_map settled _ ps lookupValueInPair_settled w1)
      as Hstep.
    by rewrite Hvals in Hstep. }
  pose proof (map_Forall2 settled (_lookupKeyInPair env)
                (λ pair p w2, p.2 = pair.2
                              ∧ criteriaKeys w2 !! pair.1 = Some p.1) w
                lookupKeyInPair_settled) as Hk.
  specialize (Hk ltac:(
    intros pair p wa wb _ Hp; unfold _lookupKeyInPair in Hp;
    unfold then_ at 1 in Hp;
    destruct (lookupCriteriaKey env pair.1 wa) as [[k|?] wc] eqn:Hl;
      [|done];
    unfold resolve in Hp; simplify_eq; split; [done|];
    by eapply CacheFacts.lookupCriteriaKey_stored)).
  specialize (Hk ltac:(
    intros pair p wa wb [Hp Hstored] [Hg _]; split; [done|];
    eapply lookup_weaken; [done|apply (Hg criteriaKeyStore)])).
  specialize (Hk _ w ps w1 ltac:(reflexivity) Hkeys).
  pose proof (map_Forall2 settled (_lookupValueInPair env)
                (λ p q w2, q.1 = p.1
                           ∧ ∃ id, q.2 = [id]
                               ∧ criteriaValues w2
                                   !! (p.1 +:+ ":" +:+ toStr env (heap w) p.2)
                                 = Some id) w1
                lookupValueInPair_settled) as Hv.
  specialize (Hv ltac:(
    intros p q wa wb [_ Hheap] Hq; unfold _lookupValueInPair in Hq;
    unfold then_ at 1 in Hq;
    destruct (lookupCriteriaValues env p.2 p.1 wa) as [[ids|?] wc] eqn:Hl;
      [|done];
    unfold resolve in Hq; simplify_eq; split; [done|];
    apply CacheFacts.lookupCriteriaValues_stored in Hl as (id & -> & Hid);
    exists id; split; [done|];
    destruct Hw1 as [_ Hh1]; by rewrite <- Hh1, <- Hheap)).
  specialize (Hv ltac:(
    intros p q wa wb [Hq (id & Hids & Hstored)] [Hg _]; split; [done|];
    exists id; split; [done|];
    eapply lookup_weaken; [done|apply (Hg criteriaValueStore)])).
  specialize (Hv _ w1 qs w' ltac:(reflexivity) Hvals).
  apply Forall2_fmap_r.
  clear Hkeys Hvals.
  revert qs Hv. induction Hk as [|pair p prs ps [Hp Hkey] Hk IH];
    intros qs Hv.
  - apply Forall2_nil_inv_l in Hv as ->. constructor.
  - apply Forall2_cons_inv_l in Hv as (q & qs' & [Hq (id & Hids & Hid)] & Hv & ->).
    constructor; [|by apply IH].
    destruct q as [k ids]. simpl in *. subst. split.
    + eapply lookup_weaken; [done|]. destruct Hw' as [Hg _].
      apply (Hg criteriaKeyStore).
    + exists id. by rewrite <- Hp.
Qed.
End entries.

End EntryFacts.

(** C10.  The entries of a resolved [getCriteria] stand for the pairs of
    the criteria, one for one and in their order; the key id of an entry is
    the id stored for the key of its pair, and its value ids are a list of
    exactly one id, the one stored for the value of the pair under that key
    id.  The one id of a resolved [lookupCriteriaValues] is the first match:
    the id the store held for the value or, the store holding none, the id
    of the first result of the remote platform, however many results
    follow it. *)
Theorem getCriteria_entries_have_one_value (env : Env) (criteria : val)
    (w w' : World) (entries : list Criterion) :
  getCriteria env criteria w = (Resolved entries, w') →
  Forall (λ entry, length (valueIds entry) = 1) entries
  ∧ length entries = length (pairs (heap w) criteria)
  ∧ Forall2 (λ pair entry,
               criteriaKeys w' !! pair.1 = Some (keyId entry)
               ∧ ∃ id, valueIds entry = [id]
                       ∧ criteriaValues w'
                           !! (keyId entry +:+ ":" +:+ toStr env (heap w) pair.2)
                         = Some id)
      (pairs (heap w) criteria) entries
  ∧ ∀ value keyId w1 ids w2,
      lookupCriteriaValues env value keyId w1 = (Resolved ids, w2) →
      ∃ id, ids = [id] ∧ CriteriaSpec.first_match env value keyId w1 id.
Proof.
  intros Hrun.
  pose proof (EntryFacts.getCriteria_entries env _ _ _ _ Hrun) as Hentries.
  split_and!.
  - clear Hrun.
    induction Hentries as [|pair entry ps es [_ (id & Hid & _)] _ IH];
      constructor; [by rewrite Hid|done].
  - symmetry. by eapply Forall2_length.
  - done.
  - apply EntryFacts.lookupCriteriaValues_first.
Qed.

Lemma getCriteria_entries_have_one_value_witness :
  getCriteria Scenario.crowded_env (VRef 7) Scenario.lineItem_world
  = (Resolved [ {| keyId := "M1"; valueIds := ["M1"] |} ],
     (getCriteria Scenario.crowded_env (VRef 7) Scenario.lineItem_world).2)
  ∧ Forall (λ entry, length (valueIds entry) = 1)
      [ {| keyId := "M1"; valueIds := ["M1"] |} ]
  ∧ (∃ id, ["M1"] = [id]
           ∧ CriteriaSpec.first_match Scenario.crowded_env (VStr "0.50") "M1"
               Scenario.lineItem_world id).
Proof.
  assert (getCriteria Scenario.crowded_env (VRef 7) Scenario.lineItem_world
          = (Resolved [ {| keyId := "M1"; valueIds := ["M1"] |} ],
             (getCriteria Scenario.crowded_env (VRef 7)
                Scenario.lineItem_world).2)) as Hrun by (by vm_compute).
  destruct (getCriteria_entries_have_one_value Scenario.crowded_env (VRef 7)
              Scenario.lineItem_world _ _ Hrun) as (Hone & _ & _ & Hfirst).
  split_and!; [exact Hrun|exact Hone|].
  apply (Hfirst (VStr "0.50") "M1" Scenario.lineItem_world ["M1"]
           (lookupCriteriaValues Scenario.crowded_env (VStr "0.50") "M1"
              Scenario.lineItem_world).2).
  by vm_compute.
Defined.

(** ** Object literals on the heap *)

Module LiteralFacts.
Import Shape Literal.

Section parts.
Context (alloc : tree → list hobj → val * list hobj).

Lemma alloc_items_prefix ts h :
  Forall (λ t, ∀ h, h `prefix_of` (alloc t h).2) ts →
  h `prefix_of` (alloc_items alloc ts h).2.
Proof.
  intros Hall. revert h.
  induction Hall as [|t ts Ht _ IH]; intros h; simpl; [done|].
  specialize (Ht h). destruct (alloc t h) as [v h1]. simpl in Ht.
  specialize (IH h1). destruct (alloc_items alloc ts h1) as [vs h2].
  simpl in *. by etrans.
Qed.

Lemma alloc_named_prefix ps h :
  Forall (λ kt, ∀ h, h `prefix_of` (alloc kt.2 h).2) ps →
  h `prefix_of` (alloc_named alloc ps h).2.
Proof.
  intros Hall. revert h.
  induction Hall as [|[k t] ps Ht _ IH]; intros h; simpl; [done|].
  specialize (Ht h). simpl in Ht. destruct (alloc t h) as [v h1].
  simpl in Ht.
  specialize (IH h1). destruct (alloc_named alloc ps h1) as [vs h2].
  simpl in *. by etrans.
Qed.

(** What is written under a name in a literal is what the object has
    under it, when it is a value; a name that is not written is not a
    property of the object. *)
Lemma alloc_named_absent ps h name :
  literal_prop name ps = None →
  lookup_prop name (alloc_named alloc ps h).1 = VUndef.
Proof.
  revert h. induction ps as [|[k t] ps IH]; intros h Hnone; simpl;
    [done|].
  simpl in Hnone. case_decide as Hk; [done|].
  destruct (alloc t h) as [v h1].
  specialize (IH h1 Hnone). destruct (alloc_named alloc ps h1) as [vs h2].
  simpl in *. by rewrite decide_False.
Qed.

Lemma alloc_named_prim ps h name v :
  (∀ v h, alloc (TPrim v) h = (v, h)) →
  literal_prop name ps = Some (TPrim v) →
  lookup_prop name (alloc_named alloc ps h).1 = v.
Proof.
  intros Hprim. revert h.
  induction ps as [|[k t] ps IH]; intros h Hsome; simpl; [done|].
  simpl in Hsome. case_decide as Hk.
  - simplify_eq. rewrite Hprim.
    destruct (alloc_named alloc ps h) as [vs h2]. simpl.
    by rewrite decide_True.
  - destruct (alloc t h) as [v' h1].
    specialize (IH h1 Hsome). destruct (alloc_named alloc ps h1) as [vs h2].
    simpl in *. by rewrite decide_False.
Qed.
End parts.

Lemma tree_induction (P : tree → Prop) :
  (∀ v, P (TPrim v)) →
  (∀ props, Forall (λ kt, P kt.2) props → P (TObj props)) →
  (∀ elems extras,
     Forall P elems → Forall (λ kt, P kt.2) extras → P (TArr elems extras)) →
  ∀ t, P t.
Proof.
  intros Hp Ho Ha. fix IH 1. intros [v|props|elems extras].
  - apply Hp.
  - apply Ho. induction props as [|[k t] props IHp]; constructor;
      [apply IH|apply IHp].
  - apply Ha.
    + induction elems as [|t elems IHe]; constructor; [apply IH|apply IHe].
    + induction extras as [|[k t] extras IHx]; constructor;
        [apply IH|apply IHx].
Qed.

(** The evaluation of a literal adds cells at the end of the heap. *)
Lemma alloc_tree_prefix t : ∀ h, h `prefix_of` (alloc_tree t h).2.
Proof.
  induction t as [v|props IH|elems extras IHe IHx] using tree_induction;
    intros h; simpl.
  - done.
  - pose proof (alloc_named_prefix alloc_tree props h IH) as Hpre.
    destruct (alloc_named alloc_tree props h) as [ps h1]. simpl in *.
    etrans; [done|]. by apply prefix_app_r.
  - pose proof (alloc_items_prefix alloc_tree elems h IHe) as Hpre1.
    destruct (alloc_items alloc_tree elems h) as [es h1]. simpl in *.
    pose proof (alloc_named_prefix alloc_tree extras h1 IHx) as Hpre2.
    destruct (alloc_named alloc_tree extras h1) as [xs h2]. simpl in *.
    etrans; [done|]. etrans; [done|]. by apply prefix_app_r.
Qed.

(** The object a literal makes. *)
Lemma build_object props w :
  ∃ ps h1,
    build (TObj props) w
    = (Resolved (VRef (length h1)), set_heap (h1 ++ [HObj ps]) w)
    ∧ heap w `prefix_of` h1
    ∧ (∀ name, literal_prop name props = None → lookup_prop name ps = VUndef)
    ∧ (∀ name v, literal_prop name props = Some (TPrim v) →
                 lookup_prop name ps = v).
Proof.
  unfold build. simpl.
  pose proof (alloc_named_prefix alloc_tree props (heap w)
                ltac:(apply Forall_forall; intros; apply alloc_tree_prefix))
    as Hpre.
  pose proof (alloc_named_absent alloc_tree props (heap w)) as Habs.
  pose proof (alloc_named_prim alloc_tree props (heap w)) as Hprim.
  destruct (alloc_named alloc_tree props (heap w)) as [ps h1]. simpl in *.
  exists ps, h1. split_and!; try done.
  intros name v. by apply Hprim.
Qed.

Lemma prop_of_prefix h h' v name :
  h `prefix_of` h' → val_in (length h) v →
  prop_of h' v name = prop_of h v name.
Proof.
  intros [k ->] Hin. destruct v as [| | | | | |l]; try done.
  simpl in *. by rewrite lookup_app_l.
Qed.

Lemma prop_of_defined h v name :
  prop_of h v name ≠ VUndef → val_in (length h) v.
Proof.
  destruct v as [| | | | | |l]; try done. simpl.
  destruct (h !! l) eqn:Hl; [|done]. intros _. by eapply lookup_lt_Some.
Qed.

Lemma prop_of_last h ps name :
  prop_of (h ++ [HObj ps]) (VRef (length h)) name = lookup_prop name ps.
Proof. simpl. by rewrite list_lookup_middle. Qed.

End LiteralFacts.

(** ** The line items of the script *)

Module CombinationFacts.
Import Shape Literal Objects LiteralFacts.

Section script.
Context (env : Env) (SIZES : list string) (microAmount : val → string).

(** Whatever it is given, [formatLineItem] writes no [orderName]. *)
Lemma formatLineItem_props h (lineItem : gmap string val) :
  ∃ props,
    formatLineItem env SIZES microAmount h lineItem = TObj props
    ∧ literal_prop "orderName" props = None
    ∧ literal_prop "name" props
      = Some (TPrim (VStr ("PREBID_"
                             +:+ join_item env h
                                   (default VUndef (lineItem !! "cpm")))))
    ∧ literal_prop "customCriteriaKVPairs" props
      = Some (TPrim (default VUndef (lineItem !! "customCriteriaKVPairs")))
    ∧ literal_prop "date" props
      = Some (TPrim (default VUndef (lineItem !! "date")))
    ∧ literal_prop "adUnitName" props
      = Some (TPrim (default VUndef (lineItem !! "adUnitName")))
    ∧ literal_prop "orderId" props
      = Some (TPrim (default VUndef (lineItem !! "orderId"))).
Proof. eexists. split; [reflexivity|]. split_and!; reflexivity. Qed.

Lemma line_item_for_prefix h h' cpm item :
  h `prefix_of` h' → line_item_for h cpm item → line_item_for h' cpm item.
Proof.
  intros Hpre ((l & -> & Hl) & Hname & Hkv & Hdate & Hunit & Hno & Hid).
  assert (val_in (length h) (VRef l)) as Hin by done.
  assert (val_in (length h) (prop_of h (VRef l) "customCriteriaKVPairs"))
    as Hin'.
  { apply (prop_of_defined _ _ "hb_pb"). by rewrite Hkv. }
  unfold line_item_for.
  rewrite !(prop_of_prefix h h' (VRef l)) by done.
  rewrite (prop_of_prefix h h' _ "hb_pb") by done.
  split_and!; try done.
  exists l. split; [done|]. destruct Hpre as [k ->].
  rewrite length_app. lia.
Qed.

Lemma combination_run cpm w :
  ∃ item h',
    combination env SIZES microAmount cpm w
    = (Resolved item, set_heap h' w)
    ∧ heap w `prefix_of` h'
    ∧ line_item_for h' cpm item.
Proof.
  unfold combination. unfold then_ at 1.
  change (build (TObj [("hb_pb", TPrim (VStr cpm))]) w)
    with (Resolved (VRef (length (heap w))),
          set_heap (heap w ++ [HObj [("hb_pb", VStr cpm)]]) w).
  cbn iota beta. unfold then_ at 1, read_heap. cbn iota beta.
  set (w1 := set_heap _ w).
  set (args := ({[ "cpm" := VStr cpm;
                   "orderName" := VStr "yo_first_order";
                   "customCriteriaKVPairs" := VRef (length (heap w));
                   "date" := VStr "10-26-2017, 15:00:00";
                   "adUnitName" := VStr "TV2no" ]} : gmap string val)).
  destruct (formatLineItem_props (heap w1) args)
    as (props & -> & Hno & Hname & Hkv & Hdate & Hunit & Hid).
  destruct (build_object props w1) as (ps & h1 & -> & Hpre & Habs & Hprim).
  assert (heap w1 = heap w ++ [HObj [("hb_pb", VStr cpm)]]) as Hw1
    by (by destruct w).
  exists (VRef (length h1)), (h1 ++ [HObj ps]). split_and!.
  - reflexivity.
  - transitivity (heap w1); [rewrite Hw1; by apply prefix_app_r|].
    transitivity h1; [done|by apply prefix_app_r].
  - unfold line_item_for. rewrite !prop_of_last.
    rewrite (Hprim _ _ Hname), (Hprim _ _ Hkv), (Hprim _ _ Hdate),
      (Hprim _ _ Hunit), (Hprim _ _ Hid), (Habs _ Hno).
    split_and!; try done.
    + exists (length h1). split; [done|]. rewrite length_app. simpl. lia.
    + change (default VUndef (args !! "customCriteriaKVPairs"))
        with (VRef (length (heap w))).
      rewrite (prop_of_prefix (heap w1) (h1 ++ [HObj ps]));
        [|transitivity h1; [done|by apply prefix_app_r]
         |rewrite Hw1, length_app; simpl; lia].
      rewrite Hw1. by rewrite prop_of_last.
Qed.

Lemma getCombinations_run pricePoints w :
  ∃ items h',
    getCombinations env SIZES microAmount pricePoints w
    = (Resolved items, set_heap h' w)
    ∧ heap w `prefix_of` h'
    ∧ Forall2 (line_item_for h') pricePoints items.
Proof.
  unfold getCombinations. revert w.
  induction pricePoints as [|cpm pricePoints IH]; intros w; simpl.
  - exists [], (heap w). split_and!; try done.
    unfold resolve. f_equal. by destruct w.
  - unfold then_ at 1.
    destruct (combination_run cpm w) as (item & h1 & -> & Hpre1 & Hitem).
    unfold then_ at 1.
    destruct (IH (set_heap h1 w)) as (items & h2 & -> & Hpre2 & Hitems).
    simpl in Hpre2.
    exists (item :: items), h2. split_and!.
    + reflexivity.
    + by etrans.
    + constructor; [|done]. by eapply line_item_for_prefix.
Qed.

(** A line item of the script is rejected in every world that has kept
    its cell. *)
Lemma line_item_rejected h cpm item w :
  line_item_for h cpm item → Alias.preserved h (heap w) →
  ∃ e w', prepareLineItem env item w = (Rejected e, w').
Proof.
  intros ((l & -> & Hl) & _ & _ & _ & _ & Hno & _) Hkept.
  apply MissingFacts.prepareLineItem_missing.
  simpl in *. destruct (h !! l) as [o|] eqn:Ho.
  - by rewrite (Hkept _ _ Ho).
  - apply lookup_ge_None in Ho. lia.
Qed.
End script.

End CombinationFacts.

(** X11.  For every list of price points, [getCombinations] of the script
    that creates line items makes one line item per price point, in their
    order, and changes nothing but the heap, to which it adds.  The line
    item of a price point has the name [PREBID_] followed by the price
    point, the price point as the value of [hb_pb] in its criteria, the
    date and the ad unit name of the script, an [orderId] that is
    [undefined], and no [orderName]: [formatLineItem] does not copy it. *)
Theorem getCombinations_line_items (env : Env) (SIZES : list string)
    (microAmount : val → string) (pricePoints : list string) (w : World) :
  ∃ items h',
    Objects.getCombinations env SIZES microAmount pricePoints w
    = (Resolved items, set_heap h' w)
    ∧ heap w `prefix_of` h'
    ∧ length items = length pricePoints
    ∧ ∀ i cpm item,
        pricePoints !! i = Some cpm → items !! i = Some item →
        Objects.line_item_for h' cpm item.
Proof.
  destruct (CombinationFacts.getCombinations_run env SIZES microAmount
              pricePoints w) as (items & h' & Hrun & Hpre & Hitems).
  exists items, h'. split_and!; try done.
  - symmetry. by eapply Forall2_length.
  - intros i cpm item Hcpm Hitem. by eapply Forall2_lookup_lr.
Qed.

Lemma getCombinations_line_items_witness :
  ∃ items h',
    Objects.getCombinations Scenario.mock_env ["300x250"] (λ _, "500000")
      ["0.50"] empty_world
    = (Resolved items, set_heap h' empty_world)
    ∧ length items = 1
    ∧ ∀ item, items !! 0 = Some item → Objects.line_item_for h' "0.50" item.
Proof.
  destruct (getCombinations_line_items Scenario.mock_env ["300x250"]
              (λ _, "500000") ["0.50"] empty_world)
    as (items & h' & Hrun & _ & Hlen & Hitems).
  exists items, h'. split_and!; [done|done|].
  intros item. by apply (Hitems 0 "0.50" item).
Defined.

(** X12.  No line item of that script can be prepared: in the world
    [getCombinations] leaves, and in every world that has kept the cells of
    that heap, [prepareLineItem] is rejected on each of them, whatever the
    remote platform answers.  So for a list of price points that is not
    empty the chain of the script, [getCombinations] followed by the map of
    [prepareLineItem], is rejected, and no line item is created. *)
Theorem script_line_items_are_never_prepared (env : Env) (SIZES : list string)
    (microAmount : val → string) (pricePoints : list string) (w : World) :
  (∀ items w1 item w2,
     Objects.getCombinations env SIZES microAmount pricePoints w
     = (Resolved items, w1) →
     item ∈ items → Alias.preserved (heap w1) (heap w2) →
     ∃ e w', prepareLineItem env item w2 = (Rejected e, w'))
  ∧ (pricePoints ≠ [] →
     ∃ e w',
       Objects.line_items_chain env SIZES microAmount pricePoints w
       = (Rejected e, w')).
Proof.
  destruct (CombinationFacts.getCombinations_run env SIZES microAmount
              pricePoints w) as (items & h' & Hrun & Hpre & Hitems).
  split.
  - intros items' w1 item w2 Hrun' Hin Hkept.
    rewrite Hrun in Hrun'. simplify_eq.
    apply list_elem_of_lookup in Hin as [i Hi].
    destruct (Forall2_lookup_r _ _ _ _ _ Hitems Hi) as (cpm & _ & Hfor).
    eapply CombinationFacts.line_item_rejected; [exact Hfor|].
    by destruct w.
  - intros Hne. unfold Objects.line_items_chain, then_. rewrite Hrun.
    destruct Hitems as [|cpm item cpms items' Hfor _]; [done|].
    simpl. unfold then_ at 1.
    destruct (CombinationFacts.line_item_rejected env h' cpm item
                (set_heap h' w) Hfor) as (e & w' & ->); [|eauto].
    intros l o Hl. by destruct w.
Qed.

Lemma script_line_items_are_never_prepared_witness :
  (∃ e w',
     prepareLineItem Scenario.mock_env (VRef 23) Worlds.combinations.2
     = (Rejected e, w'))
  ∧ ∃ e w',
      Objects.line_items_chain Scenario.mock_env ["300x250"]
        (λ _, "500000") ["0.50"] empty_world
      = (Rejected e, w').
Proof.
  split.
  - apply (proj1 (script_line_items_are_never_prepared Scenario.mock_env
                    ["300x250"] (λ _, "500000") ["0.50"] empty_world)
             [VRef 23] Worlds.combinations.2 (VRef 23) Worlds.combinations.2).
    + by vm_compute.
    + apply list_elem_of_here.
    + by intros l o Hl.
  - apply (proj2 (script_line_items_are_never_prepared Scenario.mock_env
                    ["300x250"] (λ _, "500000") ["0.50"] empty_world)).
    done.
Defined.

(** ** Orders and creatives *)

Module OrderFacts.
Import Shape Literal Objects LiteralFacts.

Lemma baseClone_primitive fuel v st :
  primitive v → baseClone fuel v st = Some (v, st).
Proof. intros Hv. destruct v; try done; by destruct fuel. Qed.

Lemma clone_list_primitive fuel vs st :
  Forall primitive vs → clone_list (baseClone fuel) vs st = Some (vs, st).
Proof.
  induction 1 as [|v vs Hv _ IH]; simpl; [done|].
  by rewrite baseClone_primitive, IH.
Qed.

(** The clone of an object whose properties are primitive values is a new
    object with the same properties. *)
Lemma cloneDeep_flat l props w :
  heap w !! l = Some (HObj props) → Forall primitive props.*2 →
  cloneDeep (VRef l) w
  = (Resolved (VRef (length (heap w))), set_heap (heap w ++ [HObj props]) w).
Proof.
  intros Hcell Hflat. unfold cloneDeep. simpl.
  rewrite lookup_empty, Hcell.
  rewrite clone_list_primitive by done. simpl.
  rewrite zip_fst_snd.
  rewrite insert_app_r_alt by done.
  by rewrite Nat.sub_diag.
Qed.

Section orders.
Context (env : Env).

(** The statement for a name that is not empty. *)
Lemma makeQuery_name h name :
  name ≠ EmptyString →
  _makeQuery env h {[ "name" := VStr name ]} ADVERTISER_FIELDS
  = {| filterStatement := "Where name like '" +:+ name +:+ "'" |}.
Proof.
  intros Hne. rewrite QueryFacts.makeQuery_filter.
  unfold ADVERTISER_FIELDS.
  rewrite !QueryFacts.value_clauses_cons.
  unfold cond. rewrite lookup_singleton_eq.
  rewrite !lookup_singleton_ne by done. simpl.
  assert (String.eqb name EmptyString = false) as -> by by apply String.eqb_neq.
  simpl. unfold QuerySpec.filter, QuerySpec.like_clause. simpl.
  reflexivity.
Qed.

(** [replacePartnerName] on an object of primitive values that names its
    partner, when the remote platform knows the partner. *)
Lemma replacePartnerName_flat l props w partner response r rest i :
  heap w !! l = Some (HObj props) → Forall primitive props.*2 →
  lookup_prop "partner" props = VStr partner → partner ≠ EmptyString →
  remote env (remoteCalls w)
    {| service := "CompanyService";
       method := "getCompaniesByStatement";
       input := {| filterStatement :=
                     "Where name like '" +:+ partner +:+ "'" |} |}
  = ApiResolve response →
  results response = Some (r :: rest) → result_id r = Some i → i ≠ EmptyString →
  ∃ w',
    replacePartnerName env (VRef l) w
    = (Resolved (VRef (length (heap w))), w')
    ∧ heap w'
      = heap w
          ++ [HObj (remove_prop "partner"
                      (assign_prop "advertiserId" (VStr i) props))]
    ∧ remoteCalls w'
      = remoteCalls w
          ++ [{| service := "CompanyService";
                 method := "getCompaniesByStatement";
                 input := {| filterStatement :=
                               "Where name like '" +:+ partner +:+ "'" |} |}]
    ∧ ∀ st, store_of st w' = store_of st w.
Proof.
  intros Hcell Hflat Hpartner Hne Hremote Hrs Hid Hi.
  unfold replacePartnerName. unfold then_ at 1.
  rewrite (cloneDeep_flat l props w Hcell Hflat).
  unfold then_ at 1, get_prop.
  assert (heap (set_heap (heap w ++ [HObj props]) w) !! length (heap w)
          = Some (HObj props)) as Hnew.
  { destruct w; simpl. by rewrite list_lookup_middle. }
  rewrite Hnew, Hpartner.
  unfold then_ at 1. unfold getAdvertiser.
  unfold then_ at 1, read_heap. cbn iota beta.
  rewrite makeQuery_name by done.
  unchain.
  assert (remoteCalls (set_heap (heap w ++ [HObj props]) w) = remoteCalls w)
    as Hcalls by (by destruct w).
  destruct w as [ck cv au os ls calls con h]. simpl in *.
  rewrite Hremote, Hrs. simpl. rewrite Hid.
  rewrite decide_False by done. simpl.
  rewrite list_lookup_middle by done. simpl.
  rewrite list_lookup_insert_eq by (rewrite length_app; simpl; lia).
  simpl. eexists. split; [reflexivity|]. simpl. split_and!.
  - rewrite list_insert_insert_eq.
    rewrite insert_app_r_alt by done.
    by rewrite Nat.sub_diag.
  - done.
  - by intros [].
Qed.
End orders.

End OrderFacts.

(** X13.  The chain of the script that creates an order, [formatOrder]
    followed by [prepareOrder]: for a name and a trafficker id that are
    primitive values and a partner name that is not empty, when the remote
    platform answers the query for the companies of that name with a first
    result of non-empty id, the order is prepared.  What [prepareOrder]
    resolves with is a new object with the properties [formatOrder] wrote,
    in their order, except that [advertiserId] is that id and [partner] is
    gone; one call was made to the remote platform and no store was
    touched. *)
Theorem formatted_order_is_prepared (env : Env) (w : World)
    (name traffickerId : val) (partner : string)
    (response : Response) (r : Result) (rest : list Result) (i : string) :
  Literal.primitive name → Literal.primitive traffickerId → partner ≠ EmptyString →
  remote env (remoteCalls w)
    {| service := "CompanyService";
       method := "getCompaniesByStatement";
       input := {| filterStatement :=
                     "Where name like '" +:+ partner +:+ "'" |} |}
  = ApiResolve response →
  results response = Some (r :: rest) → result_id r = Some i → i ≠ EmptyString →
  ∃ l w',
    Objects.order_chain env name traffickerId (VStr partner) w
    = (Resolved (VRef l), w')
    ∧ heap w' !! l
      = Some (HObj [("name", name);
                    ("unlimitedEndDateTime", VBool true);
                    ("status", VStr "DRAFT");
                    ("currencyCode", VStr "NOK");
                    ("advertiserId", VStr i);
                    ("traffickerId", traffickerId);
                    ("appliedLabels", VNull);
                    ("isProgrammatic", VBool false)])
    ∧ remoteCalls w'
      = remoteCalls w
          ++ [{| service := "CompanyService";
                 method := "getCompaniesByStatement";
                 input := {| filterStatement :=
                               "Where name like '" +:+ partner +:+ "'" |} |}]
    ∧ ∀ st, store_of st w' = store_of st w.
Proof.
  intros Hname Htr Hne Hremote Hrs Hid Hi.
  unfold Objects.order_chain, prepareOrder. unfold then_ at 1.
  set (props := [("name", name);
                 ("unlimitedEndDateTime", VBool true);
                 ("status", VStr "DRAFT");
                 ("currencyCode", VStr "NOK");
                 ("advertiserId", VNull);
                 ("traffickerId", traffickerId);
                 ("appliedLabels", VNull);
                 ("isProgrammatic", VBool false);
                 ("partner", VStr partner)]).
  change (Literal.build (Objects.formatOrder name traffickerId (VStr partner)) w)
    with (Resolved (VRef (length (heap w))),
          set_heap (heap w ++ [HObj props]) w).
  cbn iota beta.
  destruct (OrderFacts.replacePartnerName_flat env (length (heap w)) props
              (set_heap (heap w ++ [HObj props]) w) partner response r rest i)
    as (w' & Hrun & Hheap & Hcalls & Hstores); try done.
  { destruct w; simpl. by rewrite list_lookup_middle. }
  { repeat constructor; done. }
  eexists _, w'. split; [exact Hrun|]. split_and!.
  - rewrite Hheap. by rewrite list_lookup_middle.
  - rewrite Hcalls. by destruct w.
  - intros st. rewrite Hstores. by destruct w, st.
Qed.

Lemma formatted_order_is_prepared_witness :
  ∃ l w',
    Objects.order_chain Scenario.mock_env (VStr "Prebid_ros")
      (VStr "244654568") (VStr "Prebid") empty_world
    = (Resolved (VRef l), w')
    ∧ heap w' !! l
      = Some (HObj [("name", VStr "Prebid_ros");
                    ("unlimitedEndDateTime", VBool true);
                    ("status", VStr "DRAFT");
                    ("currencyCode", VStr "NOK");
                    ("advertiserId", VStr "4410");
                    ("traffickerId", VStr "244654568");
                    ("appliedLabels", VNull);
                    ("isProgrammatic", VBool false)]).
Proof.
  destruct (formatted_order_is_prepared Scenario.mock_env empty_world
              (VStr "Prebid_ros") (VStr "244654568") "Prebid"
              {| results := Some [ {| result_id := Some "4410" |} ] |}
              {| result_id := Some "4410" |} [] "4410")
    as (l & w' & Hrun & Hcell & _); try done.
  by exists l, w'.
Defined.

(** X14.  [replacePartnerName], and so [prepareOrder] and
    [prepareCreative], called on any value in any world and whether they
    resolve or are rejected, leave every object that existed before the
    call as it was, to any depth; what they resolve with is a new object,
    and nothing that can be reached from it existed before the call. *)
Theorem order_steps_clone_their_input (env : Env) :
  Shape.clones_input (replacePartnerName env)
  ∧ Shape.clones_input (prepareOrder env)
  ∧ Shape.clones_input (prepareCreative env).
Proof.
  split_and!; apply PipelineFacts.safe_clones_input; intros n v;
    apply PipelineFacts.safe_replacePartnerName.
Qed.

Lemma order_steps_clone_their_input_witness :
  Alias.preserved Scenario.order_heap (heap Runs.prepared_order.2)
  ∧ Shape.snapshot 2 (heap Runs.prepared_order.2) (VRef 1)
    = Shape.snapshot 2 Scenario.order_heap (VRef 1)
  ∧ Alias.isolated Scenario.order_heap (heap Runs.prepared_order.2) (VRef 2).
Proof.
  destruct (proj1 (proj2 (order_steps_clone_their_input Scenario.mock_env))
              (VRef 1) Scenario.order_world) as (Hpres & Hsnap & Hiso).
  split_and!.
  - exact Hpres.
  - apply Hsnap. by vm_compute.
  - apply Hiso. by vm_compute.
Defined.

(** ** Associations and their batches *)

Module AssociationFacts.
Import Batch Associations.

Section lists.
Context {A : Type}.
Implicit Types (array : list A) (arrays : list (list A)).

(** Arrays of one length, flattened. *)
Lemma concat_uniform_length c arrays :
  Forall (λ l, length l = c) arrays →
  length (concat arrays) = length arrays * c.
Proof.
  induction 1 as [|l arrays Hl _ IH]; simpl; [done|].
  rewrite length_app, IH, Hl. lia.
Qed.

Lemma concat_uniform_lookup c arrays i j l x :
  Forall (λ l, length l = c) arrays →
  arrays !! i = Some l → l !! j = Some x →
  concat arrays !! (i * c + j) = Some x.
Proof.
  intros Hall. revert i.
  induction Hall as [|l0 arrays Hl0 _ IH]; intros i Hi Hj; [done|].
  destruct i as [|i]; simpl in *.
  - simplify_eq. rewrite lookup_app_l; [done|]. by eapply lookup_lt_Some.
  - rewrite lookup_app_r by lia.
    replace (c + i * c + j - length l0) with (i * c + j) by lia.
    by apply IH.
Qed.

Lemma baseSlice_lookup array start size m :
  m < size → baseSlice array start (start + size) !! m = array !! (start + m).
Proof.
  intros Hm. unfold baseSlice.
  replace (start + size - start) with size by lia.
  rewrite lookup_take_lt by done. by rewrite lookup_drop.
Qed.

Lemma baseSlice_at_most array start size :
  length (baseSlice array start (start + size)) ≤ size.
Proof. unfold baseSlice. rewrite length_take. lia. Qed.

(** The [j]-th slice of the loop. *)
Lemma chunk_while_lookup fuel array size index j :
  0 < size → length array ≤ index + fuel →
  index + j * size < length array →
  chunk_while fuel array size index !! j
  = Some (baseSlice array (index + j * size) (index + j * size + size)).
Proof.
  intros Hsize. revert index j.
  induction fuel as [|fuel IH]; intros index j Hfuel Hj; [lia|].
  simpl. rewrite decide_True by lia.
  destruct j as [|j]; simpl.
  - by rewrite Nat.add_0_r.
  - rewrite IH by lia. do 2 f_equal; lia.
Qed.

Lemma chunk_while_at_most fuel array size index batch :
  batch ∈ chunk_while fuel array size index → length batch ≤ size.
Proof.
  revert index. induction fuel as [|fuel IH]; intros index Hin; simpl in *.
  - by apply elem_of_nil in Hin.
  - case_decide; [|by apply elem_of_nil in Hin].
    apply elem_of_cons in Hin as [->|Hin]; [|by eapply IH].
    apply baseSlice_at_most.
Qed.
End lists.

Lemma prepareAssociations_uniform creatives sizes lineItems :
  Forall (λ l, length l = length creatives)
    (prepareAssociations creatives sizes lineItems).
Proof.
  unfold prepareAssociations. apply Forall_fmap, Forall_forall.
  intros lineItem _. simpl. by rewrite length_fmap.
Qed.

(** The listing methods: one call, and the results as they are. *)
Lemma getLineItems_run env conditions w :
  let call := {| service := "LineItemService";
                 method := "getLineItemsByStatement";
                 input := _makeQuery env (heap w) conditions LINE_ITEM_FIELDS |} in
  let w' := set_remoteCalls (remoteCalls w ++ [call]) w in
  getLineItems env conditions w
  = match remote env (remoteCalls w) call with
    | ApiResolve response =>
        match results response with
        | Some rs => (Resolved rs, w')
        | None =>
            (Rejected (Error "Expected to find results, but there were none"),
             w')
        end
    | ApiReject reason => (Rejected (RemoteError reason), w')
    end.
Proof.
  intros call w'. unfold getLineItems. unchain. fold call.
  destruct (remote env (remoteCalls w) call) as [response|reason]; [|done].
  by destruct (results response).
Qed.

(** A listing method: the query, then the results of the answer. *)
Lemma listing_run env service method query w rs :
  let call := {| service := service; method := method; input := query |} in
  (then_ (executeAPIFunction env service method query) extractResults w).2
  = set_remoteCalls (remoteCalls w ++ [call]) w
  ∧ ((then_ (executeAPIFunction env service method query) extractResults w).1
     = Resolved rs
     ↔ remote env (remoteCalls w) call = ApiResolve {| results := Some rs |}).
Proof.
  intros call. unchain. fold call.
  destruct (remote env (remoteCalls w) call) as [[[rs'|]]|reason]; simpl;
    (split; [done|]); split; intros H; by simplify_eq.
Qed.

End AssociationFacts.

(** X15.  [prepareAssociations] followed by [_.flatten] pairs every line
    item with every creative id: the result has as many associations as
    there are line items times creative ids, and the association of the
    [i]-th line item with the [j]-th creative id stands at the place
    [i * (number of creative ids) + j], with the sizes of the script.  The
    id of the line item is taken as it is: a line item without an id gives
    an association whose [lineItemId] is [undefined]. *)
Theorem associations_pair_line_items_with_creatives (creatives : list val)
    (sizes : option val) (lineItems : list Result) :
  let associations :=
    Associations.flatten
      (Associations.prepareAssociations creatives sizes lineItems) in
  length associations = length lineItems * length creatives
  ∧ (∀ i j lineItem creativeId,
       lineItems !! i = Some lineItem → creatives !! j = Some creativeId →
       associations !! (i * length creatives + j)
       = Some {| Associations.lineItemId := Associations.id_of lineItem;
                 Associations.creativeId := creativeId;
                 Associations.sizes := sizes |})
  ∧ (∀ lineItem, result_id lineItem = None →
                 Associations.id_of lineItem = VUndef).
Proof.
  intros associations.
  pose proof (AssociationFacts.prepareAssociations_uniform creatives sizes
                lineItems) as Hall.
  split_and!.
  - unfold associations, Associations.flatten.
    rewrite (AssociationFacts.concat_uniform_length _ _ Hall).
    unfold Associations.prepareAssociations. by rewrite length_fmap.
  - intros i j lineItem creativeId Hi Hj.
    unfold associations, Associations.flatten.
    eapply AssociationFacts.concat_uniform_lookup; [exact Hall| |].
    + unfold Associations.prepareAssociations.
      rewrite list_lookup_fmap, Hi. reflexivity.
    + simpl. by rewrite list_lookup_fmap, Hj.
  - intros lineItem Hid. unfold Associations.id_of. by rewrite Hid.
Qed.

Lemma associations_pair_line_items_with_creatives_witness :
  Associations.flatten
    (Associations.prepareAssociations [VStr "c1"; VStr "c2"] None
       [ {| result_id := Some "l1" |}; {| result_id := None |} ])
  !! (1 * 2 + 1)
  = Some {| Associations.lineItemId := Associations.id_of {| result_id := None |};
            Associations.creativeId := VStr "c2";
            Associations.sizes := None |}
  ∧ Associations.id_of {| result_id := None |} = VUndef.
Proof.
  destruct (associations_pair_line_items_with_creatives
              [VStr "c1"; VStr "c2"] None
              [ {| result_id := Some "l1" |}; {| result_id := None |} ])
    as (_ & Hplace & Hid).
  split.
  - apply (Hplace 1 1 {| result_id := None |} (VStr "c2")); reflexivity.
  - apply Hid. reflexivity.
Defined.

(** X16.  For a positive batch size [n], the item at place [k] of the
    array is the item at place [k mod n] of the batch at place [k / n] of
    [_.chunk(array, n)]: the order of the items is kept, within the batches
    and across them.  No batch is empty and none has more than [n]
    items. *)
Theorem chunk_keeps_every_item_in_place {A} (items : list A) (n : nat) :
  0 < n →
  (∀ k x, items !! k = Some x →
          ∃ batch, Batch.chunk items n !! (k / n) = Some batch
                   ∧ batch !! (k mod n) = Some x)
  ∧ (∀ batch, batch ∈ Batch.chunk items n → 0 < length batch ≤ n).
Proof.
  intros Hn. unfold Batch.chunk.
  replace (Nat.max n 1) with n by lia. split.
  - intros k x Hk. pose proof (lookup_lt_Some _ _ _ Hk) as Hlt.
    pose proof (Nat.div_mod_eq k n) as Hdiv.
    pose proof (Nat.mod_upper_bound k n ltac:(lia)) as Hmod.
    eexists. split.
    + apply AssociationFacts.chunk_while_lookup; [done|lia|]. simpl. nia.
    + simpl. rewrite AssociationFacts.baseSlice_lookup by done.
      rewrite <- Hk. f_equal. lia.
  - intros batch Hin. split.
    + apply (BatchFacts.chunk_while_nonempty _ _ _ _ _ Hn) in Hin.
      destruct batch; [done|simpl; lia].
    + by eapply AssociationFacts.chunk_while_at_most.
Qed.

Lemma chunk_keeps_every_item_in_place_witness :
  (∃ batch, Batch.chunk (seq 0 250) 100 !! (230 / 100) = Some batch
            ∧ batch !! (230 mod 100) = Some 230)
  ∧ ∀ batch, batch ∈ Batch.chunk (seq 0 250) 100 → 0 < length batch ≤ 100.
Proof.
  split.
  - apply (proj1 (chunk_keeps_every_item_in_place (seq 0 250) 100
                    ltac:(lia)) 230 230).
    reflexivity.
  - apply (chunk_keeps_every_item_in_place (seq 0 250) 100). lia.
Defined.

(** X17.  The chain of the script that creates associations, from the
    query for the line items to the batches.  It asks the remote platform
    once.  When the answer has results, the chain resolves with the
    batches of 100 of the associations of every line item with every
    creative id: the batches put end to end are those associations, and
    there are [ceil(lines * creatives / 100)] of them, so none when the
    answer has no line item.  When the answer has no [results], the chain
    is rejected.  The chain of the script that deletes is the same with
    batches of 50 and associations without sizes. *)
Theorem association_chain_batches (env : Env) (creatives : list val)
    (sizes : val) (query : gmap string val) (w : World) (response : Response) :
  let call := {| service := "LineItemService";
                 method := "getLineItemsByStatement";
                 input := _makeQuery env (heap w) query LINE_ITEM_FIELDS |} in
  let w' := set_remoteCalls (remoteCalls w ++ [call]) w in
  remote env (remoteCalls w) call = ApiResolve response →
  match results response with
  | Some lineItems =>
      ∃ batches deleted,
        create_associations_chain env creatives sizes query w
        = (Resolved batches, w')
        ∧ concat batches
          = Associations.flatten
              (Associations.prepareAssociations creatives (Some sizes) lineItems)
        ∧ length batches
          = Batch.ceil_div (length lineItems * length creatives) 100
        ∧ delete_associations_chain env creatives query w
          = (Resolved deleted, w')
        ∧ concat deleted
          = Associations.flatten
              (Associations.prepareAssociations creatives None lineItems)
        ∧ length deleted
          = Batch.ceil_div (length lineItems * length creatives) 50
  | None =>
      ∃ e, create_associations_chain env creatives sizes query w
           = (Rejected e, w')
           ∧ delete_associations_chain env creatives query w = (Rejected e, w')
  end.
Proof.
  intros call w' Hremote.
  pose proof (AssociationFacts.getLineItems_run env query w) as Hrun.
  cbn zeta in Hrun. fold call in Hrun. fold w' in Hrun.
  rewrite Hremote in Hrun.
  unfold create_associations_chain, delete_associations_chain.
  destruct (results response) as [lineItems|].
  - unfold then_ at 1 4. rewrite Hrun. unfold then_, resolve.
    eexists _, _. split_and!; try reflexivity.
    + unfold Batch.splitBatches, Batch.chunk. simpl Nat.max.
      rewrite BatchFacts.chunk_while_concat by lia. apply drop_0.
    + unfold Batch.splitBatches, Batch.chunk. simpl Nat.max.
      rewrite BatchFacts.chunk_while_length by lia.
      rewrite Nat.sub_0_r. unfold Associations.flatten.
      rewrite (AssociationFacts.concat_uniform_length _ _
                 (AssociationFacts.prepareAssociations_uniform _ _ _)).
      unfold Associations.prepareAssociations. by rewrite length_fmap.
    + unfold Batch.splitBatches_delete, Batch.chunk. simpl Nat.max.
      rewrite BatchFacts.chunk_while_concat by lia. apply drop_0.
    + unfold Batch.splitBatches_delete, Batch.chunk. simpl Nat.max.
      rewrite BatchFacts.chunk_while_length by lia.
      rewrite Nat.sub_0_r. unfold Associations.flatten.
      rewrite (AssociationFacts.concat_uniform_length _ _
                 (AssociationFacts.prepareAssociations_uniform _ _ _)).
      unfold Associations.prepareAssociations. by rewrite length_fmap.
  - unfold then_ at 1 4. rewrite Hrun. eauto.
Qed.

Lemma association_chain_batches_witness :
  ∃ batches w',
    create_associations_chain Worlds.listing_env [VStr "c1"; VStr "c2"]
      (VStr "sizes") Worlds.order_query empty_world
    = (Resolved batches, w')
    ∧ length batches = 1
    ∧ length (concat batches) = 6
    ∧ length (remoteCalls w') = 1.
Proof.
  destruct (association_chain_batches Worlds.listing_env
              [VStr "c1"; VStr "c2"] (VStr "sizes") Worlds.order_query
              empty_world _ eq_refl)
    as (batches & deleted & Hrun & Hall & Hlen & _).
  eexists batches, _. split; [exact Hrun|]. split_and!.
  - by rewrite Hlen.
  - by rewrite Hall.
  - reflexivity.
Defined.

(** X18.  The listing methods [getLineItems], [getCreatives] and
    [getAssociations] go to no store: every call asks the remote platform
    exactly once, with the filter built from the conditions over the fields
    of the method, and changes nothing else.  The call resolves with a list
    exactly when the remote platform answered with that list as its
    results, the empty list included: unlike the lookups of an id, a
    listing that finds nothing is no error. *)
Theorem listing_methods_return_the_results (env : Env)
    (conditions : gmap string val) (w : World) (rs : list Result) :
  let asked service method fields :=
    {| service := service; method := method;
       input := _makeQuery env (heap w) conditions fields |} in
  let lineItems :=
    asked "LineItemService" "getLineItemsByStatement" LINE_ITEM_FIELDS in
  let creatives :=
    asked "CreativeService" "getCreativesByStatement" CREATIVE_FIELDS in
  let associations :=
    asked "LineItemCreativeAssociationService"
      "getLineItemCreativeAssociationsByStatement" ASSOCIATION_FIELDS in
  ((getLineItems env conditions w).2
   = set_remoteCalls (remoteCalls w ++ [lineItems]) w
   ∧ ((getLineItems env conditions w).1 = Resolved rs
      ↔ remote env (remoteCalls w) lineItems
        = ApiResolve {| results := Some rs |}))
  ∧ ((getCreatives env conditions w).2
     = set_remoteCalls (remoteCalls w ++ [creatives]) w
     ∧ ((getCreatives env conditions w).1 = Resolved rs
        ↔ remote env (remoteCalls w) creatives
          = ApiResolve {| results := Some rs |}))
  ∧ ((getAssociations env conditions w).2
     = set_remoteCalls (remoteCalls w ++ [associations]) w
     ∧ ((getAssociations env conditions w).1 = Resolved rs
        ↔ remote env (remoteCalls w) associations
          = ApiResolve {| results := Some rs |})).
Proof.
  intros asked lineItems creatives associations.
  split; [|split]; apply AssociationFacts.listing_run.
Qed.

Lemma listing_methods_return_the_results_witness :
  (getLineItems Worlds.listing_env Worlds.order_query empty_world).1
  = Resolved [ {| result_id := Some "l1" |}; {| result_id := None |};
               {| result_id := Some "l3" |} ]
  ∧ remote Worlds.listing_env []
      {| service := "CreativeService"; method := "getCreativesByStatement";
         input := _makeQuery Worlds.listing_env [] Worlds.order_query
                    CREATIVE_FIELDS |}
    = ApiResolve {| results := Some [ {| result_id := Some "l1" |};
                                      {| result_id := None |};
                                      {| result_id := Some "l3" |} ] |}.
Proof.
  split.
  - apply (proj2 (proj2 (proj1 (listing_methods_return_the_results
                                  Worlds.listing_env Worlds.order_query
                                  empty_world _)))).
    reflexivity.
  - apply (proj1 (proj2 (proj1 (proj2 (listing_methods_return_the_results
                                         Worlds.listing_env Worlds.order_query
                                         empty_world _))))).
    reflexivity.
Defined.

(** ** The helper properties of a line item *)

Module HelperFacts.
Import Alias Shape Invariants StepFacts.

#[export] Instance adds_no_helper_preorder : PreOrder adds_no_helper.
Proof.
  split.
  - intros w. by split.
  - intros w1 w2 w3 [L12 H12] [L23 H23]. split; [lia|].
    intros l name Hname Hl Habs. apply H23; [done|lia|]. by apply H12.
Qed.

Lemma lookup_remove_eq name props :
  lookup_prop name (remove_prop name props) = VUndef.
Proof.
  unfold remove_prop. induction props as [|[k v] props IH]; [done|].
  rewrite filter_cons. simpl. case_decide; simpl; [|done].
  by rewrite decide_False.
Qed.

Lemma lookup_remove_absent name name' props :
  lookup_prop name props = VUndef →
  lookup_prop name (remove_prop name' props) = VUndef.
Proof.
  intros Habs. destruct (decide (name = name')) as [->|Hne].
  - apply lookup_remove_eq.
  - by rewrite MissingFacts.lookup_remove_ne.
Qed.

Lemma anh_heap_const {A} (p : Promise A) :
  heap_const p → steps adds_no_helper p.
Proof. intros Hp w. split; rewrite Hp; [done|auto]. Qed.

Lemma anh_preserved w w' :
  (∀ l, l < length (heap w) → heap w' !! l = heap w !! l) →
  length (heap w) ≤ length (heap w') →
  adds_no_helper w w'.
Proof.
  intros Hsame Hlen. split; [done|].
  intros l name _ Hl. simpl. by rewrite Hsame.
Qed.

Lemma anh_cloneDeep v : steps adds_no_helper (cloneDeep v).
Proof.
  intros w.
  destruct (SafeFacts.safe_cloneDeep (length (heap w)) v w (le_n _)
              (FrameFacts.closed_above_length _)) as (Hsame & Hlen & _).
  by apply anh_preserved.
Qed.

Lemma anh_alloc o : steps adds_no_helper (alloc o).
Proof.
  intros w. apply anh_preserved; unfold alloc; destruct w; simpl.
  - intros l Hl. by apply lookup_app_l.
  - rewrite length_app. lia.
Qed.

Lemma anh_get_prop v name : steps adds_no_helper (get_prop v name).
Proof.
  apply anh_heap_const. intros w. unfold get_prop.
  destruct v as [| | | | | |l]; try done.
  by destruct (heap w !! l) as [[?|??]|].
Qed.

Lemma anh_get_index v i : steps adds_no_helper (get_index v i).
Proof.
  apply anh_heap_const. intros w. unfold get_index.
  destruct v as [| | | | | |l]; try done.
  by destruct (heap w !! l) as [[?|??]|].
Qed.

Lemma anh_push_target v : steps adds_no_helper (push_target v).
Proof. apply anh_heap_const. intros w. by destruct v. Qed.

(** A change of one cell that keeps what the cell lacks. *)
Lemma anh_update w l o o' :
  heap w !! l = Some o →
  (∀ name, name ∈ helper_names →
           prop_of [o] (VRef 0) name = VUndef →
           prop_of [o'] (VRef 0) name = VUndef) →
  adds_no_helper w (set_heap (<[l:=o']> (heap w)) w).
Proof.
  intros Hcell Hkeep. split.
  - destruct w; simpl. by rewrite length_insert.
  - intros l' name Hname Hl'. destruct w as [? ? ? ? ? ? ? h]. simpl in *.
    destruct (decide (l' = l)) as [->|Hne].
    + rewrite list_lookup_insert_eq by done. rewrite Hcell.
      apply (Hkeep name Hname).
    + by rewrite list_lookup_insert_ne.
Qed.

Lemma anh_set_prop v name x :
  Forall (λ helper, helper ≠ name) helper_names →
  steps adds_no_helper (set_prop v name x).
Proof.
  intros Hname w. unfold set_prop.
  destruct v as [| | | | | |l]; try reflexivity.
  destruct (heap w !! l) as [[props|elems extras]|] eqn:Hcell;
    try reflexivity; simpl;
    (eapply anh_update; [done|]); intros name' Hin; simpl;
    rewrite MissingFacts.lookup_assign_ne; try done;
    by eapply Forall_forall in Hname.
Qed.

Lemma anh_delete_prop v name : steps adds_no_helper (delete_prop v name).
Proof.
  intros w. unfold delete_prop.
  destruct v as [| | | | | |l]; try reflexivity.
  destruct (heap w !! l) as [[props|elems extras]|] eqn:Hcell;
    try reflexivity; simpl;
    (eapply anh_update; [done|]); intros name' Hin; simpl;
    apply lookup_remove_absent.
Qed.

Lemma anh_array_push v x : steps adds_no_helper (array_push v x).
Proof.
  intros w. unfold array_push.
  destruct v as [| | | | | |l]; try reflexivity.
  destruct (heap w !! l) as [[props|elems extras]|] eqn:Hcell;
    try reflexivity; simpl.
  by eapply anh_update.
Qed.

(** The end of a step: the property is deleted and the object returned. *)
Lemma ew_delete item name :
  ends_without item name (do delete_prop item name in resolve item).
Proof.
  intros w r w' Hrun. unfold then_ in Hrun.
  pose proof (anh_delete_prop item name w) as Hanh.
  destruct (delete_prop item name w) as [[[]|e] w1] eqn:Hdel; [|done].
  unfold resolve in Hrun.
  assert (r = item ∧ w' = w1) as [-> ->] by (by simplify_eq).
  split_and!; [done..|].
  unfold delete_prop in Hdel.
  destruct item as [| | | | | |l]; try done.
  destruct (heap w !! l) as [[props|elems extras]|] eqn:Hcell;
    simplify_eq; destruct w as [? ? ? ? ? ? ? h]; simpl in *;
    rewrite list_lookup_insert_eq by (by eapply lookup_lt_Some);
    apply lookup_remove_eq.
Qed.

Lemma ew_then {A} item name (p : Promise A) (f : A → Promise val) :
  steps adds_no_helper p → (∀ a, ends_without item name (f a)) →
  ends_without item name (then_ p f).
Proof.
  intros Hp Hf w r w' Hrun. unfold then_ in Hrun.
  specialize (Hp w). destruct (p w) as [[a|e] w1]; [|done].
  destruct (Hf a _ _ _ Hrun) as (-> & Hanh & Habs).
  split_and!; [done| |done]. by etrans.
Qed.

(** What the clone of a value lacks, the value the chain ends with lacks
    too. *)
Lemma cloned_step v name (body : val → Promise val) w r w' :
  (∀ item, ends_without item name (body item)) →
  then_ (cloneDeep v) body w = (Resolved r, w') →
  prop_of (heap w') r name = VUndef
  ∧ ∀ helper, helper ∈ helper_names →
              prop_of (heap w) v helper = VUndef →
              prop_of (heap w') r helper = VUndef.
Proof.
  intros Hbody Hrun. unfold then_ in Hrun.
  destruct (cloneDeep v w) as [[item|e] wc] eqn:Hclone; [|done].
  destruct (Hbody item _ _ _ Hrun) as (-> & [_ Hanh] & Habs).
  split; [done|]. intros helper Hin Hno.
  pose proof (CloneFacts.cloneDeep_prop_absent _ _ _ _ helper Hclone Hno)
    as Hno'.
  destruct item as [| | | | | |l]; try done.
  apply Hanh; [done| |done].
  destruct (CloneFacts.cloneDeep_cell _ _ _ _ Hclone) as [o Ho].
  by eapply lookup_lt_Some.
Qed.

(** Goes through the links of a step. *)
Ltac helper_steps :=
  repeat first
    [ apply ew_delete
    | apply anh_cloneDeep | apply anh_alloc | apply anh_get_prop
    | apply anh_get_index | apply anh_push_target | apply anh_delete_prop
    | apply anh_array_push
    | apply anh_set_prop; repeat constructor; done
    | apply anh_heap_const;
      first [ apply HeapConst.getOrder_heap | apply HeapConst.getAdUnit_heap
            | apply HeapConst.getCriteria_heap
            | apply HeapConst.hc_read_heap | apply HeapConst.hc_console_log ]
    | apply steps_forEach; [apply _|intros ?]
    | apply steps_then; [apply _| |intros ?]
    | apply ew_then; [|intros ?] ].

Section pipeline.
Context (env : Env).

Lemma replaceStartDate_ends item :
  ends_without item "date"
    (let* d := get_prop item "date" in
     let* h := read_heap in
     let date := moment env h d "MM-DD-YYYY, H:mm:ss" in
     let* dateObj :=
       alloc (HObj [("year", VStr (EmptyString +:+ num_to_string (m_year date)));
                    ("month", VStr (EmptyString +:+ num_to_string
                                              ((λ m, m + 1)%Z <$> m_month date)));
                    ("day", VStr (EmptyString +:+ num_to_string (m_date date)))]) in
     let* startDateTime :=
       alloc (HObj [("date", dateObj);
                    ("hour", num_to_val (m_hour date));
                    ("minute", num_to_val (m_minute date));
                    ("second", VStr "0");
                    ("timeZoneID", VStr "Europe/Oslo")]) in
     do set_prop item "startDateTime" startDateTime in
     do delete_prop item "date" in
     resolve item).
Proof. helper_steps. Qed.

Lemma replaceStartDate_helpers v w r w' :
  replaceStartDate env v w = (Resolved r, w') →
  prop_of (heap w') r "date" = VUndef
  ∧ ∀ helper, helper ∈ helper_names →
              prop_of (heap w) v helper = VUndef →
              prop_of (heap w') r helper = VUndef.
Proof.
  apply (cloned_step v "date"). intros item. apply replaceStartDate_ends.
Qed.

Lemma replaceOrderName_helpers v w r w' :
  replaceOrderName env v w = (Resolved r, w') →
  prop_of (heap w') r "orderName" = VUndef
  ∧ ∀ helper, helper ∈ helper_names →
              prop_of (heap w) v helper = VUndef →
              prop_of (heap w') r helper = VUndef.
Proof.
  apply (cloned_step v "orderName"). intros item. helper_steps.
Qed.

Lemma replaceAdUnitName_helpers v w r w' :
  replaceAdUnitName env v w = (Resolved r, w') →
  prop_of (heap w') r "adUnitName" = VUndef
  ∧ ∀ helper, helper ∈ helper_names →
              prop_of (heap w) v helper = VUndef →
              prop_of (heap w') r helper = VUndef.
Proof.
  apply (cloned_step v "adUnitName"). intros item. helper_steps.
Qed.

Lemma addCriteria_helpers v w r w' :
  addCriteria env v w = (Resolved r, w') →
  prop_of (heap w') r "customCriteriaKVPairs" = VUndef
  ∧ ∀ helper, helper ∈ helper_names →
              prop_of (heap w) v helper = VUndef →
              prop_of (heap w') r helper = VUndef.
Proof.
  apply (cloned_step v "customCriteriaKVPairs"). intros item.
  helper_steps.
Qed.
End pipeline.

End HelperFacts.

(** X19.  What [prepareLineItem] resolves with has none of the properties
    that stand for something to look up, [date], [orderName],
    [adUnitName] and [customCriteriaKVPairs], whatever the line item it was
    given and whatever the remote platform answered: each step deletes its
    own from the clone it returns, and no later step puts one back.  Each
    step on its own returns an object without its property and without any
    of the four that its argument did not have. *)
Theorem prepared_line_item_has_no_helper_property (env : Env) (w w' : World)
    (lineItem result : val) :
  (prepareLineItem env lineItem w = (Resolved result, w') →
   ∀ name, name ∈ Invariants.helper_names →
           Shape.prop_of (heap w') result name = VUndef)
  ∧ (replaceStartDate env lineItem w = (Resolved result, w') →
     Shape.prop_of (heap w') result "date" = VUndef)
  ∧ (replaceOrderName env lineItem w = (Resolved result, w') →
     Shape.prop_of (heap w') result "orderName" = VUndef)
  ∧ (replaceAdUnitName env lineItem w = (Resolved result, w') →
     Shape.prop_of (heap w') result "adUnitName" = VUndef)
  ∧ (addCriteria env lineItem w = (Resolved result, w') →
     Shape.prop_of (heap w') result "customCriteriaKVPairs" = VUndef).
Proof.
  split_and!.
  - unfold prepareLineItem. intros Hrun.
    unfold then_ at 1 in Hrun. unfold console_log at 1 in Hrun.
    unfold then_ at 1 in Hrun.
    destruct (replaceStartDate env lineItem _) as [[item1|e] w1] eqn:H1;
      [|done].
    unfold then_ at 1 in Hrun.
    destruct (replaceOrderName env item1 w1) as [[item2|e] w2] eqn:H2; [|done].
    unfold then_ at 1 in Hrun.
    destruct (replaceAdUnitName env item2 w2) as [[item3|e] w3] eqn:H3;
      [|done].
    apply HelperFacts.replaceStartDate_helpers in H1 as [D1 _].
    apply HelperFacts.replaceOrderName_helpers in H2 as [O2 K2].
    apply HelperFacts.replaceAdUnitName_helpers in H3 as [A3 K3].
    apply HelperFacts.addCriteria_helpers in Hrun as [C4 K4].
    assert (∀ name, name ∈ Invariants.helper_names → name = "date"
                    ∨ name = "orderName" ∨ name = "adUnitName"
                    ∨ name = "customCriteriaKVPairs") as Hcases.
    { intros name. unfold Invariants.helper_names.
      rewrite !elem_of_cons, elem_of_nil. tauto. }
    intros name Hin.
    destruct (Hcases name Hin) as [->|[->|[->| ->]]]; auto 10.
  - intros Hrun. by apply HelperFacts.replaceStartDate_helpers in Hrun as [? _].
  - intros Hrun. by apply HelperFacts.replaceOrderName_helpers in Hrun as [? _].
  - intros Hrun. by apply HelperFacts.replaceAdUnitName_helpers in Hrun as [? _].
  - intros Hrun. by apply HelperFacts.addCriteria_helpers in Hrun as [? _].
Qed.

Lemma prepared_line_item_has_no_helper_property_witness :
  Forall (λ name, Shape.prop_of (heap Runs.prepared.2) (VRef 52) name = VUndef)
    Invariants.helper_names
  ∧ Shape.prop_of (heap Worlds.start_date_run.2) (VRef 11) "date" = VUndef
  ∧ Shape.prop_of (heap Worlds.order_name_run.2) (VRef 11) "orderName" = VUndef
  ∧ Shape.prop_of (heap Worlds.ad_unit_run.2) (VRef 11) "adUnitName" = VUndef
  ∧ Shape.prop_of (heap Worlds.criteria_run.2) (VRef 11)
      "customCriteriaKVPairs" = VUndef.
Proof.
  split_and!.
  - apply Forall_forall.
    apply (proj1 (prepared_line_item_has_no_helper_property Scenario.mock_env
                    Scenario.lineItem_world Runs.prepared.2 (VRef 0) (VRef 52))).
    by vm_compute.
  - apply (proj1 (proj2 (prepared_line_item_has_no_helper_property
                           Scenario.mock_env Scenario.lineItem_world
                           Worlds.start_date_run.2 (VRef 0) (VRef 11)))).
    by vm_compute.
  - apply (proj1 (proj2 (proj2 (prepared_line_item_has_no_helper_property
                                  Scenario.mock_env Scenario.lineItem_world
                                  Worlds.order_name_run.2 (VRef 0) (VRef 11))))).
    by vm_compute.
  - apply (proj1 (proj2 (proj2 (proj2
             (prepared_line_item_has_no_helper_property
                Scenario.mock_env Scenario.lineItem_world
                Worlds.ad_unit_run.2 (VRef 0) (VRef 11)))))).
    by vm_compute.
  - apply (proj2 (proj2 (proj2 (proj2
             (prepared_line_item_has_no_helper_property
                Scenario.mock_env Scenario.lineItem_world
                Worlds.criteria_run.2 (VRef 0) (VRef 11)))))).
    by vm_compute.
Defined.

(** ** The start date *)

Module DateFacts.
Import Alias Shape Literal CloneFacts FrameFacts.

Lemma lookup_prop_zip_primitive name props vs x :
  Forall2 (λ x x', (∀ l, x ≠ VRef l) → x' = x) props.*2 vs →
  lookup_prop name props = x → primitive x →
  lookup_prop name (zip props.*1 vs) = x.
Proof.
  revert vs. induction props as [|[k v] props IH]; intros vs Hall; simpl.
  - done.
  - simpl in Hall.
    apply Forall2_cons_inv_l in Hall as (v' & vs' & Hv & Hall & ->).
    simpl. case_decide; [|eauto].
    intros -> Hx. apply Hv. intros l ->. done.
Qed.

(** The clone of a plain object is a plain object with the same
    primitive values under the same names. *)
Lemma cloneDeep_plain l props w v' w' :
  heap w !! l = Some (HObj props) →
  cloneDeep (VRef l) w = (Resolved v', w') →
  ∃ l' props',
    v' = VRef l' ∧ heap w' !! l' = Some (HObj props')
    ∧ length (heap w) ≤ l'
    ∧ ∀ name x, lookup_prop name props = x → primitive x →
                lookup_prop name props' = x.
Proof.
  intros Hcell. unfold cloneDeep. intros Hrun.
  destruct (baseClone (S (length (heap w))) (VRef l) (∅, heap w))
    as [[v1 st1]|] eqn:Hclone; [|done].
  simplify_eq. simpl in Hclone. rewrite lookup_empty, Hcell in Hclone.
  destruct (clone_list _ props.*2 _) as [[vs st2]|] eqn:Hvs; [|done].
  simplify_eq.
  destruct (clone_list_inv (length (heap w)) _
              (baseClone_inv (length (heap w)) _) _ _ _ _ Hvs)
    as (_ & [_ Hlen] & _).
  { split_and!; simpl.
    - rewrite length_app. lia.
    - apply closed_above_snoc; [apply closed_above_length|done].
    - intros l1 l2 Hl. apply lookup_insert_Some in Hl as [[_ <-]|[_ Hl]];
        [done|by rewrite lookup_empty in Hl]. }
  simpl in Hlen. rewrite length_app in Hlen. simpl in Hlen.
  eexists _, _. split; [done|]. destruct w; simpl in *.
  split_and!.
  - by rewrite list_lookup_insert_eq by lia.
  - done.
  - intros name x Hx Hprim.
    eapply lookup_prop_zip_primitive; [|done..]. by eapply clone_list_prims.
Qed.

Section date.
Context (env : Env).

Lemma replaceStartDate_plain l props w d :
  heap_wf (heap w) → heap w !! l = Some (HObj props) →
  lookup_prop "date" props = d → primitive d →
  ∃ l' w',
    let wc := (cloneDeep (VRef l) w).2 in
    let date := moment env (heap wc) d "MM-DD-YYYY, H:mm:ss" in
    let n := length (heap wc) in
    replaceStartDate env (VRef l) w = (Resolved (VRef l'), w')
    ∧ prop_of (heap w') (VRef l') "startDateTime" = VRef (S n)
    ∧ prop_of (heap w') (VRef l') "date" = VUndef
    ∧ heap w' !! S n
      = Some (HObj [("date", VRef n);
                    ("hour", num_to_val (m_hour date));
                    ("minute", num_to_val (m_minute date));
                    ("second", VStr "0");
                    ("timeZoneID", VStr "Europe/Oslo")])
    ∧ heap w' !! n
      = Some (HObj [("year", VStr (num_to_string (m_year date)));
                    ("month", VStr (num_to_string
                                      ((λ m, m + 1)%Z <$> m_month date)));
                    ("day", VStr (num_to_string (m_date date)))]).
Proof.
  intros Hwf Hcell Hdate Hprim.
  destruct (cloneDeep_total (VRef l) w Hwf) as (item & wc & Hclone).
  { simpl. by eapply lookup_lt_Some. }
  destruct (cloneDeep_plain _ _ _ _ _ Hcell Hclone)
    as (l' & props' & -> & Hcell' & _ & Hsame).
  pose proof (Hsame "date" d Hdate Hprim) as Hdate'.
  pose proof (lookup_lt_Some _ _ _ Hcell') as Hlt.
  exists l'. unfold replaceStartDate. rewrite Hclone.
  unfold then_ at 1. rewrite Hclone.
  unfold then_, get_prop, read_heap, alloc, set_prop, delete_prop, resolve.
  rewrite Hcell', Hdate'. cbn [fst snd].
  destruct wc as [? ? ? ? ? ? ? h]. cbn [heap set_heap] in *.
  rewrite !lookup_app_l by (rewrite ?length_app; simpl; lia).
  rewrite Hcell'. cbn [heap set_heap].
  rewrite list_lookup_insert_eq by (rewrite !length_app; simpl; lia).
  cbn [heap set_heap].
  eexists. split; [reflexivity|]. cbn [heap set_heap prop_of].
  rewrite list_insert_insert_eq.
  rewrite list_lookup_insert_eq by (rewrite !length_app; simpl; lia).
  rewrite !list_lookup_insert_ne by lia.
  split_and!.
  - rewrite MissingFacts.lookup_remove_ne by done.
    rewrite MissingFacts.lookup_assign_eq. f_equal.
    rewrite length_app. simpl. lia.
  - apply HelperFacts.lookup_remove_eq.
  - rewrite lookup_app_r by (rewrite length_app; simpl; lia).
    rewrite length_app. simpl.
    by replace (S (length h) - (length h + 1)) with 0 by lia.
  - rewrite lookup_app_l by (rewrite length_app; simpl; lia).
    by rewrite list_lookup_middle.
Qed.
End date.

End DateFacts.

(** X20.  [replaceStartDate] does not check the date.  On a plain object
    of a well-formed heap whose [date] is a primitive value, or is absent,
    it always resolves: the clone it returns has lost [date] and has as
    [startDateTime] a new object made of whatever [moment] gave for that
    value, the month counted from one.  Where [moment] gives an invalid
    date, every part of which is [NaN], the line item gets the year, month
    and day ["NaN"] and the hour and minute [NaN], and nothing is
    rejected. *)
Theorem start_date_is_not_validated (env : Env) (w : World) (l : nat)
    (props : list (string * val)) :
  Shape.heap_wf (heap w) → heap w !! l = Some (HObj props) →
  Literal.primitive (lookup_prop "date" props) →
  ∃ l' w',
    let wc := (cloneDeep (VRef l) w).2 in
    let date := moment env (heap wc) (lookup_prop "date" props)
                  "MM-DD-YYYY, H:mm:ss" in
    let n := length (heap wc) in
    replaceStartDate env (VRef l) w = (Resolved (VRef l'), w')
    ∧ Shape.prop_of (heap w') (VRef l') "startDateTime" = VRef (S n)
    ∧ Shape.prop_of (heap w') (VRef l') "date" = VUndef
    ∧ heap w' !! S n
      = Some (HObj [("date", VRef n);
                    ("hour", num_to_val (m_hour date));
                    ("minute", num_to_val (m_minute date));
                    ("second", VStr "0");
                    ("timeZoneID", VStr "Europe/Oslo")])
    ∧ heap w' !! n
      = Some (HObj [("year", VStr (num_to_string (m_year date)));
                    ("month", VStr (num_to_string
                                      ((λ m, m + 1)%Z <$> m_month date)));
                    ("day", VStr (num_to_string (m_date date)))])
    ∧ (date = {| m_year := None; m_month := None; m_date := None;
                 m_hour := None; m_minute := None |} →
       heap w' !! S n
       = Some (HObj [("date", VRef n); ("hour", VNaN); ("minute", VNaN);
                     ("second", VStr "0"); ("timeZoneID", VStr "Europe/Oslo")])
       ∧ heap w' !! n
         = Some (HObj [("year", VStr "NaN"); ("month", VStr "NaN");
                       ("day", VStr "NaN")])).
Proof.
  intros Hwf Hcell Hprim.
  destruct (DateFacts.replaceStartDate_plain env l props w _ Hwf Hcell eq_refl
              Hprim) as (l' & w' & Hrun & Hsdt & Hdate & Htime & Hday).
  exists l', w'. cbn zeta in *. split_and!; try done.
  intros Hnan. rewrite Hnan in Htime, Hday. done.
Qed.

Lemma start_date_is_not_validated_witness :
  (∃ l' w',
     replaceStartDate Scenario.mock_env (VRef 0) Worlds.undated_world
     = (Resolved (VRef l'), w')
     ∧ Shape.prop_of (heap w') (VRef l') "startDateTime" = VRef 3
     ∧ heap w' !! 3
       = Some (HObj [("date", VRef 2); ("hour", VNaN); ("minute", VNaN);
                     ("second", VStr "0"); ("timeZoneID", VStr "Europe/Oslo")])
     ∧ heap w' !! 2
       = Some (HObj [("year", VStr "NaN"); ("month", VStr "NaN");
                     ("day", VStr "NaN")]))
  ∧ (∃ l' w',
       replaceStartDate Scenario.mock_env (VRef 0) Worlds.misdated_world
       = (Resolved (VRef l'), w')
       ∧ Shape.prop_of (heap w') (VRef l') "date" = VUndef
       ∧ heap w' !! 3
         = Some (HObj [("date", VRef 2); ("hour", VNum 0); ("minute", VNum 0);
                       ("second", VStr "0");
                       ("timeZoneID", VStr "Europe/Oslo")])
       ∧ heap w' !! 2
         = Some (HObj [("year", VStr "2017"); ("month", VStr "10");
                       ("day", VStr "2")])).
Proof.
  split.
  - destruct (start_date_is_not_validated Scenario.mock_env Worlds.undated_world
                0 [("name", VStr "PREBID_0.50"); ("date", VNull)])
      as (l' & w' & Hrun & Hsdt & _ & _ & _ & Hnan).
    + intros l o Hl.
      destruct l as [|l]; simpl in Hl; simplify_eq; simpl; repeat constructor.
    + reflexivity.
    + exact I.
    + exists l', w'. destruct (Hnan eq_refl) as [Htime Hday].
      split_and!; [exact Hrun|exact Hsdt|exact Htime|exact Hday].
  - destruct (start_date_is_not_validated Scenario.mock_env
                Worlds.misdated_world
                0 [("name", VStr "PREBID_0.50"); ("date", VStr "tomorrow")])
      as (l' & w' & Hrun & _ & Hdate & Htime & Hday & _).
    + intros l o Hl.
      destruct l as [|l]; simpl in Hl; simplify_eq; simpl; repeat constructor.
    + reflexivity.
    + exact I.
    + exists l', w'.
      split_and!; [exact Hrun|exact Hdate|exact Htime|exact Hday].
Defined.
